(** * The alignment cache of aligner_cache.h, embedded and verified

    The development follows the header top-down: the encoded key [QKey],
    the payloads [QVal] and [SAVal], the view [SATuple] with its random
    narrowing, one cache tier [AlignmentCache] and the session interface
    [AlignmentCacheIface].  Fixed-width C++ integers are integers of [Z]
    with the wrap-around written where the source computes in that width;
    maps are stdpp's [gmap]; pointers into a tier are named handles. *)

From Stdlib Require Import ZArith Lia.
From stdpp Require Import base option list gmap.

Local Open Scope Z_scope.

(** ** Machine integers *)

(** Value of an unsigned [w]-bit result. *)
Definition wrap (w : Z) (z : Z) : Z := z mod 2 ^ w.

Definition u32 : Z -> Z := wrap 32.
Definition u64 : Z -> Z := wrap 64.

(** The value an [int] takes when it is initialised from a [uint32_t]. *)
Definition as_int (z : Z) : Z := if z <? 2 ^ 31 then z else z - 2 ^ 32.

(** The sentinel 0xffffffff used for "invalid" throughout the header. *)
Definition SENTINEL : Z := 0xffffffff.

(** ** DNA strings

    Modelled from the spec: [BTDnaString] is declared in a header that is
    not part of this file's source; it is a sequence of base codes
    (A=0, C=1, G=2, T=3, N=4) with [length], [get], [set] and [resize]. *)
Abbreviation BTDnaString := (list Z).

Definition base_A : Z := 0.
Definition base_C : Z := 1.
Definition base_G : Z := 2.
Definition base_T : Z := 3.
Definition base_N : Z := 4.

(** [s.length()], a [size_t]. *)
Definition str_length (s : BTDnaString) : Z := Z.of_nat (length s).

(** [s.resize(n)]: keeps the first [n] characters, pads with code 0. *)
Definition str_resize (s : BTDnaString) (n : Z) : BTDnaString :=
  take (Z.to_nat n) s ++ replicate (Z.to_nat n - length s)%nat 0.

(** [s.set(c, i)]. *)
Definition str_set (c : Z) (i : Z) (s : BTDnaString) : BTDnaString :=
  <[Z.to_nat i := c]> s.

(** A string over {A,C,G,T}. *)
Definition is_acgt (s : BTDnaString) : Prop := Forall (fun c => 0 <= c < 4) s.

(** ** QKey *)

Module QKey.

Record t : Type := mk { seq : Z; len : Z }.

(** [reset()]. *)
Definition reset : t := {| seq := 0; len := SENTINEL |}.

(** [cacheable()]. *)
Definition cacheable (k : t) : bool := negb (len k =? SENTINEL).

(** [repOk()]. *)
Definition repOk (k : t) : bool := negb (len k =? SENTINEL).

(** The loop of [init]: [rest] is the part of [s] from index [i] on.
    The result carries the key and the value returned by [init]. *)
Fixpoint init_loop (rest : BTDnaString) (i : Z) (k : t) : t * bool :=
  match rest with
  | [] => (k, true)
  | c :: rest' =>
      if 32 <=? i then (k, true)
      else if c =? 4 then ({| seq := seq k; len := SENTINEL |}, false)
      else init_loop rest' (i + 1)
             {| seq := u64 (Z.lor (Z.shiftl (seq k) 2) c); len := len k |}
  end.

(** [init(s)]: the key built and the returned flag. *)
Definition init (s : BTDnaString) : t * bool :=
  let l := u32 (str_length s) in
  if 32 <? l then ({| seq := 0; len := SENTINEL |}, false)
  else init_loop s 0 {| seq := 0; len := l |}.

(** The constructor [QKey(s)]. *)
Definition of_string (s : BTDnaString) : t := (init s).1.

(** The loop of [toString], from [i] down to 0. *)
Fixpoint toString_loop (fuel : nat) (i : Z) (sq : Z) (s : BTDnaString)
  : BTDnaString :=
  match fuel with
  | O => s
  | S fuel' =>
      if 0 <=? i
      then toString_loop fuel' (i - 1) (Z.shiftr sq 2) (str_set (Z.land sq 3) i s)
      else s
  end.

(** [toString(s)]: [s] is the string written to. *)
Definition toString (k : t) (s : BTDnaString) : BTDnaString :=
  let i := as_int (u32 (len k - 1)) in
  toString_loop (Z.to_nat (i + 1)) i (seq k) (str_resize s (len k)).

(** [operator<], [operator==]. *)
Definition lt (a b : t) : bool :=
  (seq a <? seq b) || ((seq a =? seq b) && (len a <? len b)).

Definition eqb (a b : t) : bool := (seq a =? seq b) && (len a =? len b).

(** [operator>], [operator!=]. *)
Definition gt (a b : t) : bool := negb (lt a b || eqb a b).

Definition neqb (a b : t) : bool := negb (eqb a b).

End QKey.

(** The pair of bits of [x] at positions [2j] and [2j+1]. *)
Definition bitpair (x : Z) (j : Z) : Z := Z.land (Z.shiftr x (2 * j)) 3.

(** The number a string over {A,C,G,T} denotes in base 4, leftmost
    character most significant. *)
Definition base4 (s : BTDnaString) : Z := fold_left (fun a c => 4 * a + c) s 0.


#[global] Instance QKey_eq_dec : EqDecision QKey.t.
Proof. solve_decision. Defined.

#[global] Instance QKey_countable : Countable QKey.t.
Proof.
  apply (inj_countable' (fun k => (QKey.seq k, QKey.len k))
                        (fun p => QKey.mk p.1 p.2)).
  intros []; reflexivity.
Defined.

(** ** QVal *)

Module QVal.

Record t : Type := mk { i_ : Z; rangen_ : Z; eltn_ : Z }.

(** [reset()], also the state the default constructor leaves. *)
Definition reset : t := {| i_ := 0; rangen_ := SENTINEL; eltn_ := SENTINEL |}.

Definition offset (q : t) : Z := i_ q.
Definition numRanges (q : t) : Z := rangen_ q.
Definition numElts (q : t) : Z := eltn_ q.

(** [valid()]. *)
Definition valid (q : t) : bool := negb (rangen_ q =? SENTINEL).

(** [empty()]. *)
Definition empty (q : t) : bool := numRanges q =? 0.

(** [init(i, ranges, elts)]. *)
Definition init (i ranges elts : Z) : t :=
  {| i_ := i; rangen_ := ranges; eltn_ := elts |}.

(** [addRange(numElts)], on [uint32_t] counters. *)
Definition addRange (n : Z) (q : t) : t :=
  {| i_ := i_ q; rangen_ := u32 (rangen_ q + 1); eltn_ := u32 (eltn_ q + n) |}.

End QVal.

(** ** SAKey and SAVal *)

(** [typedef QKey SAKey]. *)
Abbreviation SAKey := QKey.t.

Module SAVal.

Record t : Type := mk { top : Z; i : Z; len : Z }.

(** The default constructor [SAVal()]. *)
Definition default : t := {| top := 0; i := 0; len := SENTINEL |}.

Definition valid (v : t) : bool := negb (len v =? SENTINEL).

(** [init(t, ii, ln)]. *)
Definition init (t0 ii ln : Z) : t := {| top := t0; i := ii; len := ln |}.

End SAVal.

(** ** TSlice

    Modelled from the spec: [PListSlice] is declared in ds.h, which is not
    part of this file's source.  A slice is a borrowed view into a tier's
    list of offsets: a start index and a length. *)
Module TSlice.

Record t : Type := mk { i_ : Z; len_ : Z }.

Definition size (s : t) : Z := len_ s.

Definition reset : t := {| i_ := 0; len_ := 0 |}.

(** [init(sl, first, last)]: narrows [sl] to its rows [first .. last). *)
Definition init (sl : t) (first last : Z) : t :=
  {| i_ := u64 (i_ sl + first); len_ := u64 (last - first) |}.

End TSlice.

(** ** SATuple *)

Module SATuple.

Record t : Type := mk { key : SAKey; top : Z; offs : TSlice.t }.

Definition reset : t :=
  {| key := QKey.reset; top := SENTINEL; offs := TSlice.reset |}.

(** [init(src, first, last)]. *)
Definition init_sub (src : t) (first last : Z) : t :=
  {| key := key src;
     top := u32 (top src + u32 first);
     offs := TSlice.init (offs src) first last |}.

(** The locals of [randomNarrow] that live across loop iterations. *)
Record narrow : Type := mkNarrow {
  on : bool;
  totrows : Z;
  totrowsSampled : Z;
  dst : list t
}.

(** One iteration of the inner loop over [src[i] = x]; the flag returned is
    [done], set when the iteration leaves through [break]. *)
Definition narrow_step (maxrows off : Z) (x : t) (st : narrow) : narrow * bool :=
  let sz := TSlice.size (offs x) in
  let st1 :=
    if negb (on st) then
      if off <? u64 (totrows st + sz) then
        let first := u64 (off - totrows st) in
        let last := u64 (first + maxrows) in
        let last := if sz <? last then sz else last in
        {| on := true;
           totrows := totrows st;
           totrowsSampled := u64 (totrowsSampled st + u64 (last - first));
           dst := dst st ++ [init_sub x first last] |}
      else
        {| on := false;
           totrows := totrows st;
           totrowsSampled := totrowsSampled st;
           dst := dst st |}
    else
      let first := 0 in
      let last := u64 (maxrows - totrowsSampled st) in
      let last := if sz <? last then sz else last in
      {| on := true;
         totrows := totrows st;
         totrowsSampled := u64 (totrowsSampled st + u64 (last - first));
         dst := dst st ++ [init_sub x first last] |} in
  if totrowsSampled st1 =? maxrows then (st1, true)
  else ({| on := on st1;
           totrows := u64 (totrows st1 + sz);
           totrowsSampled := totrowsSampled st1;
           dst := dst st1 |}, false).

(** The inner loop [for(i = 0; i < src.size(); i++)]. *)
Fixpoint narrow_inner (maxrows off : Z) (src : list t) (st : narrow)
  : narrow * bool :=
  match src with
  | [] => (st, false)
  | x :: src' =>
      let '(st', done) := narrow_step maxrows off x st in
      if done then (st', true) else narrow_inner maxrows off src' st'
  end.

(** The outer loop [for(twice = 0; twice < 2; twice++)]. *)
Fixpoint narrow_twice (twice : nat) (maxrows off : Z) (src : list t)
  (st : narrow) : narrow :=
  match twice with
  | O => st
  | S twice' =>
      let '(st', done) := narrow_inner maxrows off src st in
      if done then st' else narrow_twice twice' maxrows off src st'
  end.

(** The first loop: the total number of rows, a [size_t]. *)
Definition count_rows (src : list t) : Z :=
  fold_left (fun a x => u64 (a + TSlice.size (offs x))) src 0.

(** [randomNarrow(src, dst, rnd, maxrows)].  [rnd] is the value drawn by
    [rnd.nextU32()]; the result is the returned flag and the final [dst]. *)
Definition randomNarrow (src dst0 : list t) (rnd : Z) (maxrows : Z)
  : bool * list t :=
  let total := count_rows src in
  if total <=? maxrows then (false, dst0)
  else
    let off := u32 (rnd mod total) in
    let st := narrow_twice 2 maxrows off src
                {| on := false; totrows := 0; totrowsSampled := 0; dst := dst0 |} in
    (true, dst st).

End SATuple.

(** [x.offs.size()]. *)
Abbreviation sz x := (TSlice.size (SATuple.offs x)).

(** The rows of a list of tuples, as the mathematical sum of slice sizes. *)
Fixpoint rows (l : list SATuple.t) : Z :=
  match l with
  | [] => 0
  | x :: l' => sz x + rows l'
  end.

(** [t] is a sub-range of [x]: the rows [first .. last) of [x], within
    its slice. *)
Definition subrange (x t : SATuple.t) : Prop :=
  exists first last,
    0 <= first <= last /\ last <= sz x /\ t = SATuple.init_sub x first last.

(** What the loop of [randomNarrow] keeps true before sampling starts:
    the rows counted so far do not pass row [off]. *)
Definition before_off (off : Z) (st : SATuple.narrow) : Prop :=
  SATuple.on st = false -> 0 <= SATuple.totrows st <= off.

(** Every slice size is a [size_t] value. *)
Definition sizes_ok (l : list SATuple.t) : Prop :=
  Forall (fun x => 0 <= sz x < 2 ^ 64) l.

(** ** Pool and containers

    Modelled from the spec: [Pool], [RedBlack] and [PList] are declared in
    ds.h, which is not part of this file's source.  The pool is a page
    allocator with a byte budget; the four containers of a tier draw their
    storage from it, and an insertion or append fails when the pool is
    exhausted.  The allocator is kept abstract: [pool_alloc c p] asks for
    room for one more element of container [c] and answers [None] on
    exhaustion; [pool_clear] is the reset done by [clear()]. *)
Inductive Container : Type := CQMap | CQList | CSAMap | CSAList.

Class PoolOps (Pool : Type) : Type := {
  pool_alloc : Container -> Pool -> option Pool;
  pool_clear : Pool -> Pool
}.

(** A pool that counts: the room left and the capacity, to which [clear]
    returns.  It is the pool of the examples. *)
#[global] Instance counting_pool : PoolOps (nat * nat) := {
  pool_alloc _ p := match p.1 with O => None | S n => Some (n, p.2) end;
  pool_clear p := (p.2, p.2)
}.

(** A counting pool with room for [n] elements. *)
Definition pool_of (n : nat) : nat * nat := (n, n).

(** Modelled from the spec: [RedBlack::add(pool, key, &added)] inserts
    [key] (no-op if present) and returns a handle to the node and, through
    [added], whether a new node was created; the handle is null if the pool
    is exhausted.  [added] is the caller's variable: it is written false for
    a key that is present and true for a key that is inserted, and it is
    left as it was when the pool is exhausted (the callers test the handle
    for null after they have tested the flag).  A handle to a node is the
    node's key. *)
Definition rb_add `{PoolOps Pool} {V : Type} (ct : Container) (dflt : V)
  (p : Pool) (m : gmap QKey.t V) (k : QKey.t) (added : bool)
  : option QKey.t * bool * Pool * gmap QKey.t V :=
  match m !! k with
  | Some _ => (Some k, false, p, m)
  | None =>
      match pool_alloc ct p with
      | Some p' => (Some k, true, p', <[k := dflt]> m)
      | None => (None, added, p, m)
      end
  end.

(** Modelled from the spec: [PList::add(pool, x)] appends [x] and returns
    false if the pool is exhausted. *)
Definition plist_add `{PoolOps Pool} {X : Type} (ct : Container)
  (p : Pool) (l : list X) (x : X) : bool * Pool * list X :=
  match pool_alloc ct p with
  | Some p' => (true, p', l ++ [x])
  | None => (false, p, l)
  end.

(** Modelled from the spec: [PList::get(i)]; reading out of range is
    undefined and is [None] here. *)
Definition plist_get {X : Type} (l : list X) (i : Z) : option X :=
  if i <? 0 then None else l !! Z.to_nat i.

(** The elements of [l] at the indices [i .. i + n). *)
Definition window {X : Type} (l : list X) (i n : Z) : list X :=
  take (Z.to_nat n) (drop (Z.to_nat i) l).

(** ** AlignmentCache: one tier *)

Module AlignmentCache.

Section Tier.
Context `{PoolOps Pool}.

(** The members of the class; the mutex is not modelled (calls are
    sequential here). *)
Record t : Type := mk {
  pool_ : Pool;
  qmap_ : gmap QKey.t QVal.t;
  qlist_ : list SAKey;
  samap_ : gmap SAKey SAVal.t;
  salist_ : list Z;
  shared_ : bool;
  version_ : Z
}.

Definition set_pool (p : Pool) (c : t) : t :=
  mk p (qmap_ c) (qlist_ c) (samap_ c) (salist_ c) (shared_ c) (version_ c).
Definition set_qmap (m : gmap QKey.t QVal.t) (c : t) : t :=
  mk (pool_ c) m (qlist_ c) (samap_ c) (salist_ c) (shared_ c) (version_ c).
Definition set_qlist (l : list SAKey) (c : t) : t :=
  mk (pool_ c) (qmap_ c) l (samap_ c) (salist_ c) (shared_ c) (version_ c).
Definition set_samap (m : gmap SAKey SAVal.t) (c : t) : t :=
  mk (pool_ c) (qmap_ c) (qlist_ c) m (salist_ c) (shared_ c) (version_ c).
Definition set_salist (l : list Z) (c : t) : t :=
  mk (pool_ c) (qmap_ c) (qlist_ c) (samap_ c) l (shared_ c) (version_ c).

(** The constructor: an empty tier over a given pool. *)
Definition create (p : Pool) (shared : bool) : t :=
  mk p ∅ [] ∅ [] shared 0.

(** [query(k)]: the payload found, or [None] for NULL. *)
Definition query (k : QKey.t) (c : t) : option QVal.t := qmap_ c !! k.

(** The loop of [queryQval], [n] iterations from index [i]. *)
Fixpoint queryQval_loop (n : nat) (i : Z) (c : t) (satups : list SATuple.t)
  : option (list SATuple.t) :=
  match n with
  | O => Some satups
  | S n' =>
      sak ← plist_get (qlist_ c) i;
      sav ← samap_ c !! sak;
      queryQval_loop n' (i + 1) c
        (satups ++ [SATuple.mk sak (SAVal.top sav)
                      (TSlice.mk (SAVal.i sav) (SAVal.len sav))])
  end.

(** [queryQval(qv, satups)]; [None] when the source reads out of range or
    through a null node. *)
Definition queryQval (qv : QVal.t) (satups : list SATuple.t) (c : t)
  : option (list SATuple.t) :=
  let refi := QVal.offset qv in
  let reff := refi + QVal.numRanges qv in
  queryQval_loop (Z.to_nat (reff - refi)) refi c satups.

(** [queryEx(k, satups)]. *)
Definition queryEx (k : QKey.t) (satups : list SATuple.t) (c : t)
  : option (list SATuple.t) :=
  match query k c with
  | Some n => queryQval n satups c
  | None => Some satups
  end.

(** [empty()]. *)
Definition empty (c : t) : bool := bool_decide (qmap_ c = ∅).

(** Modelled from the spec: [QVal::repOk(ac)] is only declared in the
    header.  It checks invariants 1 and 3 of a tier for one payload: the
    window of the payload lies within the list of reference substrings,
    every key in it has an entry in the suffix-array map, and that entry's
    window lies within the list of offsets. *)
Fixpoint offs_ok (n : nat) (j : Z) (srci : Z) (c : t) : bool :=
  match n with
  | O => true
  | S n' =>
      match plist_get (salist_ c) (u64 (srci + j)) with
      | Some _ => offs_ok n' (j + 1) srci c
      | None => false
      end
  end.

Fixpoint refs_ok (n : nat) (i : Z) (c : t) : bool :=
  match n with
  | O => true
  | S n' =>
      match plist_get (qlist_ c) i with
      | Some sak =>
          match samap_ c !! sak with
          | Some sav =>
              offs_ok (Z.to_nat (SAVal.len sav)) 0 (SAVal.i sav) c
              && refs_ok n' (i + 1) c
          | None => false
          end
      | None => false
      end
  end.

Definition qval_repOk (qv : QVal.t) (c : t) : bool :=
  refs_ok (Z.to_nat (u32 (QVal.offset qv + QVal.numRanges qv) - QVal.offset qv))
    (QVal.offset qv) c.

(** The innermost loop of [copy]: [n] offsets are copied from index
    [srci + j] of the source's list. *)
Fixpoint copy_offs (n : nat) (j : Z) (srci : Z) (src : t) (c : t)
  : option (bool * t) :=
  match n with
  | O => Some (true, c)
  | S n' =>
      x ← plist_get (salist_ src) (u64 (srci + j));
      let '(ok, p, l) := plist_add CSAList (pool_ c) (salist_ c) x in
      let c := set_salist l (set_pool p c) in
      if ok then copy_offs n' (j + 1) srci src c else Some (false, c)
  end.

(** The loop of [copy] over the reference substrings, [n] iterations from
    index [i] of the source's list; [added] is the local variable of
    [copy] that the calls of [add] write to. *)
Fixpoint copy_refs (n : nat) (i : Z) (src : t) (added : bool) (c : t)
  : option (bool * t) :=
  match n with
  | O => Some (true, c)
  | S n' =>
      sak ← plist_get (qlist_ src) i;
      let '(ok, p, l) := plist_add CQList (pool_ c) (qlist_ c) sak in
      let c := set_qlist l (set_pool p c) in
      if negb ok then Some (false, c)
      else
        let '(dstSaNode, added, p, m) :=
          rb_add CSAMap SAVal.default (pool_ c) (samap_ c) sak added in
        let c := set_samap m (set_pool p c) in
        if negb added then copy_refs n' (i + 1) src added c
        else
          match dstSaNode with
          | None => Some (false, c)
          | Some node =>
              srcSa ← samap_ src !! sak;
              let srci := SAVal.i srcSa in
              let top := SAVal.top srcSa in
              let len := SAVal.len srcSa in
              let c :=
                set_samap
                  (<[node := SAVal.init top (u32 (Z.of_nat (length (salist_ c)))) len]>
                     (samap_ c)) c in
              match copy_offs (Z.to_nat len) 0 srci src c with
              | None => None
              | Some (true, c) => copy_refs n' (i + 1) src added c
              | Some (false, c) => Some (false, c)
              end
          end
  end.

(** [copy(qk, qv, c)] with [src] for the source tier [c]: the returned
    flag and the destination tier afterwards. *)
Definition copy (qk : QKey.t) (qv : QVal.t) (src : t) (c : t)
  : option (bool * t) :=
  let '(n, added, p, m) :=
    rb_add CQMap QVal.reset (pool_ c) (qmap_ c) qk false in
  let c := set_qmap m (set_pool p c) in
  if negb added then Some (true, c)
  else
    match n with
    | None => None
    | Some node =>
        let c :=
          set_qmap
            (<[node := QVal.init (u32 (Z.of_nat (length (qlist_ c))))
                         (QVal.numRanges qv) (QVal.numElts qv)]> (qmap_ c)) c in
        let reff := u32 (QVal.offset qv + QVal.numRanges qv) in
        copy_refs (Z.to_nat (reff - QVal.offset qv)) (QVal.offset qv) src added c
    end.

(** [clear()]. *)
Definition clear (c : t) : t :=
  {| pool_ := pool_clear (pool_ c);
     qmap_ := ∅;
     qlist_ := [];
     samap_ := ∅;
     salist_ := [];
     shared_ := shared_ c;
     version_ := u32 (version_ c + 1) |}.

(** [clearCopy(qk, qv, c)]: the flag says whether the tier was cleared. *)
Definition clearCopy (qk : QKey.t) (qv : QVal.t) (src : t) (c : t)
  : option (bool * t) :=
  match copy qk qv src c with
  | None => None
  | Some (true, c) => Some (false, c)
  | Some (false, c) =>
      match copy qk qv src (clear c) with
      | None => None
      | Some (_, c) => Some (true, c)
      end
  end.

(** [add(qk, added)]: the handle returned, the value of [*added]
    afterwards, and the tier afterwards. *)
Definition add (qk : QKey.t) (added : bool) (c : t) : option QKey.t * bool * t :=
  let '(n, added, p, m) :=
    rb_add CQMap QVal.reset (pool_ c) (qmap_ c) qk added in
  (n, added, set_qmap m (set_pool p c)).

(** The loop of [addOnTheFly] that reserves [n] placeholder offsets. *)
Fixpoint reserve_offs (n : nat) (c : t) : bool * t :=
  match n with
  | O => (true, c)
  | S n' =>
      let '(ok, p, l) := plist_add CSAList (pool_ c) (salist_ c) SENTINEL in
      let c := set_salist l (set_pool p c) in
      if ok then reserve_offs n' c else (false, c)
  end.

(** Modelled from the spec: [addOnTheFly] is only declared in the header.
    It appends [sak] to the list of reference substrings; if [sak] is new
    to the suffix-array map it inserts a fresh value
    [(topf, |salist|, botf - topf)] and appends [botf - topf] placeholder
    offsets; it tallies one range and [botf - topf] elements in [qv]
    (a payload that is still invalid starts at [(|qlist|, 0, 0)]); it
    returns false as soon as an allocation fails.  The result is the flag,
    the payload [qv] and the tier afterwards. *)
Definition addOnTheFly (qv : QVal.t) (sak : SAKey) (topf botf : Z) (c : t)
  : bool * QVal.t * t :=
  let qv := if QVal.valid qv then qv
            else QVal.init (u32 (Z.of_nat (length (qlist_ c)))) 0 0 in
  let '(ok, p, l) := plist_add CQList (pool_ c) (qlist_ c) sak in
  let c := set_qlist l (set_pool p c) in
  if negb ok then (false, qv, c)
  else
    let '(s, added, p, m) :=
      rb_add CSAMap SAVal.default (pool_ c) (samap_ c) sak true in
    let c := set_samap m (set_pool p c) in
    match s with
    | None => (false, qv, c)
    | Some node =>
        let '(ok, c) :=
          if added then
            reserve_offs (Z.to_nat (u32 (botf - topf)))
              (set_samap
                 (<[node := SAVal.init topf (u32 (Z.of_nat (length (salist_ c))))
                              (u32 (botf - topf))]> (samap_ c)) c)
          else (true, c) in
        if ok then (true, QVal.addRange (u32 (botf - topf)) qv, c)
        else (false, qv, c)
    end.

(** Accessors. *)
Definition qNumKeys (c : t) : Z := Z.of_nat (size (qmap_ c)).
Definition saNumKeys (c : t) : Z := Z.of_nat (size (samap_ c)).
Definition qSize (c : t) : Z := Z.of_nat (length (qlist_ c)).
Definition saSize (c : t) : Z := Z.of_nat (length (salist_ c)).
Definition shared (c : t) : bool := shared_ c.
Definition version (c : t) : Z := version_ c.

(** The public operations of a tier, as calls with their arguments. *)
Inductive call : Type :=
| Query (k : QKey.t)
| QueryEx (k : QKey.t) (satups : list SATuple.t)
| QueryQval (qv : QVal.t) (satups : list SATuple.t)
| Empty
| Copy (qk : QKey.t) (qv : QVal.t) (src : t)
| ClearCopy (qk : QKey.t) (qv : QVal.t) (src : t)
| Add (qk : QKey.t) (added : bool)
| AddOnTheFly (qv : QVal.t) (sak : SAKey) (topf botf : Z)
| Clear
| QNumKeys | SaNumKeys | QSize | SaSize | Shared | Version.

(** The tier a call leaves behind; [None] when the call is undefined. *)
Definition step (op : call) (c : t) : option t :=
  match op with
  | Query k => let _ := query k c in Some c
  | QueryEx k satups => _ ← queryEx k satups c; Some c
  | QueryQval qv satups => _ ← queryQval qv satups c; Some c
  | Empty => let _ := empty c in Some c
  | Copy qk qv src => r ← copy qk qv src c; Some r.2
  | ClearCopy qk qv src => r ← clearCopy qk qv src c; Some r.2
  | Add qk added => Some (add qk added c).2
  | AddOnTheFly qv sak topf botf => Some (addOnTheFly qv sak topf botf c).2
  | Clear => Some (clear c)
  | QNumKeys => let _ := qNumKeys c in Some c
  | SaNumKeys => let _ := saNumKeys c in Some c
  | QSize => let _ := qSize c in Some c
  | SaSize => let _ := saSize c in Some c
  | Shared => let _ := shared c in Some c
  | Version => let _ := version c in Some c
  end.

(** [c'] holds all that [c] holds: the two lists are extended at the
    end, the two maps keep every entry they had, and the version and the
    shared flag are the same. *)
Definition grows (c c' : t) : Prop :=
  qlist_ c `prefix_of` qlist_ c'
  /\ salist_ c `prefix_of` salist_ c'
  /\ qmap_ c ⊆ qmap_ c'
  /\ samap_ c ⊆ samap_ c'
  /\ version_ c' = version_ c
  /\ shared_ c' = shared_ c.

(** [c] holds nothing but what a copy of the window of [qv] in [src] puts
    into an empty tier: its list of reference substrings is a front part
    of that window, every key of its suffix-array map is in that list, and
    every offset in its list is one of the source's. *)
Definition only_from (qv : QVal.t) (src c : t) : Prop :=
  qlist_ c `prefix_of`
    window (qlist_ src) (QVal.offset qv)
      (u32 (QVal.offset qv + QVal.numRanges qv) - QVal.offset qv)
  /\ (forall sak, is_Some (samap_ c !! sak) -> sak ∈ qlist_ c)
  /\ (forall x, x ∈ salist_ c -> x ∈ salist_ src).

(** What a tuple handed out by [queryQval] on tier [c] stands for: the
    key, the top row, and the offsets its slice covers in [c]'s list. *)
Definition tuple_rows (c : t) (tu : SATuple.t) : SAKey * Z * list Z :=
  (SATuple.key tu, SATuple.top tu,
   window (salist_ c) (TSlice.i_ (SATuple.offs tu)) (TSlice.len_ (SATuple.offs tu))).

(** The tuple that [queryQval] makes of the entry of the key [sak] in
    [c]. *)
Definition made_of (c : t) (sak : SAKey) (tu : SATuple.t) : Prop :=
  exists sav, samap_ c !! sak = Some sav
    /\ tu = SATuple.mk sak (SAVal.top sav) (TSlice.mk (SAVal.i sav) (SAVal.len sav)).

(** The entry of [sak] in [c] is a copy of the one in [src]: same top
    row, same length, and the same offsets in its window, which lies
    within the source's list. *)
Definition copied (src c : t) (sak : SAKey) : Prop :=
  exists v sav,
    samap_ c !! sak = Some v
    /\ samap_ src !! sak = Some sav
    /\ SAVal.top v = SAVal.top sav
    /\ SAVal.len v = SAVal.len sav
    /\ window (salist_ c) (SAVal.i v) (SAVal.len v)
       = window (salist_ src) (SAVal.i sav) (SAVal.len sav)
    /\ length (window (salist_ src) (SAVal.i sav) (SAVal.len sav))
       = Z.to_nat (SAVal.len sav).

(** The sizes of the two lists and the fields of the suffix-array entries
    are values of [uint32_t]. *)
Definition fits (c : t) : Prop :=
  Z.of_nat (length (qlist_ c)) < 2 ^ 32
  /\ Z.of_nat (length (salist_ c)) < 2 ^ 32
  /\ map_Forall (fun _ sav => 0 <= SAVal.i sav < 2 ^ 32 /\ 0 <= SAVal.len sav < 2 ^ 32)
       (samap_ c).

(** [c'] is [c] after [clear()], as its accessors show it: no key, no
    element, every lookup misses, the version is one more (modulo 2^32)
    and the shared flag is the same. *)
Definition cleared_from (c c' : t) : Prop :=
  empty c' = true
  /\ qNumKeys c' = 0
  /\ saNumKeys c' = 0
  /\ qSize c' = 0
  /\ saSize c' = 0
  /\ (forall k, query k c' = None)
  /\ (forall k satups, queryEx k satups c' = Some satups)
  /\ version c' = u32 (version c + 1)
  /\ shared c' = shared c.

(** The calls that go through [clear()]. *)
Definition clears (op : call) : bool :=
  match op with
  | Clear | ClearCopy _ _ _ => true
  | _ => false
  end.

End Tier.

Arguments t Pool : clear implicits.

End AlignmentCache.

(** ** AlignmentCacheIface: the session over up to three tiers *)

(** What a [QVal*] of the interface can hold: NULL, the payload of the
    node of the current tier with a given key, or the buffer [qvbuf_]. *)
Inductive QValPtr : Type :=
| PNull
| PNode (k : QKey.t)
| PBuf.

(** The across-read tiers, [caches[1]] and [caches[2]] of the source. *)
Inductive Tier : Type := Local | Shared.

Module AlignmentCacheIface.

Section Iface.
Context `{PoolOps Pool}.

Abbreviation cache := (AlignmentCache.t Pool).

(** The members of the class.  The three tiers are distinct objects; a
    null [local_] or [shared_] is [None]. *)
Record t : Type := mk {
  qk_ : QKey.t;
  qv_ : QValPtr;
  qvbuf_ : QVal.t;
  cacheable_ : bool;
  rangen_ : Z;
  eltsn_ : Z;
  current_ : cache;
  local_ : option cache;
  shared_ : option cache
}.

Definition set_qk (k : QKey.t) (a : t) : t :=
  mk k (qv_ a) (qvbuf_ a) (cacheable_ a) (rangen_ a) (eltsn_ a)
     (current_ a) (local_ a) (shared_ a).
Definition set_qv (p : QValPtr) (a : t) : t :=
  mk (qk_ a) p (qvbuf_ a) (cacheable_ a) (rangen_ a) (eltsn_ a)
     (current_ a) (local_ a) (shared_ a).
Definition set_qvbuf (v : QVal.t) (a : t) : t :=
  mk (qk_ a) (qv_ a) v (cacheable_ a) (rangen_ a) (eltsn_ a)
     (current_ a) (local_ a) (shared_ a).
Definition set_cacheable (b : bool) (a : t) : t :=
  mk (qk_ a) (qv_ a) (qvbuf_ a) b (rangen_ a) (eltsn_ a)
     (current_ a) (local_ a) (shared_ a).
Definition set_counters (r e : Z) (a : t) : t :=
  mk (qk_ a) (qv_ a) (qvbuf_ a) (cacheable_ a) r e
     (current_ a) (local_ a) (shared_ a).
Definition set_current (c : cache) (a : t) : t :=
  mk (qk_ a) (qv_ a) (qvbuf_ a) (cacheable_ a) (rangen_ a) (eltsn_ a)
     c (local_ a) (shared_ a).
Definition set_local (c : option cache) (a : t) : t :=
  mk (qk_ a) (qv_ a) (qvbuf_ a) (cacheable_ a) (rangen_ a) (eltsn_ a)
     (current_ a) c (shared_ a).
Definition set_shared (c : option cache) (a : t) : t :=
  mk (qk_ a) (qv_ a) (qvbuf_ a) (cacheable_ a) (rangen_ a) (eltsn_ a)
     (current_ a) (local_ a) c.

(** The constructor. *)
Definition create (current : cache) (local shared : option cache) : t :=
  {| qk_ := QKey.reset;
     qv_ := PNull;
     qvbuf_ := QVal.reset;
     cacheable_ := false;
     rangen_ := 0;
     eltsn_ := 0;
     current_ := current;
     local_ := local;
     shared_ := shared |}.

(** Reading [*p]; [None] for a null or dangling pointer. *)
Definition load (p : QValPtr) (a : t) : option QVal.t :=
  match p with
  | PNull => None
  | PNode k => AlignmentCache.qmap_ (current_ a) !! k
  | PBuf => Some (qvbuf_ a)
  end.

(** Writing [*p = v]; [None] for a null or dangling pointer. *)
Definition store (p : QValPtr) (v : QVal.t) (a : t) : option t :=
  match p with
  | PNull => None
  | PNode k =>
      match AlignmentCache.qmap_ (current_ a) !! k with
      | Some _ =>
          Some (set_current
                  (AlignmentCache.set_qmap
                     (<[k := v]> (AlignmentCache.qmap_ (current_ a)))
                     (current_ a)) a)
      | None => None
      end
  | PBuf => Some (set_qvbuf v a)
  end.

(** [resetRead()]. *)
Definition resetRead (a : t) : t :=
  set_qv PNull (set_counters 0 0 (set_cacheable false a)).

(** [aligning()]. *)
Definition aligning (a : t) : bool :=
  match qv_ a with PNull => false | _ => true end.

(** [curNumRanges()], [curNumElts()]. *)
Definition curNumRanges (a : t) : Z := rangen_ a.
Definition curNumElts (a : t) : Z := eltsn_ a.

(** [repOk()]: the assertions of the source, as a check. *)
Definition repOk (a : t) : bool :=
  (rangen_ a <=? eltsn_ a)
  && (if aligning a then true else (rangen_ a =? 0) && (eltsn_ a =? 0)).

(** [query(qk, which)]: the payload found and, in place of [*which], the
    index in [caches] of the tier that holds it. *)
Definition query (qk : QKey.t) (a : t) : option (QVal.t * Z) :=
  match AlignmentCache.query qk (current_ a) with
  | Some qv => Some (qv, 0)
  | None =>
      match local_ a ≫= AlignmentCache.query qk with
      | Some qv => Some (qv, 1)
      | None =>
          match shared_ a ≫= AlignmentCache.query qk with
          | Some qv => Some (qv, 2)
          | None => None
          end
      end
  end.

(** The body of [queryCopy] once the key is found in the across-read
    tier [src]. *)
Definition queryCopy_from (qk : QKey.t) (qv : QVal.t) (src : cache) (a : t)
  : option (option QValPtr * t) :=
  match AlignmentCache.copy qk qv src (current_ a) with
  | None => None
  | Some (false, cur) => Some (None, set_current cur a)
  | Some (true, cur) =>
      let a := set_current cur a in
      Some ((fun _ => PNode qk) <$> AlignmentCache.query qk (current_ a), a)
  end.

(** [queryCopy(qk)]: the pointer returned ([None] for NULL) and the
    interface afterwards; the outer [None] is undefined behaviour. *)
Definition queryCopy (qk : QKey.t) (a : t) : option (option QValPtr * t) :=
  match AlignmentCache.query qk (current_ a) with
  | Some _ => Some (Some (PNode qk), a)
  | None =>
      match local_ a with
      | Some l =>
          match AlignmentCache.query qk l with
          | Some qv => queryCopy_from qk qv l a
          | None =>
              match shared_ a with
              | Some s =>
                  match AlignmentCache.query qk s with
                  | Some qv => queryCopy_from qk qv s a
                  | None => Some (None, a)
                  end
              | None => Some (None, a)
              end
          end
      | None =>
          match shared_ a with
          | Some s =>
              match AlignmentCache.query qk s with
              | Some qv => queryCopy_from qk qv s a
              | None => Some (None, a)
              end
          | None => Some (None, a)
          end
      end
  end.

(** The first part of [beginAlign], up to the test [qv_ == NULL]: the key
    is encoded, the current tier is queried and, on a miss, the handle
    comes from [add] or is the address of [qvbuf_].  The flag says whether
    the query hit. *)
Definition beginAlign_handle (seq : BTDnaString) (a : t) : bool * t :=
  let a := set_qk (QKey.of_string seq) a in
  if QKey.cacheable (qk_ a) then
    match AlignmentCache.query (qk_ a) (current_ a) with
    | Some _ => (true, set_qv (PNode (qk_ a)) a)
    | None =>
        let '(n, added, cur) :=
          AlignmentCache.add (qk_ a) (cacheable_ a) (current_ a) in
        (false,
         set_qv (match n with Some k => PNode k | None => PNull end)
           (set_cacheable added (set_current cur a)))
    end
  else (false, set_qv PBuf a).

(** [beginAlign(seq, qual, qv)]: the value returned, the out parameter
    [qv] afterwards and the interface afterwards.  [qual] is not used by
    the source.  The outer [None] is undefined behaviour. *)
Definition beginAlign (seq : BTDnaString) (qv : QVal.t) (a : t)
  : option (Z * QVal.t * t) :=
  let '(hit, a) := beginAlign_handle seq a in
  if hit then
    found ← load (qv_ a) a;
    Some (1, found, resetRead a)
  else
    match qv_ a with
    | PNull => Some (-1, qv, resetRead a)
    | p => a ← store p QVal.reset a; Some (0, qv, a)
    end.

(** [finishAlign()]: the payload returned, the interface afterwards and
    the across-read tiers on which [clearCopy] was called, in call order.
    [None] is undefined behaviour (a null or dangling [qv_], or an
    undefined [clearCopy]). *)
Definition finishAlign (a : t) : option (QVal.t * t * list Tier) :=
  v ← load (qv_ a) a;
  a1 ← (if QVal.valid v then Some a else store (qv_ a) (QVal.init 0 0 0) a);
  let qv := qv_ a1 in
  r ← (if QKey.cacheable (qk_ a1) then
         v1 ← load (qv_ a1) a1;
         match local_ a1 with
         | Some l =>
             r ← AlignmentCache.clearCopy (qk_ a1) v1 (current_ a1) l;
             Some (set_local (Some r.2) a1, [Local])
         | None =>
             match shared_ a1 with
             | Some s =>
                 r ← AlignmentCache.clearCopy (qk_ a1) v1 (current_ a1) s;
                 Some (set_shared (Some r.2) a1, [Shared])
             | None => Some (a1, [])
             end
         end
       else Some (a1, []));
  let a2 := resetRead r.1 in
  ret ← load qv a2;
  Some (ret, a2, r.2).

(** [nextRead()]. *)
Definition nextRead (a : t) : t :=
  resetRead (set_current (AlignmentCache.clear (current_ a)) a).

(** [clear()]. *)
Definition clear (a : t) : t :=
  set_shared (AlignmentCache.clear <$> shared_ a)
    (set_local (AlignmentCache.clear <$> local_ a)
       (set_current (AlignmentCache.clear (current_ a)) a)).

(** [addOnTheFly(rfseq, topf, botf)]: the flag returned and the interface
    afterwards; [None] when no session is live ([*qv_] is undefined). *)
Definition addOnTheFly (rfseq : BTDnaString) (topf botf : Z) (a : t)
  : option (bool * t) :=
  let sak := QKey.of_string rfseq in
  v ← load (qv_ a) a;
  let '(ok, v, cur) := AlignmentCache.addOnTheFly v sak topf botf (current_ a) in
  a ← store (qv_ a) v (set_current cur a);
  if ok then
    Some (true, set_counters (u64 (rangen_ a + 1))
                  (u64 (eltsn_ a + u32 (botf - topf))) a)
  else Some (false, a).

(** [queryEx], [queryQval]: passed through to the current tier. *)
Definition queryEx (k : QKey.t) (satups : list SATuple.t) (a : t)
  : option (list SATuple.t) :=
  AlignmentCache.queryEx k satups (current_ a).

Definition queryQval (qv : QVal.t) (satups : list SATuple.t) (a : t)
  : option (list SATuple.t) :=
  AlignmentCache.queryQval qv satups (current_ a).

(** The public operations of the interface, as calls with their
    arguments. *)
Inductive call : Type :=
| QueryCopy (qk : QKey.t)
| Query (qk : QKey.t)
| BeginAlign (seq : BTDnaString) (qv : QVal.t)
| FinishAlign
| NextRead
| Aligning
| Clear
| AddOnTheFly (rfseq : BTDnaString) (topf botf : Z)
| QueryEx (k : QKey.t) (satups : list SATuple.t)
| QueryQval (qv : QVal.t) (satups : list SATuple.t)
| CurNumRanges
| CurNumElts.

(** The interface a call leaves behind; [None] when the call is
    undefined. *)
Definition step (op : call) (a : t) : option t :=
  match op with
  | QueryCopy qk => r ← queryCopy qk a; Some r.2
  | Query qk => let _ := query qk a in Some a
  | BeginAlign seq qv => r ← beginAlign seq qv a; Some r.2
  | FinishAlign => r ← finishAlign a; Some r.1.2
  | NextRead => Some (nextRead a)
  | Aligning => let _ := aligning a in Some a
  | Clear => Some (clear a)
  | AddOnTheFly rfseq topf botf => r ← addOnTheFly rfseq topf botf a; Some r.2
  | QueryEx k satups => _ ← queryEx k satups a; Some a
  | QueryQval qv satups => _ ← queryQval qv satups a; Some a
  | CurNumRanges => let _ := curNumRanges a in Some a
  | CurNumElts => let _ := curNumElts a in Some a
  end.

(** A sequence of calls, stopping at the first undefined one. *)
Definition run (ops : list call) (a : t) : option t :=
  foldl (fun st op => st ≫= step op) (Some a) ops.

(** The states the interface can be in: those reached from a freshly
    constructed interface by public calls. *)
Inductive reachable : t -> Prop :=
| reach_create current local shared :
    reachable (create current local shared)
| reach_step op a a' :
    reachable a -> step op a = Some a' -> reachable a'.

(** The session fields as [resetRead] leaves them. *)
Definition session_is_reset (a : t) : Prop :=
  qv_ a = PNull
  /\ aligning a = false
  /\ cacheable_ a = false
  /\ rangen_ a = 0
  /\ eltsn_ a = 0.

(** What a call of [clearCopy] for the key [qk] may make of an across-read
    tier: a null tier stays null; a tier [c] becomes a tier that has
    either only grown or been cleared once (its version is one more,
    modulo 2^32), and that is [c] itself if [c] held [qk]. *)
Definition kept_or_turned (qk : QKey.t) (before after : option cache) : Prop :=
  match before with
  | Some c =>
      exists c', after = Some c'
        /\ (AlignmentCache.grows c c'
            \/ AlignmentCache.version c' = u32 (AlignmentCache.version c + 1))
        /\ (is_Some (AlignmentCache.query qk c) -> c' = c)
  | None => after = None
  end.

(** The part of [repOk] about a session that is not live: no handle, no
    counts. *)
Definition idle_zero (a : t) : Prop :=
  aligning a = false -> rangen_ a = 0 /\ eltsn_ a = 0.

End Iface.

Arguments t Pool : clear implicits.

End AlignmentCacheIface.

(** ** Inputs used in examples *)

(** An empty tier over a pool with room for 100 elements. *)
Definition fresh_tier : AlignmentCache.t (nat * nat) :=
  AlignmentCache.create (pool_of 100) false.

(** [n] calls of [clear()] in a row. *)
Fixpoint clear_times (n : nat) (c : AlignmentCache.t (nat * nat))
  : AlignmentCache.t (nat * nat) :=
  match n with
  | O => c
  | S n' => AlignmentCache.clear (clear_times n' c)
  end.

(** The tier [fresh_tier] becomes once it has been cleared 2^32 - 1
    times. *)
Definition worn_tier : AlignmentCache.t (nat * nat) :=
  AlignmentCache.mk (pool_of 100) ∅ [] ∅ [] false 0xffffffff.

(** An empty tier whose pool has no room at all. *)
Definition full_tier : AlignmentCache.t (nat * nat) :=
  AlignmentCache.create (pool_of 0) false.

(** An interface between sessions: empty current tier, no across-read
    tiers. *)
Definition idle_iface : AlignmentCacheIface.t (nat * nat) :=
  AlignmentCacheIface.create fresh_tier None None.

(** The same over the tier without room. *)
Definition starved_iface : AlignmentCacheIface.t (nat * nat) :=
  AlignmentCacheIface.create full_tier None None.

(** The calls of a session on "ACGT" that finds the reference substrings
    "AAAA" at rows 10..11 and "CCCC" at rows 100..102, up to
    [finishAlign]. *)
Definition calls_ACGT : list AlignmentCacheIface.call :=
  [AlignmentCacheIface.BeginAlign [base_A; base_C; base_G; base_T] QVal.reset;
   AlignmentCacheIface.AddOnTheFly [base_A; base_A; base_A; base_A] 10 12;
   AlignmentCacheIface.AddOnTheFly [base_C; base_C; base_C; base_C] 100 103].

(** That session without across-read tiers, and with a local tier. *)
Definition session_alone : AlignmentCacheIface.t (nat * nat) :=
  default idle_iface (AlignmentCacheIface.run calls_ACGT idle_iface).

Definition session_local : AlignmentCacheIface.t (nat * nat) :=
  default idle_iface
    (AlignmentCacheIface.run calls_ACGT
       (AlignmentCacheIface.create fresh_tier (Some fresh_tier) None)).

(** A local tier whose pool holds the entry of "ACGT" (10 elements) and
    two elements more, and two sessions in a row over it: "ACGT" as above,
    then "TTTT" with the reference substring "GGGG" at rows 20..21. *)
Definition small_tier : AlignmentCache.t (nat * nat) :=
  AlignmentCache.create (pool_of 12) false.

Definition calls_turnover : list AlignmentCacheIface.call :=
  calls_ACGT
  ++ [AlignmentCacheIface.FinishAlign;
      AlignmentCacheIface.NextRead;
      AlignmentCacheIface.BeginAlign [base_T; base_T; base_T; base_T] QVal.reset;
      AlignmentCacheIface.AddOnTheFly [base_G; base_G; base_G; base_G] 20 22;
      AlignmentCacheIface.FinishAlign].

(** The current tier of that session: it holds the key of "ACGT". *)
Definition tier_ACGT : AlignmentCache.t (nat * nat) :=
  AlignmentCacheIface.current_ session_alone.

(** A tier with room after the entry of "ACGT" was copied into it, the
    small tier after the same, and the small tier after the same entry,
    filed under the key of "AAAA", was copied on top with [clearCopy]. *)
Definition copied_ACGT : AlignmentCache.t (nat * nat) :=
  default fresh_tier
    (snd <$> AlignmentCache.copy (QKey.mk 27 4) (QVal.mk 0 2 5) tier_ACGT fresh_tier).

Definition local_ACGT : AlignmentCache.t (nat * nat) :=
  default small_tier
    (snd <$> AlignmentCache.copy (QKey.mk 27 4) (QVal.mk 0 2 5) tier_ACGT small_tier).

Definition local_turned : AlignmentCache.t (nat * nat) :=
  default small_tier
    (snd <$> AlignmentCache.clearCopy (QKey.mk 0 4) (QVal.mk 0 2 5) tier_ACGT local_ACGT).

(** A tier with room for three elements, and what the copy of the entry
    of "ACGT" leaves of it: the copy runs out of room at the first
    offset. *)
Definition cramped_tier : AlignmentCache.t (nat * nat) :=
  AlignmentCache.create (pool_of 3) false.

Definition cramped_after : AlignmentCache.t (nat * nat) :=
  default cramped_tier
    (snd <$> AlignmentCache.copy (QKey.mk 27 4) (QVal.mk 0 2 5) tier_ACGT cramped_tier).

(** An interface whose local tier holds the entry of "ACGT" while its
    current tier is empty, and the same once the entry has been copied
    into the current tier. *)
Definition recall_iface : AlignmentCacheIface.t (nat * nat) :=
  AlignmentCacheIface.create fresh_tier (Some tier_ACGT) None.

Definition recalled_iface : AlignmentCacheIface.t (nat * nat) :=
  AlignmentCacheIface.set_current copied_ACGT recall_iface.

(** The session on "ACGT" without across-read tiers: after [beginAlign],
    after the first range, after an empty range instead, and after
    [finishAlign]. *)
Definition session_begun : AlignmentCacheIface.t (nat * nat) :=
  default idle_iface (AlignmentCacheIface.run (take 1 calls_ACGT) idle_iface).

Definition session_one_range : AlignmentCacheIface.t (nat * nat) :=
  default idle_iface (AlignmentCacheIface.run (take 2 calls_ACGT) idle_iface).

Definition session_empty_range : AlignmentCacheIface.t (nat * nat) :=
  default idle_iface
    (snd <$> AlignmentCacheIface.addOnTheFly [base_A; base_A; base_A; base_A] 10 10
               session_begun).

Definition finished_alone : AlignmentCacheIface.t (nat * nat) :=
  default idle_iface
    ((fun r => r.1.2) <$> AlignmentCacheIface.finishAlign session_alone).

(** The session on "ACGT" over a local tier, after [finishAlign]. *)
Definition finished_local : AlignmentCacheIface.t (nat * nat) :=
  default idle_iface
    ((fun r => r.1.2) <$> AlignmentCacheIface.finishAlign session_local).

(** A tuple over [n] rows starting at row 100 of the index. *)
Definition tuple_of_rows (n : Z) : SATuple.t :=
  SATuple.mk (QKey.mk 0 4) 100 (TSlice.mk 0 n).

(** A source of two tuples, of 2 and 3 rows. *)
Definition two_tuples : list SATuple.t := [tuple_of_rows 2; tuple_of_rows 3].

(** A read of 2^32 + 1 bases, all A. *)
Definition long_read : BTDnaString := replicate (Z.to_nat 4294967297) base_A.

(** * Verification *)

(** ** Machine integers *)

Lemma wrap_small w z : 0 <= z < 2 ^ w -> wrap w z = z.
Proof. intros Hz. unfold wrap. apply Z.mod_small; exact Hz. Qed.

Lemma u32_small z : 0 <= z < 2 ^ 32 -> u32 z = z.
Proof. apply wrap_small. Qed.

Lemma u64_small z : 0 <= z < 2 ^ 64 -> u64 z = z.
Proof. apply wrap_small. Qed.

Lemma u32_range z : 0 <= u32 z < 2 ^ 32.
Proof. unfold u32, wrap. apply Z.mod_pos_bound. lia. Qed.

(** *** Packing two bits per base *)

Lemma pack_step sq c :
  0 <= sq -> 0 <= c < 4 -> Z.lor (Z.shiftl sq 2) c = 4 * sq + c.
Proof.
  intros Hsq Hc. rewrite Z.shiftl_mul_pow2 by lia.
  change (2 ^ 2) with 4. symmetry. rewrite (Z.mul_comm sq 4).
  apply Z.add_nocarry_lor.
  apply Z.bits_inj'. intros n Hn. rewrite Z.land_spec, Z.bits_0.
  destruct (Z_lt_dec n 2) as [Hlt|Hge].
  - replace (4 * sq) with (sq * 2 ^ 2) by lia.
    rewrite Z.mul_pow2_bits_low by lia. reflexivity.
  - assert (Z.testbit c n = false) as ->; [|apply andb_false_r].
    destruct (Z.eq_dec c 0) as [->|Hc0]; [apply Z.bits_0|].
    apply Z.bits_above_log2; [lia|].
    assert (Z.log2 c < 2); [|lia]. apply Z.log2_lt_pow2; lia.
Qed.

Lemma unpack_shift b c : 0 <= c < 4 -> Z.shiftr (4 * b + c) 2 = b.
Proof.
  intros Hc. rewrite Z.shiftr_div_pow2 by lia. change (2 ^ 2) with 4.
  symmetry. apply (Z.div_unique _ _ _ c); lia.
Qed.

Lemma unpack_low b c : 0 <= c < 4 -> Z.land (4 * b + c) 3 = c.
Proof.
  intros Hc. change 3 with (Z.ones 2). rewrite Z.land_ones by lia.
  change (2 ^ 2) with 4. symmetry. apply (Z.mod_unique _ _ b); lia.
Qed.

Lemma base4_snoc s c : base4 (s ++ [c]) = 4 * base4 s + c.
Proof. unfold base4. rewrite fold_left_app. reflexivity. Qed.

Lemma base4_range s : is_acgt s -> 0 <= base4 s < 4 ^ Z.of_nat (length s).
Proof.
  induction s as [|c s IH] using rev_ind; intros Hs.
  - cbn. lia.
  - apply Forall_app in Hs as [Hs Hc]. apply Forall_inv in Hc.
    specialize (IH Hs). rewrite base4_snoc, length_app. cbn [length].
    replace (Z.of_nat (length s + 1)) with (Z.of_nat (length s) + 1) by lia.
    rewrite Z.pow_add_r by lia. change (4 ^ 1) with 4.
    set (P := 4 ^ Z.of_nat (length s)) in *. lia.
Qed.

Lemma init_loop_base4 rest : forall pre i k,
  is_acgt (pre ++ rest) ->
  i = Z.of_nat (length pre) ->
  Z.of_nat (length (pre ++ rest)) <= 32 ->
  QKey.seq k = base4 pre ->
  QKey.init_loop rest i k
  = ({| QKey.seq := base4 (pre ++ rest); QKey.len := QKey.len k |}, true).
Proof.
  induction rest as [|c rest IH]; intros pre i k Hs Hi Hlen Hk.
  - rewrite app_nil_r. cbn. destruct k as [sq l]. cbn in *. congruence.
  - cbn [QKey.init_loop].
    assert (0 <= c < 4) as Hc.
    { apply Forall_app in Hs as [_ Hs]. apply Forall_inv in Hs. exact Hs. }
    rewrite length_app in Hlen. cbn [length] in Hlen.
    destruct (32 <=? i) eqn:E32; [apply Z.leb_le in E32; lia|].
    destruct (c =? 4) eqn:E4; [apply Z.eqb_eq in E4; lia|].
    replace (pre ++ c :: rest) with ((pre ++ [c]) ++ rest) in *
      by (rewrite <- app_assoc; reflexivity).
    rewrite (IH (pre ++ [c])); [reflexivity|..].
    + exact Hs.
    + rewrite length_app. cbn [length]. lia.
    + rewrite !length_app. cbn [length]. lia.
    + cbn [QKey.seq]. rewrite Hk, base4_snoc.
      assert (is_acgt pre) as Hpre.
      { apply Forall_app in Hs as [Hs _]. apply Forall_app in Hs as [Hs _]. exact Hs. }
      pose proof (base4_range pre Hpre) as Hr.
      rewrite pack_step by lia. apply u64_small.
      assert (4 ^ Z.of_nat (length pre) <= 4 ^ 31).
      { apply Z.pow_le_mono_r; lia. }
      change (2 ^ 64) with (4 * 4 ^ 31). lia.
Qed.

Lemma init_acgt s :
  is_acgt s -> str_length s <= 32 ->
  QKey.init s = ({| QKey.seq := base4 s; QKey.len := str_length s |}, true).
Proof.
  intros Hs Hlen. unfold QKey.init, str_length in *.
  rewrite u32_small by lia.
  destruct (32 <? Z.of_nat (length s)) eqn:E; [apply Z.ltb_lt in E; lia|].
  apply (init_loop_base4 s [] 0); auto.
Qed.

Lemma toString_loop_base4 s : forall buf,
  is_acgt s -> (length s <= length buf)%nat ->
  QKey.toString_loop (length s) (Z.of_nat (length s) - 1) (base4 s) buf
  = s ++ drop (length s) buf.
Proof.
  induction s as [|c s IH] using rev_ind; intros buf Hs Hbuf.
  - cbn. rewrite drop_0. reflexivity.
  - apply Forall_app in Hs as [Hs Hc]. apply Forall_inv in Hc.
    rewrite length_app in *. cbn [length] in *.
    replace (length s + 1)%nat with (S (length s)) by lia.
    cbn [QKey.toString_loop].
    destruct (0 <=? Z.of_nat (S (length s)) - 1) eqn:E;
      [|apply Z.leb_gt in E; lia].
    rewrite base4_snoc, unpack_shift, unpack_low by exact Hc.
    replace (Z.of_nat (S (length s)) - 1 - 1) with (Z.of_nat (length s) - 1) by lia.
    unfold str_set.
    replace (Z.to_nat (Z.of_nat (S (length s)) - 1)) with (length s) by lia.
    rewrite IH; [|exact Hs|]. 2:{ rewrite length_insert; lia. }
    rewrite drop_insert_ge by lia. rewrite Nat.sub_diag.
    destruct (lookup_lt_is_Some_2 buf (length s)) as [y Hy]; [lia|].
    rewrite (drop_S _ _ _ Hy). cbn. rewrite <- app_assoc. reflexivity.
Qed.

Lemma str_resize_length buf n : 0 <= n -> length (str_resize buf n) = Z.to_nat n.
Proof.
  intros Hn. unfold str_resize. rewrite length_app, length_take, length_replicate. lia.
Qed.

Lemma toString_base4 s buf :
  is_acgt s -> str_length s <= 32 ->
  QKey.toString {| QKey.seq := base4 s; QKey.len := str_length s |} buf = s.
Proof.
  intros Hs Hlen. unfold QKey.toString, str_length in *. cbn [QKey.seq QKey.len].
  destruct (decide (length s = 0%nat)) as [H0|H0].
  - destruct s; [|discriminate]. reflexivity.
  - rewrite u32_small by lia. unfold as_int.
    destruct (Z.of_nat (length s) - 1 <? 2 ^ 31) eqn:E;
      [|apply Z.ltb_ge in E; lia].
    replace (Z.to_nat (Z.of_nat (length s) - 1 + 1)) with (length s) by lia.
    rewrite toString_loop_base4; [|exact Hs|rewrite str_resize_length; lia].
    rewrite drop_ge; [apply app_nil_r|]. rewrite str_resize_length; lia.
Qed.

Lemma bitpair_base4 s : forall i c,
  is_acgt s -> s !! i = Some c ->
  bitpair (base4 s) (Z.of_nat (length s) - 1 - Z.of_nat i) = c.
Proof.
  induction s as [|c' s IH] using rev_ind; intros i c Hs Hi.
  - discriminate.
  - apply Forall_app in Hs as [Hs Hc]. apply Forall_inv in Hc.
    rewrite base4_snoc, length_app. cbn [length].
    destruct (decide (i < length s)%nat) as [Hlt|Hge].
    + rewrite lookup_app_l in Hi by exact Hlt.
      specialize (IH i c Hs Hi). unfold bitpair in *.
      replace (2 * (Z.of_nat (length s + 1) - 1 - Z.of_nat i))
        with (2 + 2 * (Z.of_nat (length s) - 1 - Z.of_nat i)) by lia.
      rewrite <- Z.shiftr_shiftr by lia. rewrite unpack_shift by exact Hc.
      exact IH.
    + apply lookup_lt_Some in Hi as Hb. rewrite length_app in Hb. cbn in Hb.
      assert (i = length s) as -> by lia.
      rewrite lookup_app_r in Hi by lia. rewrite Nat.sub_diag in Hi.
      cbn in Hi. injection Hi as ->. unfold bitpair.
      replace (2 * (Z.of_nat (length s + 1) - 1 - Z.of_nat (length s))) with 0 by lia.
      rewrite Z.shiftr_0_r. apply unpack_low. exact Hc.
Qed.

Lemma init_loop_stops l1 : forall l2 i k,
  32 <= i + Z.of_nat (length l1) ->
  QKey.init_loop (l1 ++ l2) i k = QKey.init_loop l1 i k.
Proof.
  induction l1 as [|c l1 IH]; intros l2 i k Hi.
  - cbn in Hi. cbn. destruct l2 as [|c l2]; [reflexivity|].
    cbn. destruct (32 <=? i) eqn:E; [reflexivity|apply Z.leb_gt in E; lia].
  - cbn [app QKey.init_loop]. destruct (32 <=? i); [reflexivity|].
    destruct (c =? 4); [reflexivity|]. apply IH. cbn [length] in Hi. lia.
Qed.

Lemma init_loop_uncacheable rest : forall i k,
  0 <= i -> i + Z.of_nat (length rest) <= 32 -> 4 ∈ rest ->
  (QKey.init_loop rest i k).2 = false
  /\ QKey.len (QKey.init_loop rest i k).1 = SENTINEL.
Proof.
  induction rest as [|c rest IH]; intros i k Hi Hlen Hin.
  - apply elem_of_nil in Hin. destruct Hin.
  - cbn [QKey.init_loop]. cbn [length] in Hlen.
    destruct (32 <=? i) eqn:E; [apply Z.leb_le in E; lia|].
    destruct (c =? 4) eqn:E4; [split; reflexivity|].
    apply elem_of_cons in Hin as [Heq|Hin]; [subst c; discriminate|].
    apply IH; [lia|lia|exact Hin].
Qed.

Lemma long_read_length : str_length long_read = 4294967297.
Proof.
  unfold str_length, long_read. rewrite length_replicate.
  apply Z2Nat.id. lia.
Qed.

Lemma long_read_size : Z.to_nat 4294967297 = (32 + Z.to_nat 4294967265)%nat.
Proof. lia. Qed.

Lemma long_read_split :
  long_read = replicate 32 base_A ++ replicate (Z.to_nat 4294967265) base_A.
Proof.
  unfold long_read. rewrite long_read_size. apply replicate_add.
Qed.

(** C1 (the code at the failing input): [init] tests the length after
    it has been cast to 32 bits.  On a read of 2^32 + 1 bases the stored
    length is 1, the test [len > 32] passes, the loop packs the first 32
    bases and [init] returns true: the key is cacheable although the read
    is longer than 32 bases, and [toString] gives back a single base. *)
Theorem init_truncates_length :
  32 < str_length long_read
  /\ QKey.init long_read = ({| QKey.seq := 0; QKey.len := 1 |}, true)
  /\ QKey.cacheable (QKey.of_string long_read) = true
  /\ QKey.toString (QKey.of_string long_read) [] = [base_A].
Proof.
  assert (QKey.init long_read = ({| QKey.seq := 0; QKey.len := 1 |}, true)) as Hinit.
  { unfold QKey.init. rewrite long_read_length.
    change (u32 4294967297) with 1. cbn [Z.ltb Z.compare Pos.compare Pos.compare_cont].
    rewrite long_read_split, init_loop_stops by (rewrite length_replicate; lia).
    reflexivity. }
  split; [rewrite long_read_length; lia|].
  split; [exact Hinit|].
  unfold QKey.of_string. rewrite Hinit. split; reflexivity.
Qed.

(** X1: A read over {A,C,G,T} of at most 32 bases round-trips: [toString]
    on the key built by [init] gives the read back, and the key is
    cacheable. *)
Theorem init_roundtrip (s buf : BTDnaString) :
  is_acgt s -> str_length s <= 32 ->
  QKey.toString (QKey.of_string s) buf = s
  /\ QKey.cacheable (QKey.of_string s) = true.
Proof.
  intros Hs Hlen. unfold QKey.of_string. rewrite init_acgt by assumption.
  cbn [fst]. split; [apply toString_base4; assumption|].
  unfold QKey.cacheable, str_length in *. cbn [QKey.len].
  apply negb_true_iff, Z.eqb_neq. unfold SENTINEL. lia.
Qed.

(** X2: A read shorter than 2^32 bases that has an N, or more than 32 bases,
    gets a key that is not cacheable. *)
Theorem init_uncacheable (s : BTDnaString) :
  str_length s < 2 ^ 32 ->
  4 ∈ s \/ 32 < str_length s ->
  QKey.cacheable (QKey.of_string s) = false.
Proof.
  intros Hfit Hbad. unfold QKey.of_string, QKey.init.
  rewrite u32_small by (unfold str_length in *; lia).
  destruct (32 <? str_length s) eqn:E; [reflexivity|].
  apply Z.ltb_ge in E. destruct Hbad as [HN|Hlong]; [|lia].
  destruct (init_loop_uncacheable s 0 {| QKey.seq := 0; QKey.len := str_length s |})
    as [_ Hl]; [lia|exact E|exact HN|].
  unfold QKey.cacheable. rewrite Hl. reflexivity.
Qed.

(** C3: encoding "ACGT" gives [seq = 27] and [len = 4]; the bit pairs of
    27 from the most significant down are A, C, G, T, so the rightmost
    character T is in the least significant pair; and [toString] on that
    key gives "ACGT" back, whatever the string written to held. *)
Theorem init_ACGT (buf : BTDnaString) :
  QKey.init [base_A; base_C; base_G; base_T]
  = ({| QKey.seq := 27; QKey.len := 4 |}, true)
  /\ [bitpair 27 3; bitpair 27 2; bitpair 27 1; bitpair 27 0]
     = [base_A; base_C; base_G; base_T]
  /\ QKey.toString {| QKey.seq := 27; QKey.len := 4 |} buf
     = [base_A; base_C; base_G; base_T].
Proof.
  repeat split.
  apply (toString_base4 [base_A; base_C; base_G; base_T]).
  - repeat constructor; unfold base_A, base_C, base_G, base_T; lia.
  - unfold str_length. cbn [length]. lia.
Qed.

(** C2 (amended): for a sequence [b_0 ... b_(L-1)] over {A,C,G,T} with
    [L <= 32], [init] packs the code of [b_i] at bits [2(L-1-i)] and
    [2(L-1-i)+1] of [seq]: the rightmost character is in the least
    significant pair. *)
Theorem init_packs_rightmost_low (s : BTDnaString) (i : nat) (c : Z) :
  is_acgt s -> str_length s <= 32 -> s !! i = Some c ->
  bitpair (QKey.seq (QKey.of_string s)) (str_length s - 1 - Z.of_nat i) = c.
Proof.
  intros Hs Hlen Hi. unfold QKey.of_string. rewrite init_acgt by assumption.
  cbn [fst QKey.seq]. apply bitpair_base4; assumption.
Qed.

Lemma init_packs_rightmost_low_witness :
  bitpair (QKey.seq (QKey.of_string [base_A; base_C; base_G; base_T])) (4 - 1 - 1)
  = base_C.
Proof.
  apply (init_packs_rightmost_low [base_A; base_C; base_G; base_T] 1 base_C).
  - repeat constructor; unfold base_A, base_C, base_G, base_T; lia.
  - vm_compute. discriminate.
  - reflexivity.
Defined.

(** C2 as stated fails on "AC": bits 0..1 of the key hold C, the code of
    [b_1], not A, the code of [b_0]. *)
Lemma init_not_little_endian :
  is_acgt [base_A; base_C]
  /\ str_length [base_A; base_C] <= 32
  /\ [base_A; base_C] !! 0%nat = Some base_A
  /\ bitpair (QKey.seq (QKey.of_string [base_A; base_C])) (Z.of_nat 0) = base_C
  /\ bitpair (QKey.seq (QKey.of_string [base_A; base_C])) (Z.of_nat 0) <> base_A.
Proof.
  split; [repeat constructor; unfold base_A, base_C; lia|].
  split; [vm_compute; discriminate|].
  split; [reflexivity|]. split; [reflexivity|]. vm_compute. discriminate.
Qed.

(** ** Random narrowing *)

Lemma rows_app l1 l2 : rows (l1 ++ l2) = rows l1 + rows l2.
Proof. induction l1 as [|x l1 IH]; cbn [rows app]; [reflexivity|]. rewrite IH. lia. Qed.

Lemma rows_nonneg l : sizes_ok l -> 0 <= rows l.
Proof.
  induction 1 as [|x l Hx _ IH]; cbn [rows]; lia.
Qed.

Lemma rows_cons x l : rows (x :: l) = sz x + rows l.
Proof. reflexivity. Qed.

Lemma count_rows_from l : forall a,
  sizes_ok l -> 0 <= a -> a + rows l < 2 ^ 64 ->
  fold_left (fun a x => u64 (a + sz x)) l a = a + rows l.
Proof.
  induction l as [|x l IH]; intros a Hl Ha Hsum.
  - cbn. lia.
  - apply Forall_cons in Hl as [Hx Hl]. rewrite rows_cons in *.
    pose proof (rows_nonneg l Hl). cbn [fold_left].
    rewrite u64_small by lia. rewrite IH; [lia|exact Hl|lia|lia].
Qed.

Lemma count_rows_rows l :
  sizes_ok l -> rows l < 2 ^ 64 -> SATuple.count_rows l = rows l.
Proof.
  intros Hl Hsum. unfold SATuple.count_rows.
  rewrite count_rows_from; [lia|exact Hl|lia|lia].
Qed.

Lemma init_sub_size x first last :
  0 <= first <= last -> last < 2 ^ 64 ->
  sz (SATuple.init_sub x first last) = last - first.
Proof. intros H1 H2. cbn. apply u64_small. lia. Qed.


Section Narrow.
Variables maxrows off : Z.
Hypothesis Hmax : 0 <= maxrows < 2 ^ 64.

(** An iteration once sampling has started. *)
Lemma narrow_step_on x st :
  SATuple.on st = true ->
  0 <= SATuple.totrowsSampled st < maxrows ->
  0 <= sz x < 2 ^ 64 ->
  let s := SATuple.totrowsSampled st in
  let tk := Z.min (sz x) (maxrows - s) in
  let t := SATuple.init_sub x 0 tk in
  SATuple.narrow_step maxrows off x st
  = if s + tk =? maxrows
    then (SATuple.mkNarrow true (SATuple.totrows st) (s + tk) (SATuple.dst st ++ [t]), true)
    else (SATuple.mkNarrow true (u64 (SATuple.totrows st + sz x)) (s + tk)
            (SATuple.dst st ++ [t]), false).
Proof.
  intros Hon Hs Hx s tk t. unfold SATuple.narrow_step. rewrite Hon. cbn [negb].
  fold s. rewrite (u64_small (maxrows - s)) by lia.
  assert ((if sz x <? maxrows - s then sz x else maxrows - s) = tk) as ->.
  { subst tk. destruct (sz x <? maxrows - s) eqn:E.
    - apply Z.ltb_lt in E. rewrite Z.min_l by lia. reflexivity.
    - apply Z.ltb_ge in E. rewrite Z.min_r by lia. reflexivity. }
  assert (0 <= tk <= maxrows - s) by (subst tk; lia).
  cbn [SATuple.totrowsSampled SATuple.on SATuple.totrows SATuple.dst].
  rewrite (u64_small (tk - 0)) by lia. rewrite Z.sub_0_r.
  rewrite (u64_small (s + tk)) by lia. fold t.
  destruct (s + tk =? maxrows); reflexivity.
Qed.

(** An iteration before the tuple that holds row [off]. *)
Lemma narrow_step_skip x st :
  SATuple.on st = false ->
  SATuple.totrowsSampled st = 0 ->
  1 <= maxrows ->
  0 <= SATuple.totrows st ->
  0 <= sz x ->
  SATuple.totrows st + sz x <= off ->
  SATuple.totrows st + sz x < 2 ^ 64 ->
  SATuple.narrow_step maxrows off x st
  = (SATuple.mkNarrow false (SATuple.totrows st + sz x) 0 (SATuple.dst st), false).
Proof.
  intros Hon Hs H1 Ht Hx Hoff Hfit. unfold SATuple.narrow_step.
  rewrite Hon, Hs. cbn [negb]. rewrite !(u64_small (SATuple.totrows st + sz x)) by lia.
  destruct (off <? SATuple.totrows st + sz x) eqn:E; [apply Z.ltb_lt in E; lia|].
  cbn [SATuple.totrowsSampled SATuple.on SATuple.totrows SATuple.dst].
  destruct (0 =? maxrows) eqn:E0; [apply Z.eqb_eq in E0; lia|].
  rewrite u64_small by lia. reflexivity.
Qed.

(** The iteration at the tuple that holds row [off]. *)
Lemma narrow_step_start x st :
  SATuple.on st = false ->
  SATuple.totrowsSampled st = 0 ->
  0 <= SATuple.totrows st <= off ->
  off < SATuple.totrows st + sz x ->
  SATuple.totrows st + sz x < 2 ^ 64 ->
  off - SATuple.totrows st + maxrows < 2 ^ 64 ->
  let first := off - SATuple.totrows st in
  let tk := Z.min (sz x - first) maxrows in
  let t := SATuple.init_sub x first (first + tk) in
  SATuple.narrow_step maxrows off x st
  = if tk =? maxrows
    then (SATuple.mkNarrow true (SATuple.totrows st) tk (SATuple.dst st ++ [t]), true)
    else (SATuple.mkNarrow true (SATuple.totrows st + sz x) tk
            (SATuple.dst st ++ [t]), false).
Proof.
  intros Hon Hs Ht Hoff Hfit Hlast first tk t. unfold SATuple.narrow_step.
  rewrite Hon, Hs. cbn [negb]. rewrite (u64_small (SATuple.totrows st + sz x)) by lia.
  destruct (off <? SATuple.totrows st + sz x) eqn:E; [|apply Z.ltb_ge in E; lia].
  fold first. rewrite (u64_small first) by (subst first; lia).
  rewrite (u64_small (first + maxrows)) by (subst first; lia).
  assert ((if sz x <? first + maxrows then sz x else first + maxrows) = first + tk) as ->.
  { subst tk. destruct (sz x <? first + maxrows) eqn:E'.
    - apply Z.ltb_lt in E'. rewrite Z.min_l by lia. lia.
    - apply Z.ltb_ge in E'. rewrite Z.min_r by lia. reflexivity. }
  assert (0 <= tk <= maxrows) by (subst tk first; lia).
  cbn [SATuple.totrowsSampled SATuple.on SATuple.totrows SATuple.dst].
  replace (first + tk - first) with tk by lia.
  rewrite (u64_small tk) by lia. rewrite (u64_small (0 + tk)) by lia.
  rewrite Z.add_0_l. fold t.
  rewrite ?(u64_small (SATuple.totrows st + sz x)) by lia.
  destruct (tk =? maxrows); reflexivity.
Qed.

(** The inner loop over a concatenation. *)
Lemma narrow_inner_app l1 l2 st :
  SATuple.narrow_inner maxrows off (l1 ++ l2) st
  = let '(st1, done) := SATuple.narrow_inner maxrows off l1 st in
    if done then (st1, true) else SATuple.narrow_inner maxrows off l2 st1.
Proof.
  revert st. induction l1 as [|x l1 IH]; intros st; cbn [app SATuple.narrow_inner].
  - reflexivity.
  - destruct (SATuple.narrow_step maxrows off x st) as [st' [|]]; [reflexivity|apply IH].
Qed.

(** A pass of the inner loop once sampling has started: it stops as soon
    as [maxrows] rows are sampled, and otherwise takes every tuple whole. *)
Lemma narrow_inner_on l : forall st,
  SATuple.on st = true ->
  0 <= SATuple.totrowsSampled st < maxrows ->
  sizes_ok l ->
  exists st' done app,
    SATuple.narrow_inner maxrows off l st = (st', done)
    /\ SATuple.on st' = true
    /\ SATuple.dst st' = SATuple.dst st ++ app
    /\ sizes_ok app
    /\ SATuple.totrowsSampled st' = SATuple.totrowsSampled st + rows app
    /\ (length app <= length l)%nat
    /\ if done then SATuple.totrowsSampled st' = maxrows
       else length app = length l
            /\ rows app = rows l
            /\ SATuple.totrowsSampled st' < maxrows.
Proof.
  induction l as [|x l IH]; intros st Hon Hs Hl.
  - exists st, false, []. cbn [SATuple.narrow_inner rows length].
    rewrite app_nil_r. repeat split; try reflexivity; try lia; try assumption.
  - apply Forall_cons in Hl as [Hx Hl]. cbn [SATuple.narrow_inner].
    rewrite narrow_step_on by assumption.
    set (s := SATuple.totrowsSampled st).
    set (tk := Z.min (sz x) (maxrows - s)).
    set (t := SATuple.init_sub x 0 tk).
    assert (0 <= tk <= maxrows - s) as Htk by (subst tk s; lia).
    assert (sz t = tk) as Ht.
    { subst t. rewrite init_sub_size by lia. lia. }
    destruct (s + tk =? maxrows) eqn:E.
    + apply Z.eqb_eq in E.
      eexists _, true, [t]. split; [reflexivity|].
      cbn [SATuple.on SATuple.dst SATuple.totrowsSampled rows length].
      repeat split; try reflexivity; try lia.
      all: repeat constructor; lia.
    + apply Z.eqb_neq in E.
      assert (tk = sz x) as Hfull by (subst tk; lia).
      destruct (IH (SATuple.mkNarrow true (u64 (SATuple.totrows st + sz x)) (s + tk)
                      (SATuple.dst st ++ [t])))
        as (st' & done & app & Hrun & Hon' & Hdst & Happ & Hsum & Hlen & Hdone).
      { reflexivity. } { cbn. lia. } { exact Hl. }
      exists st', done, (t :: app). split; [exact Hrun|].
      cbn [SATuple.on SATuple.dst SATuple.totrowsSampled] in *.
      split; [exact Hon'|]. split; [rewrite Hdst, <- app_assoc; reflexivity|].
      split; [constructor; [lia|exact Happ]|].
      cbn [rows length]. split; [lia|]. split; [lia|].
      destruct done; [exact Hdone|].
      destruct Hdone as (Hl1 & Hl2 & Hl3). repeat split; lia.
Qed.

(** The first pass, before sampling has started: either row [off] lies
    beyond the tuples of [l], or sampling starts at some tuple [k] of [l]
    and runs on to the end of [l] unless [maxrows] rows are reached. *)
Lemma narrow_inner_first l : forall T d,
  1 <= maxrows ->
  sizes_ok l ->
  0 <= T <= off ->
  T + rows l < 2 ^ 64 ->
  off + maxrows < 2 ^ 64 ->
  exists st' done,
    SATuple.narrow_inner maxrows off l (SATuple.mkNarrow false T 0 d) = (st', done)
    /\ ((T + rows l <= off /\ done = false
         /\ st' = SATuple.mkNarrow false (T + rows l) 0 d)
        \/ (off < T + rows l /\ SATuple.on st' = true
            /\ exists app,
                 SATuple.dst st' = d ++ app
                 /\ sizes_ok app
                 /\ SATuple.totrowsSampled st' = rows app
                 /\ (1 <= length app <= length l)%nat
                 /\ if done then rows app = maxrows
                    else rows app < maxrows
                         /\ rows app = T + rows l - off
                         /\ exists k, (k + length app = length l)%nat
                                      /\ off < T + rows (take (S k) l))).
Proof.
  induction l as [|x l IH]; intros T d H1 Hl HT Hfit Hlast.
  - exists (SATuple.mkNarrow false T 0 d), false. split; [reflexivity|].
    left. cbn [rows]. rewrite Z.add_0_r. repeat split; lia.
  - apply Forall_cons in Hl as [Hx Hl]. pose proof (rows_nonneg l Hl) as Hnn.
    cbn [rows] in *. cbn [SATuple.narrow_inner].
    destruct (Z_lt_dec off (T + sz x)) as [Hin|Hout].
    + (* sampling starts at [x] *)
      rewrite narrow_step_start; cbn [SATuple.on SATuple.totrowsSampled SATuple.totrows SATuple.dst];
        try reflexivity; try lia.
      set (first := off - T).
      set (tk := Z.min (sz x - first) maxrows).
      set (t := SATuple.init_sub x first (first + tk)).
      assert (1 <= tk <= maxrows) as Htk by (subst tk first; lia).
      assert (sz t = tk) as Ht.
      { subst t. rewrite init_sub_size by (subst first; lia). lia. }
      destruct (tk =? maxrows) eqn:E.
      * apply Z.eqb_eq in E. eexists _, true. split; [reflexivity|]. right.
        cbn [SATuple.on SATuple.dst SATuple.totrowsSampled].
        split; [lia|]. split; [reflexivity|]. exists [t].
        cbn [rows length]. repeat split; try lia. repeat constructor; lia.
      * apply Z.eqb_neq in E.
        assert (tk = sz x - first) as Hfull by (subst tk; lia).
        destruct (narrow_inner_on l (SATuple.mkNarrow true (T + sz x) tk (d ++ [t])))
          as (st' & done & app & Hrun & Hon' & Hdst & Happ & Hsum & Hlen & Hdone).
        { reflexivity. } { cbn. lia. } { exact Hl. }
        exists st', done. split; [exact Hrun|]. right.
        cbn [SATuple.on SATuple.dst SATuple.totrowsSampled] in *.
        split; [lia|]. split; [exact Hon'|]. exists (t :: app).
        split; [rewrite Hdst, <- app_assoc; reflexivity|].
        split; [constructor; [lia|exact Happ]|].
        cbn [rows length]. split; [lia|]. split; [lia|].
        destruct done; [lia|]. destruct Hdone as (Hl1 & Hl2 & Hl3).
        split; [lia|]. split; [subst first; lia|].
        exists 0%nat. split; [lia|]. change (take 1 (x :: l)) with [x].
        cbn [rows]. lia.
    + (* [x] lies before row [off] *)
      rewrite narrow_step_skip; cbn [SATuple.on SATuple.totrowsSampled SATuple.totrows SATuple.dst];
        try reflexivity; try lia.
      destruct (IH (T + sz x) d) as (st' & done & Hrun & Hcase); try assumption; try lia.
      exists st', done. split; [exact Hrun|].
      destruct Hcase as [(Hoff & Hdone & Hst)|(Hoff & Hon' & app & Hdst & Happ & Hsum & Hlen & Hdone)].
      * left. repeat split; [lia|exact Hdone|]. rewrite Hst. f_equal. lia.
      * right. split; [lia|]. split; [exact Hon'|]. exists app.
        split; [exact Hdst|]. split; [exact Happ|]. split; [exact Hsum|].
        cbn [length]. split; [lia|].
        destruct done; [exact Hdone|]. destruct Hdone as (Hlt & Hrows & k & Hk & Hoffk).
        split; [exact Hlt|]. split; [lia|].
        exists (S k). split; [lia|].
        change (take (S (S k)) (x :: l)) with (x :: take (S k) l).
        cbn [rows]. lia.
Qed.

End Narrow.

Lemma sizes_ok_take (l : list SATuple.t) n : sizes_ok l -> sizes_ok (take n l).
Proof. apply Forall_take. Qed.

(** With [maxrows = 0] the loop leaves at its first iteration, with at
    most one tuple, of no rows, appended. *)
Lemma narrow_twice_zero x l off d :
  0 <= sz x < 2 ^ 64 -> 0 <= off < 2 ^ 64 ->
  exists app,
    SATuple.dst (SATuple.narrow_twice 2 0 off (x :: l) (SATuple.mkNarrow false 0 0 d))
    = d ++ app
    /\ sizes_ok app /\ rows app = 0 /\ (length app <= 1)%nat.
Proof.
  intros Hx Hoff. cbn [SATuple.narrow_twice SATuple.narrow_inner].
  destruct (Z_lt_dec off (sz x)) as [Hin|Hout].
  - rewrite narrow_step_start;
      cbn [SATuple.on SATuple.totrowsSampled SATuple.totrows SATuple.dst];
      try reflexivity; try lia.
    rewrite Z.sub_0_r. rewrite Z.min_r by lia. cbn [Z.eqb].
    rewrite Z.add_0_r.
    exists [SATuple.init_sub x off off]. split; [reflexivity|].
    assert (sz (SATuple.init_sub x off off) = 0) as Hsz.
    { rewrite init_sub_size by lia. lia. }
    cbn [rows length]. repeat split; try lia. repeat constructor; lia.
  - unfold SATuple.narrow_step.
    cbn [SATuple.on SATuple.totrowsSampled SATuple.totrows SATuple.dst negb].
    rewrite Z.add_0_l, u64_small by lia.
    destruct (off <? sz x) eqn:E; [apply Z.ltb_lt in E; lia|].
    cbn [SATuple.on SATuple.totrowsSampled SATuple.totrows SATuple.dst Z.eqb].
    exists []. rewrite app_nil_r. cbn [rows length]. repeat split; try lia. constructor.
Qed.

(** With [maxrows >= 1] exactly [maxrows] rows are sampled, in at least
    one and at most [|src| + 1] tuples. *)
Lemma narrow_twice_sampled src off maxrows d :
  sizes_ok src ->
  1 <= maxrows < rows src ->
  rows src < 2 ^ 64 ->
  0 <= off < rows src ->
  off + maxrows < 2 ^ 64 ->
  exists app,
    SATuple.dst (SATuple.narrow_twice 2 maxrows off src (SATuple.mkNarrow false 0 0 d))
    = d ++ app
    /\ sizes_ok app /\ rows app = maxrows
    /\ (1 <= length app <= length src + 1)%nat.
Proof.
  intros Hsrc Hmax Hfit Hoff Hlast.
  destruct (narrow_inner_first maxrows off ltac:(lia) src 0 d)
    as (st1 & done1 & Hrun1 & Hcase); try assumption; try lia.
  destruct Hcase as [(Hbad & _)|(_ & Hon1 & app1 & Hdst1 & Happ1 & Hsum1 & Hlen1 & Hdone1)];
    [lia|].
  cbn [SATuple.narrow_twice]. rewrite Hrun1.
  destruct done1.
  - exists app1. repeat split; try assumption; lia.
  - destruct Hdone1 as (Hlt & Hrows & k & Hk & Hoffk).
    pose proof (narrow_inner_app maxrows off (take (S k) src) (drop (S k) src) st1)
      as Hsplit.
    rewrite take_drop in Hsplit. rewrite Hsplit. clear Hsplit.
    destruct (narrow_inner_on maxrows off ltac:(lia) (take (S k) src) st1)
      as (st2 & done2 & app2 & Hrun2 & Hon2 & Hdst2 & Happ2 & Hsum2 & Hlen2 & Hdone2).
    { exact Hon1. }
    { rewrite Hsum1. pose proof (rows_nonneg app1 Happ1). lia. }
    { apply sizes_ok_take. exact Hsrc. }
    rewrite Hrun2. destruct done2.
    + exists (app1 ++ app2). rewrite Hdst2, Hdst1, <- app_assoc.
      split; [reflexivity|]. split; [apply Forall_app; split; assumption|].
      rewrite rows_app, length_app. split; [lia|].
      rewrite length_take in Hlen2. lia.
    + destruct Hdone2 as (_ & Hrows2 & Hlt2). lia.
Qed.

(** X21: what [randomNarrow] computes, its assertions aside (they
    presuppose [maxrows >= 1] and slices that are not empty), on a source
    whose slice sizes are [size_t] values with fewer than 2^63 rows in
    total.  If the total is at most [maxrows] it returns false and leaves
    [dst] as it is.  If the total exceeds [maxrows] it returns true and
    appends tuples whose slice lengths sum to exactly [maxrows]; it
    appends at most [|src| + 1] tuples, and at least one when
    [maxrows >= 1], for every draw. *)
Theorem randomNarrow_bounds (src dst0 : list SATuple.t) (rnd maxrows : Z) :
  sizes_ok src ->
  rows src < 2 ^ 63 ->
  0 <= maxrows < 2 ^ 64 ->
  (rows src <= maxrows ->
     SATuple.randomNarrow src dst0 rnd maxrows = (false, dst0))
  /\ (maxrows < rows src ->
        exists app,
          SATuple.randomNarrow src dst0 rnd maxrows = (true, dst0 ++ app)
          /\ sizes_ok app
          /\ rows app = maxrows
          /\ (length app <= length src + 1)%nat
          /\ (1 <= maxrows -> app <> [] /\ dst0 ++ app <> [])).
Proof.
  intros Hsrc Hfit Hmax. unfold SATuple.randomNarrow.
  rewrite count_rows_rows by (try assumption; lia).
  split; intros Hcmp.
  - destruct (rows src <=? maxrows) eqn:E; [reflexivity|apply Z.leb_gt in E; lia].
  - destruct (rows src <=? maxrows) eqn:E; [apply Z.leb_le in E; lia|].
    set (off := u32 (rnd mod rows src)).
    assert (0 <= off < rows src /\ off < 2 ^ 32) as [Hoff Hoff32].
    { pose proof (Z.mod_pos_bound rnd (rows src) ltac:(lia)) as Hr.
      pose proof (u32_range (rnd mod rows src)) as Hu.
      assert (u32 (rnd mod rows src) <= rnd mod rows src)
        by (apply Z.mod_le; lia).
      subst off. lia. }
    destruct (Z.eq_dec maxrows 0) as [->|Hpos].
    + destruct src as [|x l]; [cbn [rows] in Hcmp; lia|].
      apply Forall_cons in Hsrc as [Hx Hl].
      destruct (narrow_twice_zero x l off dst0) as (app & Hdst & Happ & Hrows & Hlen);
        [exact Hx|lia|].
      exists app. rewrite Hdst. split; [reflexivity|]. split; [exact Happ|].
      split; [lia|]. split; [cbn [length]; lia|]. intros Hpos. lia.
    + destruct (narrow_twice_sampled src off maxrows dst0)
        as (app & Hdst & Happ & Hrows & Hlen); try assumption; try lia.
      exists app. rewrite Hdst. split; [reflexivity|]. split; [exact Happ|].
      split; [lia|]. split; [lia|]. intros _. split.
      * intros ->. cbn in Hlen. lia.
      * intros Hnil. apply app_eq_nil in Hnil as [_ ->]. cbn in Hlen. lia.
Qed.

Lemma randomNarrow_bounds_witness :
  sizes_ok two_tuples
  /\ rows two_tuples = 5
  /\ exists app,
       SATuple.randomNarrow two_tuples [] 4 3 = (true, [] ++ app)
       /\ sizes_ok app
       /\ rows app = 3
       /\ (length app <= length two_tuples + 1)%nat
       /\ (1 <= 3 -> app <> [] /\ [] ++ app <> []).
Proof.
  assert (sizes_ok two_tuples) as Hsizes by (repeat constructor; cbn; lia).
  split; [exact Hsizes|]. split; [reflexivity|].
  apply (randomNarrow_bounds two_tuples [] 4 3 Hsizes); cbn; lia.
Defined.

(** C4: the code breaks its own assertions when [maxrows = 0].  On every
    source with at least one row (fewer than 2^63 in all), the call
    returns true after the first iteration of its loop.  If the row drawn,
    [off], lies in [src[0]], it has appended the tuple
    [init(src[0], off, off)] of no rows, where the code asserts
    [assert_gt(last, first)]; otherwise it has appended nothing, so a
    [dst] that was empty is still empty where the code asserts
    [!dst.empty()] and the claim says [dst] is non-empty. *)
Theorem randomNarrow_zero_breaks_asserts
  (x : SATuple.t) (rest dst0 : list SATuple.t) (rnd : Z) :
  sizes_ok (x :: rest) ->
  0 < rows (x :: rest) < 2 ^ 63 ->
  SATuple.randomNarrow (x :: rest) dst0 rnd 0
  = (true,
     if u32 (rnd mod rows (x :: rest)) <? sz x
     then dst0 ++ [SATuple.init_sub x (u32 (rnd mod rows (x :: rest)))
                     (u32 (rnd mod rows (x :: rest)))]
     else dst0)
  /\ sz (SATuple.init_sub x (u32 (rnd mod rows (x :: rest)))
           (u32 (rnd mod rows (x :: rest)))) = 0.
Proof.
  intros Hsrc Hrows. unfold SATuple.randomNarrow.
  rewrite count_rows_rows by (try assumption; lia).
  destruct (rows (x :: rest) <=? 0) eqn:E; [apply Z.leb_le in E; lia|]. clear E.
  set (off := u32 (rnd mod rows (x :: rest))).
  pose proof (u32_range (rnd mod rows (x :: rest))) as Hoff. fold off in Hoff.
  apply Forall_cons in Hsrc as [Hx Hrest].
  assert (sz (SATuple.init_sub x off off) = 0) as Hsz
    by (rewrite init_sub_size by lia; lia).
  split; [|exact Hsz].
  cbn [SATuple.narrow_twice SATuple.narrow_inner].
  destruct (off <? sz x) eqn:Hin.
  - apply Z.ltb_lt in Hin.
    rewrite narrow_step_start;
      cbn [SATuple.on SATuple.totrowsSampled SATuple.totrows SATuple.dst];
      try reflexivity; try lia.
    rewrite Z.sub_0_r. rewrite Z.min_r by lia. cbn [Z.eqb].
    rewrite Z.add_0_r. reflexivity.
  - unfold SATuple.narrow_step.
    cbn [SATuple.on SATuple.totrowsSampled SATuple.totrows SATuple.dst negb].
    rewrite Z.add_0_l. fold (sz x). rewrite u64_small by lia. rewrite Hin.
    cbn [SATuple.on SATuple.totrowsSampled SATuple.totrows SATuple.dst Z.eqb].
    reflexivity.
Qed.

Lemma randomNarrow_zero_breaks_asserts_witness :
  sizes_ok two_tuples
  /\ 0 < rows two_tuples < 2 ^ 63
  /\ SATuple.randomNarrow two_tuples [] 3 0 = (true, [])
  /\ SATuple.randomNarrow two_tuples [] 1 0
     = (true, [SATuple.init_sub (tuple_of_rows 2) 1 1])
  /\ sz (SATuple.init_sub (tuple_of_rows 2) 1 1) = 0.
Proof.
  assert (sizes_ok two_tuples) as Hsizes by (repeat constructor; cbn; lia).
  assert (0 < rows two_tuples < 2 ^ 63) as Hrows by (cbn; lia).
  split; [exact Hsizes|]. split; [exact Hrows|].
  split; [exact (proj1 (randomNarrow_zero_breaks_asserts (tuple_of_rows 2)
                          [tuple_of_rows 3] [] 3 Hsizes Hrows))|].
  exact (randomNarrow_zero_breaks_asserts (tuple_of_rows 2) [tuple_of_rows 3] [] 1
           Hsizes Hrows).
Defined.

(** ** One tier *)

Section TierFacts.
Context `{PoolOps Pool}.

Abbreviation tier := (AlignmentCache.t Pool).

Lemma set_same (c : tier) :
  AlignmentCache.set_qmap (AlignmentCache.qmap_ c)
    (AlignmentCache.set_pool (AlignmentCache.pool_ c) c) = c.
Proof. destruct c; reflexivity. Qed.

(** *** The version counter *)

Lemma version_copy_offs n : forall j srci (src c : tier) ok c',
  AlignmentCache.copy_offs n j srci src c = Some (ok, c') ->
  AlignmentCache.version_ c' = AlignmentCache.version_ c.
Proof.
  induction n as [|n IH]; intros j srci src c ok c' Hrun; cbn [AlignmentCache.copy_offs] in Hrun.
  - injection Hrun as _ <-. reflexivity.
  - destruct (plist_get (AlignmentCache.salist_ src) (u64 (srci + j))) as [x|];
      [|discriminate]. cbn [mbind option_bind] in Hrun.
    destruct (plist_add CSAList (AlignmentCache.pool_ c) (AlignmentCache.salist_ c) x)
      as [[ok1 p] l]. destruct ok1.
    + apply IH in Hrun. exact Hrun.
    + injection Hrun as _ <-. reflexivity.
Qed.

Lemma version_copy_refs n : forall i (src : tier) added (c : tier) ok c',
  AlignmentCache.copy_refs n i src added c = Some (ok, c') ->
  AlignmentCache.version_ c' = AlignmentCache.version_ c.
Proof.
  induction n as [|n IH]; intros i src added0 c ok c' Hrun;
    cbn [AlignmentCache.copy_refs] in Hrun.
  - injection Hrun as _ <-. reflexivity.
  - destruct (plist_get (AlignmentCache.qlist_ src) i) as [sak|]; [|discriminate].
    cbn [mbind option_bind] in Hrun.
    destruct (plist_add CQList (AlignmentCache.pool_ c) (AlignmentCache.qlist_ c) sak)
      as [[ok1 p] l]. destruct ok1; cbn [negb] in Hrun;
      [|injection Hrun as _ <-; reflexivity].
    destruct (rb_add CSAMap SAVal.default _ _ sak _) as [[[node added] p2] m2].
    destruct added; cbn [negb] in Hrun; [|apply IH in Hrun; exact Hrun].
    destruct node as [node|]; [|injection Hrun as _ <-; reflexivity].
    destruct (AlignmentCache.samap_ src !! sak) as [srcSa|]; [|discriminate].
    cbn [mbind option_bind] in Hrun.
    destruct (AlignmentCache.copy_offs _ _ _ _ _) as [[ok3 c3]|] eqn:Hoffs;
      [|discriminate].
    apply version_copy_offs in Hoffs.
    destruct ok3.
    + apply IH in Hrun. rewrite Hrun, Hoffs. reflexivity.
    + injection Hrun as _ <-. rewrite Hoffs. reflexivity.
Qed.

Lemma version_copy qk qv (src c : tier) ok c' :
  AlignmentCache.copy qk qv src c = Some (ok, c') ->
  AlignmentCache.version_ c' = AlignmentCache.version_ c.
Proof.
  unfold AlignmentCache.copy. intros Hrun.
  destruct (rb_add CQMap QVal.reset _ _ qk _) as [[[node added] p] m].
  destruct added; cbn [negb] in Hrun; [|injection Hrun as _ <-; reflexivity].
  destruct node as [node|]; [|discriminate].
  apply version_copy_refs in Hrun. exact Hrun.
Qed.

Lemma version_reserve_offs n : forall (c : tier),
  AlignmentCache.version_ (AlignmentCache.reserve_offs n c).2
  = AlignmentCache.version_ c.
Proof.
  induction n as [|n IH]; intros c; cbn [AlignmentCache.reserve_offs]; [reflexivity|].
  destruct (plist_add CSAList _ _ SENTINEL) as [[ok p] l].
  destruct ok; [rewrite IH|]; reflexivity.
Qed.

Lemma version_addOnTheFly qv sak topf botf (c : tier) :
  AlignmentCache.version_ (AlignmentCache.addOnTheFly qv sak topf botf c).2
  = AlignmentCache.version_ c.
Proof.
  unfold AlignmentCache.addOnTheFly.
  destruct (plist_add CQList _ _ sak) as [[ok p] l].
  destruct ok; cbn [negb]; [|reflexivity].
  destruct (rb_add CSAMap SAVal.default _ _ sak) as [[[node added] p2] m2].
  destruct node as [node|]; [|reflexivity].
  destruct added; [|reflexivity].
  match goal with
  | |- context [AlignmentCache.reserve_offs ?n ?c0] =>
      pose proof (version_reserve_offs n c0) as Hv;
      destruct (AlignmentCache.reserve_offs n c0) as [ok3 c3]
  end.
  cbn in Hv. destruct ok3; cbn; exact Hv.
Qed.

Lemma version_add qk added0 (c : tier) :
  AlignmentCache.version_ (AlignmentCache.add qk added0 c).2
  = AlignmentCache.version_ c.
Proof.
  unfold AlignmentCache.add.
  destruct (rb_add CQMap QVal.reset _ _ qk _) as [[[node added] p] m]. reflexivity.
Qed.

Lemma version_step op (c c' : tier) :
  AlignmentCache.clears op = false ->
  AlignmentCache.step op c = Some c' ->
  AlignmentCache.version c' = AlignmentCache.version c.
Proof.
  unfold AlignmentCache.version.
  destruct op; cbn [AlignmentCache.clears AlignmentCache.step]; intros Hop Hstep;
    try discriminate; try (injection Hstep as <-; reflexivity).
  - destruct (AlignmentCache.queryEx k satups c); [|discriminate].
    injection Hstep as <-. reflexivity.
  - destruct (AlignmentCache.queryQval qv satups c); [|discriminate].
    injection Hstep as <-. reflexivity.
  - destruct (AlignmentCache.copy qk qv src c) as [[ok c1]|] eqn:Hcopy; [|discriminate].
    injection Hstep as <-. apply version_copy in Hcopy. exact Hcopy.
  - injection Hstep as <-. apply version_add.
  - injection Hstep as <-. apply version_addOnTheFly.
Qed.

Lemma version_clear (c : tier) :
  AlignmentCache.version (AlignmentCache.clear c)
  = u32 (AlignmentCache.version c + 1).
Proof. reflexivity. Qed.

(** [clearCopy] changes the version only when it clears the tier. *)
Lemma version_clearCopy qk qv (src c : tier) cleared c' :
  AlignmentCache.clearCopy qk qv src c = Some (cleared, c') ->
  AlignmentCache.version c'
  = if cleared then u32 (AlignmentCache.version c + 1) else AlignmentCache.version c.
Proof.
  unfold AlignmentCache.clearCopy, AlignmentCache.version. intros Hrun.
  destruct (AlignmentCache.copy qk qv src c) as [[ok c1]|] eqn:Hc1; [|discriminate].
  apply version_copy in Hc1. destruct ok.
  - injection Hrun as <- <-. exact Hc1.
  - destruct (AlignmentCache.copy qk qv src (AlignmentCache.clear c1))
      as [[ok2 c2]|] eqn:Hc2; [|discriminate].
    apply version_copy in Hc2. injection Hrun as <- <-.
    rewrite Hc2. cbn [AlignmentCache.clear AlignmentCache.version_]. rewrite Hc1.
    reflexivity.
Qed.

(** C8 (amended): [clear()] advances the version by one modulo 2^32, so
    the version strictly increases except at 2^32 - 1, where it wraps to
    0; no operation that does not go through [clear()] ([query],
    [queryEx], [queryQval], [empty], [add], [addOnTheFly], [copy], the
    accessors) changes the version. *)
Theorem version_changes_only_by_clear (c : tier) :
  AlignmentCache.version (AlignmentCache.clear c)
  = u32 (AlignmentCache.version c + 1)
  /\ (0 <= AlignmentCache.version c < 2 ^ 32 - 1 ->
        AlignmentCache.version c < AlignmentCache.version (AlignmentCache.clear c))
  /\ (AlignmentCache.version c = 2 ^ 32 - 1 ->
        AlignmentCache.version (AlignmentCache.clear c) = 0)
  /\ (forall op c',
        AlignmentCache.clears op = false ->
        AlignmentCache.step op c = Some c' ->
        AlignmentCache.version c' = AlignmentCache.version c).
Proof.
  split; [apply version_clear|]. split; [|split].
  - intros Hv. rewrite version_clear, u32_small by lia. lia.
  - intros Hv. rewrite version_clear, Hv. reflexivity.
  - intros op c'. apply version_step.
Qed.

(** *** Copy into a tier that has the key *)

(** C7: when the destination tier already holds [qk], [copy] returns true
    and the tier is exactly as before. *)
Theorem copy_keeps_existing qk qv (src c : tier) :
  is_Some (AlignmentCache.qmap_ c !! qk) ->
  AlignmentCache.copy qk qv src c = Some (true, c).
Proof.
  intros [v Hv]. unfold AlignmentCache.copy, rb_add. rewrite Hv.
  cbn [negb]. rewrite set_same. reflexivity.
Qed.

End TierFacts.

Lemma version_changes_only_by_clear_witness :
  AlignmentCache.version tier_ACGT = 0
  /\ AlignmentCache.version (AlignmentCache.clear tier_ACGT) = 1
  /\ AlignmentCache.version tier_ACGT
     < AlignmentCache.version (AlignmentCache.clear tier_ACGT)
  /\ (forall op c',
        AlignmentCache.clears op = false ->
        AlignmentCache.step op tier_ACGT = Some c' ->
        AlignmentCache.version c' = AlignmentCache.version tier_ACGT).
Proof.
  assert (AlignmentCache.version tier_ACGT = 0) as Hv by (vm_compute; reflexivity).
  destruct (version_changes_only_by_clear tier_ACGT) as (Hclear & Hlt & _ & Hother).
  split; [exact Hv|]. split; [rewrite Hclear, Hv; reflexivity|].
  split; [apply Hlt; rewrite Hv; lia|exact Hother].
Defined.

Lemma clear_times_fresh n :
  clear_times n fresh_tier
  = AlignmentCache.mk (pool_of 100) ∅ [] ∅ [] false (u32 (Z.of_nat n)).
Proof.
  induction n as [|n IH].
  - reflexivity.
  - cbn [clear_times]. rewrite IH. unfold AlignmentCache.clear.
    cbn [AlignmentCache.pool_ AlignmentCache.shared_ AlignmentCache.version_].
    f_equal. unfold u32, wrap. rewrite Zplus_mod_idemp_l. f_equal. lia.
Qed.

(** C8 as stated fails at the largest version: a tier that has been
    cleared 2^32 - 1 times has version 2^32 - 1, and clearing it once more
    wraps the version to 0. *)
Lemma version_wraps_at_max :
  clear_times (Z.to_nat 4294967295) fresh_tier = worn_tier
  /\ AlignmentCache.version worn_tier = 4294967295
  /\ AlignmentCache.version (AlignmentCache.clear worn_tier) = 0
  /\ ~ AlignmentCache.version worn_tier
      < AlignmentCache.version (AlignmentCache.clear worn_tier).
Proof.
  split; [rewrite clear_times_fresh, Z2Nat.id by lia; reflexivity|].
  split; [reflexivity|]. split; [reflexivity|]. vm_compute. discriminate.
Qed.

Lemma copy_keeps_existing_witness :
  AlignmentCache.copy (QKey.mk 27 4) (QVal.mk 0 1 1) fresh_tier tier_ACGT
  = Some (true, tier_ACGT).
Proof.
  apply (copy_keeps_existing (QKey.mk 27 4) (QVal.mk 0 1 1) fresh_tier tier_ACGT).
  exists (QVal.mk 0 2 5). vm_compute. reflexivity.
Defined.

Section CopyDefined.
Context `{PoolOps Pool}.

(** *** Copy is defined on a payload that passes [repOk] *)

Lemma copy_offs_defined n : forall j srci (src c : AlignmentCache.t Pool),
  AlignmentCache.offs_ok n j srci src = true ->
  is_Some (AlignmentCache.copy_offs n j srci src c).
Proof.
  induction n as [|n IH]; intros j srci src c Hok;
    cbn [AlignmentCache.copy_offs AlignmentCache.offs_ok] in *.
  - eexists; reflexivity.
  - destruct (plist_get (AlignmentCache.salist_ src) (u64 (srci + j))) as [x|];
      [|discriminate]. cbn [mbind option_bind].
    destruct (plist_add CSAList (AlignmentCache.pool_ c) (AlignmentCache.salist_ c) x)
      as [[ok p] l]. destruct ok; [apply IH; exact Hok|eexists; reflexivity].
Qed.

Lemma copy_refs_defined n : forall i (src : AlignmentCache.t Pool) added0 c,
  AlignmentCache.refs_ok n i src = true ->
  is_Some (AlignmentCache.copy_refs n i src added0 c).
Proof.
  induction n as [|n IH]; intros i src added0 c Hok;
    cbn [AlignmentCache.copy_refs AlignmentCache.refs_ok] in *.
  - eexists; reflexivity.
  - destruct (plist_get (AlignmentCache.qlist_ src) i) as [sak|]; [|discriminate].
    destruct (AlignmentCache.samap_ src !! sak) as [sav|] eqn:Hsav; [|discriminate].
    apply andb_true_iff in Hok as [Hoffs Hrest]. cbn [mbind option_bind].
    destruct (plist_add CQList (AlignmentCache.pool_ c) (AlignmentCache.qlist_ c) sak)
      as [[ok p] l]. destruct ok; cbn [negb]; [|eexists; reflexivity].
    destruct (rb_add CSAMap SAVal.default _ _ sak _) as [[[node added] p2] m2].
    destruct added; cbn [negb]; [|apply IH; exact Hrest].
    destruct node as [node|]; [|eexists; reflexivity].
    rewrite Hsav. cbn [mbind option_bind].
    match goal with
    | |- context [AlignmentCache.copy_offs ?m ?j ?s ?sr ?c0] =>
        destruct (copy_offs_defined m j s sr c0 Hoffs) as [[ok3 c3] ->]
    end.
    destruct ok3; [apply IH; exact Hrest|eexists; reflexivity].
Qed.

Lemma copy_defined qk qv (src c : AlignmentCache.t Pool) :
  AlignmentCache.qval_repOk qv src = true ->
  is_Some (AlignmentCache.copy qk qv src c).
Proof.
  intros Hok. unfold AlignmentCache.copy, rb_add.
  destruct (AlignmentCache.qmap_ c !! qk); cbn [negb]; [eexists; reflexivity|].
  destruct (pool_alloc CQMap (AlignmentCache.pool_ c)); cbn [negb];
    [|eexists; reflexivity].
  apply copy_refs_defined. exact Hok.
Qed.

Lemma clearCopy_defined qk qv (src c : AlignmentCache.t Pool) :
  AlignmentCache.qval_repOk qv src = true ->
  is_Some (AlignmentCache.clearCopy qk qv src c).
Proof.
  intros Hok. unfold AlignmentCache.clearCopy.
  destruct (copy_defined qk qv src c Hok) as [[ok c1] ->].
  destruct ok; [eexists; reflexivity|].
  destruct (copy_defined qk qv src (AlignmentCache.clear c1) Hok) as [[ok2 c2] ->].
  eexists; reflexivity.
Qed.

(** [repOk] does not read the query map. *)
Lemma offs_ok_set_qmap n : forall j srci m (c : AlignmentCache.t Pool),
  AlignmentCache.offs_ok n j srci (AlignmentCache.set_qmap m c)
  = AlignmentCache.offs_ok n j srci c.
Proof.
  induction n as [|n IH]; intros j srci m c; cbn [AlignmentCache.offs_ok]; [reflexivity|].
  cbn [AlignmentCache.set_qmap AlignmentCache.salist_].
  destruct (plist_get (AlignmentCache.salist_ c) (u64 (srci + j))); [apply IH|reflexivity].
Qed.

Lemma refs_ok_set_qmap n : forall i m (c : AlignmentCache.t Pool),
  AlignmentCache.refs_ok n i (AlignmentCache.set_qmap m c)
  = AlignmentCache.refs_ok n i c.
Proof.
  induction n as [|n IH]; intros i m c; cbn [AlignmentCache.refs_ok]; [reflexivity|].
  cbn [AlignmentCache.set_qmap AlignmentCache.qlist_ AlignmentCache.samap_].
  destruct (plist_get (AlignmentCache.qlist_ c) i) as [sak|]; [|reflexivity].
  destruct (AlignmentCache.samap_ c !! sak) as [sav|]; [|reflexivity].
  rewrite IH. f_equal. apply (offs_ok_set_qmap _ _ _ m c).
Qed.

Lemma qval_repOk_set_qmap qv m (c : AlignmentCache.t Pool) :
  AlignmentCache.qval_repOk qv (AlignmentCache.set_qmap m c)
  = AlignmentCache.qval_repOk qv c.
Proof. apply refs_ok_set_qmap. Qed.

End CopyDefined.

(** ** The session interface *)

Section IfaceFacts.
Context `{PoolOps Pool}.

Abbreviation iface := (AlignmentCacheIface.t Pool).

Ltac session_fields :=
  cbn [AlignmentCacheIface.qk_ AlignmentCacheIface.qv_ AlignmentCacheIface.qvbuf_
       AlignmentCacheIface.cacheable_ AlignmentCacheIface.rangen_
       AlignmentCacheIface.eltsn_ AlignmentCacheIface.current_
       AlignmentCacheIface.local_ AlignmentCacheIface.shared_
       AlignmentCacheIface.set_qk AlignmentCacheIface.set_qv
       AlignmentCacheIface.set_qvbuf AlignmentCacheIface.set_cacheable
       AlignmentCacheIface.set_counters AlignmentCacheIface.set_current
       AlignmentCacheIface.set_local AlignmentCacheIface.set_shared
       AlignmentCacheIface.resetRead AlignmentCacheIface.aligning
       AlignmentCacheIface.load AlignmentCacheIface.store
       AlignmentCache.set_qmap AlignmentCache.qmap_] in *.

Lemma resetRead_resets (a : iface) : AlignmentCacheIface.session_is_reset (AlignmentCacheIface.resetRead a).
Proof. repeat split. Qed.

(** [store] leaves the pointer and the counters alone, and the value can
    be read back. *)
Lemma store_session p v (a a' : iface) :
  AlignmentCacheIface.store p v a = Some a' ->
  AlignmentCacheIface.qv_ a' = AlignmentCacheIface.qv_ a
  /\ AlignmentCacheIface.qk_ a' = AlignmentCacheIface.qk_ a
  /\ AlignmentCacheIface.rangen_ a' = AlignmentCacheIface.rangen_ a
  /\ AlignmentCacheIface.eltsn_ a' = AlignmentCacheIface.eltsn_ a
  /\ AlignmentCacheIface.local_ a' = AlignmentCacheIface.local_ a
  /\ AlignmentCacheIface.shared_ a' = AlignmentCacheIface.shared_ a
  /\ AlignmentCacheIface.load p a' = Some v.
Proof.
  destruct p as [|k|]; cbn [AlignmentCacheIface.store]; intros Hst.
  - discriminate.
  - destruct (AlignmentCache.qmap_ (AlignmentCacheIface.current_ a) !! k) eqn:Hk;
      [|discriminate].
    injection Hst as <-. session_fields. repeat split.
    cbn [AlignmentCacheIface.load AlignmentCacheIface.current_
         AlignmentCache.set_qmap AlignmentCache.qmap_].
    apply lookup_insert_eq.
  - injection Hst as <-. repeat split.
Qed.

(** *** beginAlign *)

Lemma add_handle qk added0 (c : AlignmentCache.t Pool) k added cur :
  AlignmentCache.add qk added0 c = (Some k, added, cur) ->
  k = qk /\ is_Some (AlignmentCache.qmap_ cur !! qk).
Proof.
  unfold AlignmentCache.add, rb_add.
  destruct (AlignmentCache.qmap_ c !! qk) as [v|] eqn:Hq.
  - intros [= <- <- <-]. split; [reflexivity|]. cbn. rewrite Hq. eexists; reflexivity.
  - destruct (pool_alloc CQMap (AlignmentCache.pool_ c)) as [p|]; [|discriminate].
    intros [= <- <- <-]. split; [reflexivity|]. cbn.
    rewrite lookup_insert_eq. eexists; reflexivity.
Qed.

(** C5: [beginAlign] returns 1 exactly when the encoded key is cacheable
    and the query of the current tier finds it, and then the out parameter
    holds the payload found and the session is reset; it returns -1 exactly
    when the handle is null after the add/buffer step (which is when [add]
    ran and returned null), and then the session is reset; in every other
    case it resets the payload the handle points to and returns 0. *)
Theorem beginAlign_outcome seq qv (a : iface) :
  let qk := QKey.of_string seq in
  let cur := AlignmentCacheIface.current_ a in
  let handle := AlignmentCacheIface.beginAlign_handle seq a in
  exists ret out a',
    AlignmentCacheIface.beginAlign seq qv a = Some (ret, out, a')
    /\ (ret = 1 <->
          QKey.cacheable qk = true /\ is_Some (AlignmentCache.query qk cur))
    /\ (ret = 1 ->
          AlignmentCache.query qk cur = Some out
          /\ AlignmentCacheIface.session_is_reset a')
    /\ (ret = -1 <->
          handle.1 = false /\ AlignmentCacheIface.qv_ handle.2 = PNull)
    /\ (ret = -1 <->
          QKey.cacheable qk = true /\ AlignmentCache.query qk cur = None
          /\ (AlignmentCache.add qk (AlignmentCacheIface.cacheable_ a) cur).1.1
             = None)
    /\ (ret = -1 -> out = qv /\ AlignmentCacheIface.session_is_reset a')
    /\ (ret <> 1 -> ret <> -1 ->
          ret = 0 /\ out = qv
          /\ AlignmentCacheIface.aligning a' = true
          /\ AlignmentCacheIface.load (AlignmentCacheIface.qv_ a') a'
             = Some QVal.reset).
Proof.
  intros qk cur handle. subst handle.
  unfold AlignmentCacheIface.beginAlign, AlignmentCacheIface.beginAlign_handle.
  session_fields. fold qk. fold cur.
  destruct (QKey.cacheable qk) eqn:Hc.
  - destruct (AlignmentCache.query qk cur) as [v|] eqn:Hq.
    + (* hit *)
      session_fields. fold cur. unfold AlignmentCache.query in Hq. rewrite Hq.
      cbn [mbind option_bind].
      eexists 1, v, _. split; [reflexivity|].
      split; [split; [intros _; split; [reflexivity|eexists; reflexivity]|reflexivity]|].
      split; [intros _; split; [reflexivity|apply resetRead_resets]|].
      cbn [fst snd].
      split; [split; [discriminate|intros [? _]; discriminate]|].
      split; [split; [discriminate|intros (_ & ? & _); discriminate]|].
      split; [discriminate|]. intros Hne. destruct Hne. reflexivity.
    + destruct (AlignmentCache.add qk (AlignmentCacheIface.cacheable_ a) cur)
        as [[n added] cur'] eqn:Hadd.
      destruct n as [k|].
      * (* miss, node added *)
        apply add_handle in Hadd as [-> [w Hw]].
        session_fields. rewrite Hw. cbn [mbind option_bind].
        eexists 0, qv, _. split; [reflexivity|].
        split; [split; [discriminate|intros [_ [? ?]]; discriminate]|].
        split; [discriminate|]. cbn [fst snd].
        split; [split; [discriminate|intros [_ ?]; discriminate]|].
        split; [split; [discriminate|intros (_ & _ & ?); discriminate]|].
        split; [discriminate|]. intros _ _.
        split; [reflexivity|]. split; [reflexivity|]. split; [reflexivity|].
        cbn [AlignmentCacheIface.load AlignmentCacheIface.qv_
             AlignmentCacheIface.set_current AlignmentCacheIface.current_
             AlignmentCache.set_qmap AlignmentCache.qmap_].
        apply lookup_insert_eq.
      * (* miss, pool exhausted *)
        session_fields.
        eexists (-1), qv, _. split; [reflexivity|].
        split; [split; [discriminate|intros [_ [? ?]]; discriminate]|].
        split; [discriminate|]. cbn [fst snd].
        split; [split; [intros _; split; reflexivity|reflexivity]|].
        split; [split; [intros _; repeat split|reflexivity]|].
        split; [intros _; split; [reflexivity|apply resetRead_resets]|].
        intros _ Hne. destruct Hne. reflexivity.
  - (* not cacheable: the buffer *)
    session_fields. cbn [AlignmentCacheIface.store mbind option_bind].
    eexists 0, qv, _. split; [reflexivity|].
    split; [split; [discriminate|intros [? _]; discriminate]|].
    split; [discriminate|]. cbn [fst snd].
    split; [split; [discriminate|intros [_ ?]; discriminate]|].
    split; [split; [discriminate|intros (? & _); discriminate]|].
    split; [discriminate|]. intros _ _. repeat split.
Qed.

(** C9: for a sequence whose key is not cacheable, [beginAlign] returns 0
    whatever the pool: the handle is the buffer [qvbuf_], which is reset,
    and no tier is touched. *)
Theorem beginAlign_uncacheable seq qv (a : iface) :
  QKey.cacheable (QKey.of_string seq) = false ->
  exists a',
    AlignmentCacheIface.beginAlign seq qv a = Some (0, qv, a')
    /\ AlignmentCacheIface.qv_ a' = PBuf
    /\ AlignmentCacheIface.qvbuf_ a' = QVal.reset
    /\ AlignmentCacheIface.current_ a' = AlignmentCacheIface.current_ a
    /\ AlignmentCacheIface.local_ a' = AlignmentCacheIface.local_ a
    /\ AlignmentCacheIface.shared_ a' = AlignmentCacheIface.shared_ a.
Proof.
  intros Hc.
  unfold AlignmentCacheIface.beginAlign, AlignmentCacheIface.beginAlign_handle.
  session_fields. rewrite Hc. session_fields.
  cbn [AlignmentCacheIface.store mbind option_bind].
  eexists. split; [reflexivity|]. repeat split.
Qed.

(** *** The idle invariant *)

Lemma queryCopy_from_session qk qv src (a : iface) r a' :
  AlignmentCacheIface.queryCopy_from qk qv src a = Some (r, a') ->
  AlignmentCacheIface.qv_ a' = AlignmentCacheIface.qv_ a
  /\ AlignmentCacheIface.rangen_ a' = AlignmentCacheIface.rangen_ a
  /\ AlignmentCacheIface.eltsn_ a' = AlignmentCacheIface.eltsn_ a.
Proof.
  unfold AlignmentCacheIface.queryCopy_from.
  destruct (AlignmentCache.copy qk qv src (AlignmentCacheIface.current_ a))
    as [[[|] cur]|]; [| |discriminate]; intros [= _ <-]; repeat split.
Qed.

Lemma queryCopy_session qk (a : iface) r a' :
  AlignmentCacheIface.queryCopy qk a = Some (r, a') ->
  AlignmentCacheIface.qv_ a' = AlignmentCacheIface.qv_ a
  /\ AlignmentCacheIface.rangen_ a' = AlignmentCacheIface.rangen_ a
  /\ AlignmentCacheIface.eltsn_ a' = AlignmentCacheIface.eltsn_ a.
Proof.
  unfold AlignmentCacheIface.queryCopy.
  repeat match goal with
         | |- context [match ?x with _ => _ end] => destruct x eqn:?
         end;
    try (intros [= _ <-]; repeat split);
    try apply queryCopy_from_session.
Qed.

(** The calls that end a session leave the session reset. *)
Lemma beginAlign_ends seq qv (a : iface) ret out a' :
  AlignmentCacheIface.beginAlign seq qv a = Some (ret, out, a') ->
  (ret = 1 \/ ret = -1 -> exists b, a' = AlignmentCacheIface.resetRead b)
  /\ (ret <> 1 -> ret <> -1 -> AlignmentCacheIface.aligning a' = true).
Proof.
  unfold AlignmentCacheIface.beginAlign.
  destruct (AlignmentCacheIface.beginAlign_handle seq a) as [hit a1].
  destruct hit.
  - destruct (AlignmentCacheIface.load (AlignmentCacheIface.qv_ a1) a1) as [found|];
      [|discriminate].
    cbn [mbind option_bind]. intros [= <- <- <-].
    split; [intros _; eexists; reflexivity|]. intros Hne. destruct Hne. reflexivity.
  - destruct (AlignmentCacheIface.qv_ a1) as [|k|] eqn:Hp.
    + intros [= <- <- <-]. split; [intros _; eexists; reflexivity|].
      intros _ Hne. destruct Hne. reflexivity.
    + destruct (AlignmentCacheIface.store (PNode k) QVal.reset a1) as [a2|] eqn:Hst;
        [|discriminate].
      cbn [mbind option_bind]. intros [= <- <- <-].
      split; [intros [?|?]; discriminate|]. intros _ _.
      apply store_session in Hst as (Hqv & _). unfold AlignmentCacheIface.aligning.
      rewrite Hqv, Hp. reflexivity.
    + destruct (AlignmentCacheIface.store PBuf QVal.reset a1) as [a2|] eqn:Hst;
        [|discriminate].
      cbn [mbind option_bind]. intros [= <- <- <-].
      split; [intros [?|?]; discriminate|]. intros _ _.
      apply store_session in Hst as (Hqv & _). unfold AlignmentCacheIface.aligning.
      rewrite Hqv, Hp. reflexivity.
Qed.

Lemma finishAlign_ends (a : iface) v a' log :
  AlignmentCacheIface.finishAlign a = Some (v, a', log) ->
  exists b, a' = AlignmentCacheIface.resetRead b.
Proof.
  unfold AlignmentCacheIface.finishAlign. intros Hrun.
  destruct (AlignmentCacheIface.load (AlignmentCacheIface.qv_ a) a) as [v0|];
    [|discriminate]. cbn [mbind option_bind] in Hrun.
  match type of Hrun with
  | context [(if QVal.valid v0 then Some a else ?st) ≫= _] =>
      destruct (if QVal.valid v0 then Some a else st) as [a1|]; [|discriminate]
  end.
  cbn [mbind option_bind] in Hrun.
  match type of Hrun with
  | (?promo ≫= _) = _ => destruct promo as [r|]; [|discriminate]
  end.
  cbn [mbind option_bind] in Hrun.
  match type of Hrun with
  | (?ld ≫= _) = _ => destruct ld as [ret|]; [|discriminate]
  end.
  cbn [mbind option_bind] in Hrun. injection Hrun as _ <- _.
  eexists; reflexivity.
Qed.

Lemma nextRead_ends (a : iface) :
  exists b, AlignmentCacheIface.nextRead a = AlignmentCacheIface.resetRead b.
Proof. eexists; reflexivity. Qed.

Lemma resetRead_idle_zero (b : iface) :
  AlignmentCacheIface.idle_zero (AlignmentCacheIface.resetRead b).
Proof. intros _. split; reflexivity. Qed.

Lemma aligning_idle_zero (a : iface) :
  AlignmentCacheIface.aligning a = true -> AlignmentCacheIface.idle_zero a.
Proof. intros Hon Hoff. congruence. Qed.

Lemma addOnTheFly_aligning rfseq topf botf (a : iface) ok a' :
  AlignmentCacheIface.addOnTheFly rfseq topf botf a = Some (ok, a') ->
  AlignmentCacheIface.aligning a' = true.
Proof.
  unfold AlignmentCacheIface.addOnTheFly.
  destruct (AlignmentCacheIface.qv_ a) as [|k|] eqn:Hp;
    [cbn [AlignmentCacheIface.load mbind option_bind]; discriminate| |].
  all: destruct (AlignmentCacheIface.load _ a) as [v|]; [|discriminate];
    cbn [mbind option_bind];
    destruct (AlignmentCache.addOnTheFly v _ topf botf _) as [[ok1 v1] cur];
    match goal with
    | |- context [AlignmentCacheIface.store ?p ?w ?b] =>
        destruct (AlignmentCacheIface.store p w b) as [a2|] eqn:Hst; [|discriminate]
    end;
    cbn [mbind option_bind];
    apply store_session in Hst as (Hqv & _);
    destruct ok1; intros [= _ <-]; unfold AlignmentCacheIface.aligning;
    session_fields; rewrite Hqv, Hp; reflexivity.
Qed.

Lemma step_idle_zero op (a a' : iface) :
  AlignmentCacheIface.idle_zero a ->
  AlignmentCacheIface.step op a = Some a' ->
  AlignmentCacheIface.idle_zero a'.
Proof.
  intros Hinv. destruct op; cbn [AlignmentCacheIface.step]; intros Hstep;
    try (injection Hstep as <-; exact Hinv).
  - destruct (AlignmentCacheIface.queryCopy qk a) as [[r a1]|] eqn:Hq; [|discriminate].
    injection Hstep as <-. apply queryCopy_session in Hq as (Hqv & Hr & He).
    unfold AlignmentCacheIface.idle_zero, AlignmentCacheIface.aligning in *.
    cbn [snd]. rewrite Hqv, Hr, He. exact Hinv.
  - destruct (AlignmentCacheIface.beginAlign seq qv a) as [[[ret out] a1]|] eqn:Hb;
      [|discriminate].
    injection Hstep as <-. apply beginAlign_ends in Hb as [Hend Hon]. cbn [snd].
    destruct (Z.eq_dec ret 1) as [H1|H1];
      [destruct Hend as [b ->]; [auto|apply resetRead_idle_zero]|].
    destruct (Z.eq_dec ret (-1)) as [H2|H2];
      [destruct Hend as [b ->]; [auto|apply resetRead_idle_zero]|].
    apply aligning_idle_zero. auto.
  - destruct (AlignmentCacheIface.finishAlign a) as [[[v a1] log]|] eqn:Hf;
      [|discriminate].
    injection Hstep as <-. apply finishAlign_ends in Hf as [b ->].
    apply resetRead_idle_zero.
  - injection Hstep as <-. apply resetRead_idle_zero.
  - destruct (AlignmentCacheIface.addOnTheFly rfseq topf botf a) as [[ok a1]|] eqn:Ha;
      [|discriminate].
    injection Hstep as <-. apply aligning_idle_zero.
    apply addOnTheFly_aligning in Ha. exact Ha.
  - destruct (AlignmentCacheIface.queryEx k satups a); [|discriminate].
    injection Hstep as <-. exact Hinv.
  - destruct (AlignmentCacheIface.queryQval qv satups a); [|discriminate].
    injection Hstep as <-. exact Hinv.
Qed.

(** C10: in every state the interface reaches, a session that is not live
    ([qv_] null, [aligning()] false) has both running counters at zero; and
    every path that ends a session, [beginAlign] returning 1 or -1,
    [finishAlign] and [nextRead], leaves the state [resetRead] produces:
    no handle, counters zero. *)
Theorem idle_session_has_zero_counts :
  (forall a : iface,
     AlignmentCacheIface.reachable a -> AlignmentCacheIface.idle_zero a)
  /\ (forall seq qv (a : iface) ret out a',
        AlignmentCacheIface.beginAlign seq qv a = Some (ret, out, a') ->
        ret = 1 \/ ret = -1 ->
        (exists b, a' = AlignmentCacheIface.resetRead b)
        /\ AlignmentCacheIface.session_is_reset a')
  /\ (forall (a : iface) v a' log,
        AlignmentCacheIface.finishAlign a = Some (v, a', log) ->
        (exists b, a' = AlignmentCacheIface.resetRead b)
        /\ AlignmentCacheIface.session_is_reset a')
  /\ (forall a : iface,
        (exists b, AlignmentCacheIface.nextRead a = AlignmentCacheIface.resetRead b)
        /\ AlignmentCacheIface.session_is_reset (AlignmentCacheIface.nextRead a)).
Proof.
  split; [|split; [|split]].
  - induction 1 as [current local shared|op a a' _ IH Hstep].
    + intros _. split; reflexivity.
    + eapply step_idle_zero; eassumption.
  - intros seq qv a ret out a' Hrun Hret.
    apply beginAlign_ends in Hrun as [Hend _]. destruct (Hend Hret) as [b ->].
    split; [eexists; reflexivity|apply resetRead_resets].
  - intros a v a' log Hrun. apply finishAlign_ends in Hrun as [b ->].
    split; [eexists; reflexivity|apply resetRead_resets].
  - intros a. split; [apply nextRead_ends|apply resetRead_resets].
Qed.

(** *** finishAlign *)

(** Step 1 of [finishAlign]: an invalid payload becomes [(0, 0, 0)]; the
    rest of the interface, and what [repOk] reads, stay as they are. *)
Lemma finishAlign_init (a : iface) v :
  AlignmentCacheIface.load (AlignmentCacheIface.qv_ a) a = Some v ->
  let v' := if QVal.valid v then v else QVal.init 0 0 0 in
  exists a1,
    (if QVal.valid v then Some a
     else AlignmentCacheIface.store (AlignmentCacheIface.qv_ a) (QVal.init 0 0 0) a)
    = Some a1
    /\ AlignmentCacheIface.qv_ a1 = AlignmentCacheIface.qv_ a
    /\ AlignmentCacheIface.qk_ a1 = AlignmentCacheIface.qk_ a
    /\ AlignmentCacheIface.local_ a1 = AlignmentCacheIface.local_ a
    /\ AlignmentCacheIface.shared_ a1 = AlignmentCacheIface.shared_ a
    /\ AlignmentCacheIface.load (AlignmentCacheIface.qv_ a) a1 = Some v'
    /\ (forall q, AlignmentCache.qval_repOk q (AlignmentCacheIface.current_ a1)
                  = AlignmentCache.qval_repOk q (AlignmentCacheIface.current_ a)).
Proof.
  intros Hload v'. subst v'. destruct (QVal.valid v).
  - exists a. repeat split. exact Hload.
  - destruct (AlignmentCacheIface.qv_ a) as [|k|] eqn:Hp; session_fields.
    + discriminate.
    + rewrite Hload. eexists. split; [reflexivity|]. session_fields.
      repeat split; try exact Hp; try apply lookup_insert_eq.
      intros q. apply qval_repOk_set_qmap.
    + eexists. split; [reflexivity|]. session_fields.
      repeat split; try exact Hp.
Qed.

Lemma load_after_reset p (a : iface) :
  AlignmentCacheIface.load p (AlignmentCacheIface.resetRead a)
  = AlignmentCacheIface.load p a.
Proof. destruct p; reflexivity. Qed.

(** C6 (amended): with a live session, whose payload is consistent with
    the current tier as [copy] asserts, [finishAlign] first initialises
    the session payload to [(0, 0, 0)] if it is invalid; then, when the
    session key is cacheable, it calls [clearCopy] on at most one
    across-read tier: on the first non-null of local then shared when
    there is one, and on no tier when both are null; finally it resets the
    session and returns a copy of the final payload.  [log] lists the
    tiers [clearCopy] was called on. *)
Theorem finishAlign_promotes_once (a : iface) v :
  AlignmentCacheIface.load (AlignmentCacheIface.qv_ a) a = Some v ->
  (QKey.cacheable (AlignmentCacheIface.qk_ a) = true ->
   QVal.valid v = true ->
   AlignmentCache.qval_repOk v (AlignmentCacheIface.current_ a) = true) ->
  let v' := if QVal.valid v then v else QVal.init 0 0 0 in
  let qk := AlignmentCacheIface.qk_ a in
  exists a1 a' log,
    (if QVal.valid v then a1 = a
     else AlignmentCacheIface.store (AlignmentCacheIface.qv_ a) (QVal.init 0 0 0) a
          = Some a1)
    /\ AlignmentCacheIface.load (AlignmentCacheIface.qv_ a) a1 = Some v'
    /\ AlignmentCacheIface.finishAlign a = Some (v', a', log)
    /\ AlignmentCacheIface.session_is_reset a'
    /\ AlignmentCacheIface.current_ a' = AlignmentCacheIface.current_ a1
    /\ (QKey.cacheable qk = false ->
          log = []
          /\ AlignmentCacheIface.local_ a' = AlignmentCacheIface.local_ a
          /\ AlignmentCacheIface.shared_ a' = AlignmentCacheIface.shared_ a)
    /\ (QKey.cacheable qk = true ->
          match AlignmentCacheIface.local_ a, AlignmentCacheIface.shared_ a with
          | Some l, _ =>
              log = [Local]
              /\ AlignmentCacheIface.shared_ a' = AlignmentCacheIface.shared_ a
              /\ exists cleared l',
                   AlignmentCache.clearCopy qk v' (AlignmentCacheIface.current_ a1) l
                   = Some (cleared, l')
                   /\ AlignmentCacheIface.local_ a' = Some l'
          | None, Some s =>
              log = [Shared]
              /\ AlignmentCacheIface.local_ a' = None
              /\ exists cleared s',
                   AlignmentCache.clearCopy qk v' (AlignmentCacheIface.current_ a1) s
                   = Some (cleared, s')
                   /\ AlignmentCacheIface.shared_ a' = Some s'
          | None, None =>
              log = []
              /\ AlignmentCacheIface.local_ a' = None
              /\ AlignmentCacheIface.shared_ a' = None
          end).
Proof.
  intros Hload Hrep v' qk.
  destruct (finishAlign_init a v Hload)
    as (a1 & Hinit & Hqv & Hqk & Hloc & Hsh & Hload1 & Hrep1).
  fold v' in Hload1.
  assert (QKey.cacheable qk = true ->
          AlignmentCache.qval_repOk v' (AlignmentCacheIface.current_ a1) = true)
    as Hok.
  { intros Hc. rewrite Hrep1. subst v'.
    destruct (QVal.valid v) eqn:Hv; [apply Hrep; [exact Hc|reflexivity]|reflexivity]. }
  exists a1. unfold AlignmentCacheIface.finishAlign. rewrite Hload.
  cbn [mbind option_bind]. rewrite Hinit. cbn [mbind option_bind].
  rewrite Hqk, Hqv, Hload1, Hloc, Hsh. fold qk. cbn [mbind option_bind].
  assert (if QVal.valid v then a1 = a
          else AlignmentCacheIface.store (AlignmentCacheIface.qv_ a) (QVal.init 0 0 0) a
               = Some a1) as Hstep1.
  { destruct (QVal.valid v); [congruence|exact Hinit]. }
  destruct (QKey.cacheable qk) eqn:Hc.
  - destruct (AlignmentCacheIface.local_ a) as [l|] eqn:Hl.
    + destruct (clearCopy_defined qk v' (AlignmentCacheIface.current_ a1) l (Hok eq_refl))
        as [[cleared l'] Hcc].
      rewrite Hcc. cbn [mbind option_bind snd fst].
      rewrite load_after_reset.
      assert (AlignmentCacheIface.load (AlignmentCacheIface.qv_ a)
                (AlignmentCacheIface.set_local (Some l') a1) = Some v') as ->.
      { rewrite <- Hload1. destruct (AlignmentCacheIface.qv_ a); reflexivity. }
      cbn [mbind option_bind]. eexists _, _. split; [exact Hstep1|].
      split; [reflexivity|]. split; [reflexivity|].
      split; [apply resetRead_resets|]. split; [reflexivity|].
      split; [discriminate|]. intros _. split; [reflexivity|].
      split; [exact Hsh|]. exists cleared, l'. split; reflexivity.
    + destruct (AlignmentCacheIface.shared_ a) as [s|] eqn:Hs.
      * destruct (clearCopy_defined qk v' (AlignmentCacheIface.current_ a1) s (Hok eq_refl))
          as [[cleared s'] Hcc].
        rewrite Hcc. cbn [mbind option_bind snd fst].
        rewrite load_after_reset.
        assert (AlignmentCacheIface.load (AlignmentCacheIface.qv_ a)
                  (AlignmentCacheIface.set_shared (Some s') a1) = Some v') as ->.
        { rewrite <- Hload1. destruct (AlignmentCacheIface.qv_ a); reflexivity. }
        cbn [mbind option_bind]. eexists _, _. split; [exact Hstep1|].
        split; [reflexivity|]. split; [reflexivity|].
        split; [apply resetRead_resets|]. split; [reflexivity|].
        split; [discriminate|]. intros _. split; [reflexivity|].
        split; [exact Hloc|]. exists cleared, s'. split; reflexivity.
      * cbn [mbind option_bind snd fst]. rewrite load_after_reset, Hload1.
        cbn [mbind option_bind]. eexists _, _. split; [exact Hstep1|].
        split; [reflexivity|]. split; [reflexivity|].
        split; [apply resetRead_resets|]. split; [reflexivity|].
        split; [discriminate|]. intros _. repeat split; assumption.
  - cbn [mbind option_bind snd fst]. rewrite load_after_reset, Hload1.
    cbn [mbind option_bind]. eexists _, _. split; [exact Hstep1|].
    split; [reflexivity|]. split; [reflexivity|].
    split; [apply resetRead_resets|]. split; [reflexivity|].
    split; [|discriminate]. intros _. repeat split; assumption.
Qed.

End IfaceFacts.


(** *** The scenarios of the spec on the model *)

(** The session of scenario S4 runs as the spec says: a miss, two ranges
    tallied, the payload [(0, 2, 5)] returned, and then a hit. *)
Example session_S4 :
  exists a a',
    AlignmentCacheIface.run calls_ACGT idle_iface = Some a
    /\ a = session_alone
    /\ AlignmentCacheIface.finishAlign a = Some (QVal.mk 0 2 5, a', [])
    /\ (AlignmentCacheIface.beginAlign [base_A; base_C; base_G; base_T] QVal.reset a'
        ≫= fun r => Some (r.1.1, r.1.2))
       = Some (1, QVal.mk 0 2 5).
Proof.
  eexists _, _. split; [vm_compute; reflexivity|].
  split; [vm_compute; reflexivity|].
  split; [vm_compute; reflexivity|]. vm_compute. reflexivity.
Qed.

(** With a local tier the same session is promoted to it (scenario S5):
    afterwards the local tier answers the query. *)
Example session_S5 :
  exists a',
    AlignmentCacheIface.finishAlign session_local = Some (QVal.mk 0 2 5, a', [Local])
    /\ (AlignmentCacheIface.local_ a' ≫= AlignmentCache.query (QKey.mk 27 4))
       = Some (QVal.mk 0 2 5).
Proof. eexists. split; vm_compute; reflexivity. Qed.

(** Turnover on exhaustion (scenario S6): the local tier has room for
    the entry of "ACGT" only; promoting "TTTT" clears it, the version goes
    from 0 to 1, and afterwards it answers for "TTTT" and no longer for
    "ACGT". *)
Example session_S6 :
  (a ← AlignmentCacheIface.run calls_turnover
         (AlignmentCacheIface.create fresh_tier (Some small_tier) None);
   l ← AlignmentCacheIface.local_ a;
   Some (AlignmentCache.version l,
         AlignmentCache.query (QKey.mk 27 4) l,
         AlignmentCache.query (QKey.mk 255 4) l))
  = Some (1, None, Some (QVal.mk 0 1 2)).
Proof. vm_compute. reflexivity. Qed.

(** Over a pool without room a cacheable read runs out of memory, and
    the read "ACNG" of scenario S3, which is not cacheable, still starts a
    session. *)
Example beginAlign_out_of_memory :
  (AlignmentCacheIface.beginAlign [base_A; base_C; base_G; base_T] QVal.reset
     starved_iface ≫= fun r => Some r.1.1)
  = Some (-1).
Proof. vm_compute. reflexivity. Qed.

Lemma beginAlign_uncacheable_witness :
  QKey.cacheable (QKey.of_string [base_A; base_C; base_N; base_G]) = false
  /\ exists a',
       AlignmentCacheIface.beginAlign [base_A; base_C; base_N; base_G] QVal.reset
         starved_iface
       = Some (0, QVal.reset, a')
       /\ AlignmentCacheIface.qv_ a' = PBuf
       /\ AlignmentCacheIface.qvbuf_ a' = QVal.reset
       /\ AlignmentCacheIface.current_ a' = AlignmentCacheIface.current_ starved_iface
       /\ AlignmentCacheIface.local_ a' = AlignmentCacheIface.local_ starved_iface
       /\ AlignmentCacheIface.shared_ a' = AlignmentCacheIface.shared_ starved_iface.
Proof.
  split; [vm_compute; reflexivity|].
  apply (beginAlign_uncacheable [base_A; base_C; base_N; base_G] QVal.reset starved_iface).
  vm_compute. reflexivity.
Defined.

Lemma finishAlign_promotes_once_witness :
  let a := session_local in
  let v := QVal.mk 0 2 5 in
  let v' := if QVal.valid v then v else QVal.init 0 0 0 in
  let qk := AlignmentCacheIface.qk_ a in
  exists a1 a' log,
    (if QVal.valid v then a1 = a
     else AlignmentCacheIface.store (AlignmentCacheIface.qv_ a) (QVal.init 0 0 0) a
          = Some a1)
    /\ AlignmentCacheIface.load (AlignmentCacheIface.qv_ a) a1 = Some v'
    /\ AlignmentCacheIface.finishAlign a = Some (v', a', log)
    /\ AlignmentCacheIface.session_is_reset a'
    /\ AlignmentCacheIface.current_ a' = AlignmentCacheIface.current_ a1
    /\ (QKey.cacheable qk = false ->
          log = []
          /\ AlignmentCacheIface.local_ a' = AlignmentCacheIface.local_ a
          /\ AlignmentCacheIface.shared_ a' = AlignmentCacheIface.shared_ a)
    /\ (QKey.cacheable qk = true ->
          match AlignmentCacheIface.local_ a, AlignmentCacheIface.shared_ a with
          | Some l, _ =>
              log = [Local]
              /\ AlignmentCacheIface.shared_ a' = AlignmentCacheIface.shared_ a
              /\ exists cleared l',
                   AlignmentCache.clearCopy qk v' (AlignmentCacheIface.current_ a1) l
                   = Some (cleared, l')
                   /\ AlignmentCacheIface.local_ a' = Some l'
          | None, Some s =>
              log = [Shared]
              /\ AlignmentCacheIface.local_ a' = None
              /\ exists cleared s',
                   AlignmentCache.clearCopy qk v' (AlignmentCacheIface.current_ a1) s
                   = Some (cleared, s')
                   /\ AlignmentCacheIface.shared_ a' = Some s'
          | None, None =>
              log = []
              /\ AlignmentCacheIface.local_ a' = None
              /\ AlignmentCacheIface.shared_ a' = None
          end).
Proof.
  apply (finishAlign_promotes_once session_local (QVal.mk 0 2 5)).
  - vm_compute. reflexivity.
  - intros _ _. vm_compute. reflexivity.
Defined.

(** C6 as stated fails when both across-read tiers are null, the setting
    of scenario S4: the key is cacheable and [clearCopy] is called on no
    tier. *)
Lemma finishAlign_without_across_read_tier :
  QKey.cacheable (AlignmentCacheIface.qk_ session_alone) = true
  /\ AlignmentCacheIface.local_ session_alone = None
  /\ AlignmentCacheIface.shared_ session_alone = None
  /\ exists a',
       AlignmentCacheIface.finishAlign session_alone = Some (QVal.mk 0 2 5, a', []).
Proof.
  split; [vm_compute; reflexivity|]. split; [vm_compute; reflexivity|]. split; [vm_compute; reflexivity|].
  eexists. vm_compute. reflexivity.
Qed.

(** * Further properties of the code *)

(** ** Keys *)

(** X3: The comparison operators of [QKey] make a strict total order on
    [(seq, len)]: [==] holds exactly for equal keys, [<] is irreflexive
    and transitive, exactly one of [<], [==], [>] holds of two keys, and
    [>] is [<] with the operands swapped. *)
Theorem key_order_total (a b c : QKey.t) :
  (QKey.eqb a b = true <-> a = b)
  /\ QKey.lt a a = false
  /\ (QKey.lt a b = true -> QKey.lt b c = true -> QKey.lt a c = true)
  /\ ((QKey.lt a b = true /\ QKey.eqb a b = false /\ QKey.gt a b = false)
      \/ (QKey.lt a b = false /\ QKey.eqb a b = true /\ QKey.gt a b = false)
      \/ (QKey.lt a b = false /\ QKey.eqb a b = false /\ QKey.gt a b = true))
  /\ QKey.gt a b = QKey.lt b a.
Proof.
  destruct a as [sa la], b as [sb lb], c as [sc lc].
  unfold QKey.gt, QKey.eqb, QKey.lt. cbn [QKey.seq QKey.len].
  repeat split.
  - intros Heq. apply andb_true_iff in Heq as [H1 H2].
    apply Z.eqb_eq in H1, H2. congruence.
  - intros [= -> ->]. rewrite !Z.eqb_refl. reflexivity.
  - rewrite !Z.ltb_irrefl, Z.eqb_refl. reflexivity.
  - destruct (Z.ltb_spec sa sb), (Z.eqb_spec sa sb), (Z.ltb_spec la lb),
      (Z.ltb_spec sb sc), (Z.eqb_spec sb sc), (Z.ltb_spec lb lc),
      (Z.ltb_spec sa sc), (Z.eqb_spec sa sc), (Z.ltb_spec la lc);
      cbn; intros; first [reflexivity | congruence | lia].
  - destruct (Z.ltb_spec sa sb), (Z.eqb_spec sa sb), (Z.ltb_spec la lb),
      (Z.eqb_spec la lb); cbn;
      first [ lia
            | left; repeat split; reflexivity
            | right; left; repeat split; reflexivity
            | right; right; repeat split; reflexivity ].
  - destruct (Z.ltb_spec sa sb), (Z.eqb_spec sa sb), (Z.ltb_spec la lb),
      (Z.eqb_spec la lb), (Z.ltb_spec sb sa), (Z.eqb_spec sb sa),
      (Z.ltb_spec lb la); cbn; first [reflexivity | lia].
Qed.

(** The loop of [init] never makes a key cacheable that was not, and
    leaves the length alone unless it meets an N. *)
Lemma init_loop_flag rest : forall i k,
  QKey.len k <> SENTINEL ->
  (QKey.init_loop rest i k).2 = QKey.cacheable (QKey.init_loop rest i k).1
  /\ ((QKey.init_loop rest i k).2 = true ->
      QKey.len (QKey.init_loop rest i k).1 = QKey.len k).
Proof.
  induction rest as [|c rest IH]; intros i k Hk; cbn [QKey.init_loop].
  - cbn [fst snd]. unfold QKey.cacheable.
    split; [|reflexivity]. symmetry. apply negb_true_iff, Z.eqb_neq. exact Hk.
  - destruct (32 <=? i).
    + cbn [fst snd]. unfold QKey.cacheable.
      split; [|reflexivity]. symmetry. apply negb_true_iff, Z.eqb_neq. exact Hk.
    + destruct (c =? 4).
      * cbn [fst snd]. split; [reflexivity|discriminate].
      * apply (IH (i + 1) {| QKey.seq := _; QKey.len := QKey.len k |}). exact Hk.
Qed.

(** X4: What [init] returns is what [cacheable()] then says of the key, for
    every string; and a key that is cacheable holds the length of the
    string modulo 2^32, which is at most 32. *)
Theorem init_flag_is_cacheable (s : BTDnaString) :
  (QKey.init s).2 = QKey.cacheable (QKey.init s).1
  /\ (QKey.cacheable (QKey.init s).1 = true ->
      QKey.len (QKey.init s).1 = u32 (str_length s)
      /\ 0 <= QKey.len (QKey.init s).1 <= 32).
Proof.
  unfold QKey.init. pose proof (u32_range (str_length s)) as Hr.
  destruct (32 <? u32 (str_length s)) eqn:E.
  - cbn [fst snd]. split; [reflexivity|discriminate].
  - apply Z.ltb_ge in E.
    destruct (init_loop_flag s 0 {| QKey.seq := 0; QKey.len := u32 (str_length s) |})
      as [Hflag Hlen].
    { cbn [QKey.len]. unfold SENTINEL. lia. }
    split; [exact Hflag|]. intros Hc. rewrite <- Hflag in Hc.
    rewrite (Hlen Hc). cbn [QKey.len]. split; [reflexivity|lia].
Qed.

(** X5: Two different reads over {A,C,G,T} of at most 32 bases never get the
    same key. *)
Theorem init_injective (s1 s2 : BTDnaString) :
  is_acgt s1 -> str_length s1 <= 32 ->
  is_acgt s2 -> str_length s2 <= 32 ->
  s1 <> s2 ->
  QKey.of_string s1 <> QKey.of_string s2.
Proof.
  intros H1 L1 H2 L2 Hne Heq. apply Hne.
  rewrite <- (toString_base4 s1 [] H1 L1), <- (toString_base4 s2 [] H2 L2).
  unfold QKey.of_string in Heq. rewrite !init_acgt in Heq by assumption.
  cbn [fst] in Heq. rewrite Heq. reflexivity.
Qed.

Lemma init_injective_witness :
  QKey.of_string [base_A; base_C; base_G; base_T]
  <> QKey.of_string [base_A; base_C; base_G; base_A]
  /\ QKey.of_string [base_A; base_C; base_G; base_T]
     <> QKey.of_string [base_A; base_C; base_G].
Proof.
  split.
  - apply (init_injective [base_A; base_C; base_G; base_T] [base_A; base_C; base_G; base_A]).
    + repeat constructor; unfold base_A, base_C, base_G, base_T; lia.
    + vm_compute. discriminate.
    + repeat constructor; unfold base_A, base_C, base_G, base_T; lia.
    + vm_compute. discriminate.
    + discriminate.
  - apply (init_injective [base_A; base_C; base_G; base_T] [base_A; base_C; base_G]).
    + repeat constructor; unfold base_A, base_C, base_G, base_T; lia.
    + vm_compute. discriminate.
    + repeat constructor; unfold base_A, base_C, base_G, base_T; lia.
    + vm_compute. discriminate.
    + discriminate.
Defined.

Lemma init_roundtrip_witness :
  QKey.toString (QKey.of_string [base_G; base_A; base_T; base_T; base_A])
    [base_N; base_N] = [base_G; base_A; base_T; base_T; base_A]
  /\ QKey.cacheable (QKey.of_string [base_G; base_A; base_T; base_T; base_A]) = true.
Proof.
  apply (init_roundtrip [base_G; base_A; base_T; base_T; base_A] [base_N; base_N]).
  - repeat constructor; unfold base_A, base_G, base_T; lia.
  - vm_compute. discriminate.
Defined.

Lemma init_uncacheable_witness :
  QKey.cacheable (QKey.of_string [base_A; base_C; base_N; base_G]) = false
  /\ QKey.cacheable (QKey.of_string (replicate 33 base_A)) = false.
Proof.
  split.
  - apply (init_uncacheable [base_A; base_C; base_N; base_G]).
    + vm_compute. reflexivity.
    + left. unfold base_N. set_solver.
  - apply (init_uncacheable (replicate 33 base_A)).
    + vm_compute. reflexivity.
    + right. vm_compute. reflexivity.
Defined.

(** Every number below [4^n] is the base-4 value of a string of [n]
    bases. *)
Lemma base4_digits n : forall sq,
  0 <= sq < 4 ^ Z.of_nat n ->
  exists s, is_acgt s /\ length s = n /\ base4 s = sq.
Proof.
  induction n as [|n IH]; intros sq Hsq.
  - exists []. cbn in *. repeat split; [constructor|lia].
  - rewrite Nat2Z.inj_succ, Z.pow_succ_r in Hsq by lia.
    destruct (IH (sq / 4)) as (s & Hs & Hlen & Hval).
    { split; [apply Z.div_pos; lia|apply Z.div_lt_upper_bound; lia]. }
    pose proof (Z.mod_pos_bound sq 4 ltac:(lia)) as Hm.
    exists (s ++ [sq mod 4]). split; [|split].
    + apply Forall_app. split; [exact Hs|]. repeat constructor; lia.
    + rewrite length_app. cbn. lia.
    + rewrite base4_snoc, Hval. symmetry. apply Z.div_mod. lia.
Qed.

(** X6: Decoding then encoding: for a key of at most 32 bases whose [seq] is
    below [4^len], [toString] yields a string over {A,C,G,T} of [len] bases
    from which [init] builds the same key, whatever the buffer held. *)
Theorem toString_init_roundtrip (k : QKey.t) (buf : BTDnaString) :
  0 <= QKey.len k <= 32 ->
  0 <= QKey.seq k < 4 ^ QKey.len k ->
  is_acgt (QKey.toString k buf)
  /\ str_length (QKey.toString k buf) = QKey.len k
  /\ QKey.init (QKey.toString k buf) = (k, true).
Proof.
  intros Hlen Hseq. destruct k as [sq l]. cbn [QKey.seq QKey.len] in *.
  destruct (base4_digits (Z.to_nat l) sq) as (s & Hs & Hl & Hval).
  { rewrite Z2Nat.id by lia. exact Hseq. }
  assert (str_length s = l) as Hsl by (unfold str_length; lia).
  subst sq. rewrite <- Hsl in *. rewrite toString_base4 by (assumption || lia).
  split; [exact Hs|]. split; [reflexivity|]. apply init_acgt; [exact Hs|lia].
Qed.

Lemma toString_init_roundtrip_witness :
  is_acgt (QKey.toString (QKey.mk 27 4) [base_N])
  /\ str_length (QKey.toString (QKey.mk 27 4) [base_N]) = 4
  /\ QKey.init (QKey.toString (QKey.mk 27 4) [base_N]) = (QKey.mk 27 4, true).
Proof.
  apply (toString_init_roundtrip (QKey.mk 27 4) [base_N]); cbn; lia.
Defined.

(** ** Random narrowing: what is appended *)

Lemma u64_bounds z : 0 <= u64 z < 2 ^ 64.
Proof. unfold u64, wrap. apply Z.mod_pos_bound. lia. Qed.

Section NarrowSub.
Variables (maxrows off : Z) (src : list SATuple.t).
Hypothesis Hmax : 0 <= maxrows /\ maxrows + 2 ^ 32 <= 2 ^ 64.
Hypothesis Hoff : 0 <= off < 2 ^ 32.

Lemma narrow_step_subrange x st :
  before_off off st ->
  0 <= sz x < 2 ^ 64 ->
  exists app,
    SATuple.dst (SATuple.narrow_step maxrows off x st).1 = SATuple.dst st ++ app
    /\ Forall (subrange x) app
    /\ before_off off (SATuple.narrow_step maxrows off x st).1.
Proof.
  intros Hinv Hx. unfold SATuple.narrow_step.
  destruct (SATuple.on st) eqn:Hon; cbn [negb].
  - (* sampling has started *)
    set (last := u64 (maxrows - SATuple.totrowsSampled st)).
    set (last' := if sz x <? last then sz x else last).
    assert (0 <= last' <= sz x) as Hl.
    { pose proof (u64_bounds (maxrows - SATuple.totrowsSampled st)) as Hn.
      fold last in Hn. subst last'. destruct (Z.ltb_spec (sz x) last); lia. }
    exists [SATuple.init_sub x 0 last'].
    match goal with
    | |- context [if ?b then _ else _] => destruct b
    end; cbn [fst SATuple.dst SATuple.on];
      (split; [reflexivity|]; split;
       [repeat constructor; exists 0, last'; repeat split; lia
       |intros Hoff'; discriminate]).
  - destruct (off <? u64 (SATuple.totrows st + sz x)) eqn:E.
    + (* sampling starts at [x] *)
      apply Z.ltb_lt in E. pose proof (Hinv Hon) as Hb.
      pose proof (Z.mod_le (SATuple.totrows st + sz x) (2 ^ 64) ltac:(lia) ltac:(lia)) as Hle.
      fold (wrap 64 (SATuple.totrows st + sz x)) in Hle.
      fold (u64 (SATuple.totrows st + sz x)) in Hle.
      rewrite (u64_small (off - SATuple.totrows st)) by lia.
      set (first := off - SATuple.totrows st).
      rewrite (u64_small (first + maxrows)) by (subst first; lia).
      set (last' := if sz x <? first + maxrows then sz x else first + maxrows).
      assert (first <= last' <= sz x) as Hl.
      { subst last'. destruct (Z.ltb_spec (sz x) (first + maxrows)); subst first; lia. }
      exists [SATuple.init_sub x first last'].
      match goal with
      | |- context [if ?b then _ else _] => destruct b
      end; cbn [fst SATuple.dst SATuple.on];
        (split; [reflexivity|]; split;
         [repeat constructor; exists first, last'; subst first; repeat split; lia
         |intros Hoff'; discriminate]).
    + (* [x] lies before row [off] *)
      apply Z.ltb_ge in E. exists [].
      cbn [SATuple.totrowsSampled SATuple.on SATuple.totrows SATuple.dst].
      match goal with
      | |- context [if ?b then _ else _] => destruct b
      end; cbn [fst SATuple.dst SATuple.on SATuple.totrows];
        (split; [rewrite app_nil_r; reflexivity|]; split; [constructor|]);
        intros _.
      * apply Hinv. exact Hon.
      * pose proof (u64_bounds (SATuple.totrows st + sz x)). cbn [SATuple.totrows]. lia.
Qed.

Lemma narrow_inner_subrange l : forall st,
  before_off off st ->
  sizes_ok l ->
  l ⊆ src ->
  exists app,
    SATuple.dst (SATuple.narrow_inner maxrows off l st).1 = SATuple.dst st ++ app
    /\ Forall (fun t => exists x, x ∈ src /\ subrange x t) app
    /\ before_off off (SATuple.narrow_inner maxrows off l st).1.
Proof.
  induction l as [|x l IH]; intros st Hinv Hl Hsub; cbn [SATuple.narrow_inner].
  - exists []. rewrite app_nil_r. split; [reflexivity|].
    split; [apply Forall_nil_2|exact Hinv].
  - apply Forall_cons in Hl as [Hx Hl].
    destruct (narrow_step_subrange x st Hinv Hx) as (app1 & Hdst1 & Happ1 & Hinv1).
    destruct (SATuple.narrow_step maxrows off x st) as [st1 done]. cbn [fst] in *.
    assert (Forall (fun t => exists y, y ∈ src /\ subrange y t) app1) as Happ1'.
    { eapply Forall_impl; [exact Happ1|]. intros t Ht. exists x.
      split; [apply Hsub; left|exact Ht]. }
    destruct done.
    + exists app1. split; [exact Hdst1|]. split; assumption.
    + destruct (IH st1 Hinv1 Hl) as (app2 & Hdst2 & Happ2 & Hinv2).
      { intros y Hy. apply Hsub. right. exact Hy. }
      exists (app1 ++ app2). rewrite Hdst2, Hdst1, <- app_assoc.
      split; [reflexivity|]. split; [apply Forall_app; split; assumption|exact Hinv2].
Qed.

End NarrowSub.

(** X7: [randomNarrow] only appends to [dst], and what it appends are
    sub-ranges of source tuples: each appended tuple has the key of a
    tuple of [src], the rows [first .. last) of its slice with
    [0 <= first <= last <= size], and [top] moved on by [first].  When it
    returns false nothing is appended. *)
Theorem randomNarrow_appends_subranges (src dst0 : list SATuple.t) (rnd maxrows : Z) :
  sizes_ok src ->
  0 <= maxrows ->
  maxrows + 2 ^ 32 <= 2 ^ 64 ->
  exists app,
    (SATuple.randomNarrow src dst0 rnd maxrows).2 = dst0 ++ app
    /\ Forall (fun t => exists x, x ∈ src /\ subrange x t) app
    /\ ((SATuple.randomNarrow src dst0 rnd maxrows).1 = false -> app = []).
Proof.
  intros Hsrc Hmax0 Hmax. unfold SATuple.randomNarrow.
  destruct (SATuple.count_rows src <=? maxrows) eqn:E.
  - exists []. rewrite app_nil_r. split; [reflexivity|].
    split; [apply Forall_nil_2|reflexivity].
  - cbn [fst snd]. set (off := u32 (rnd mod SATuple.count_rows src)).
    pose proof (u32_range (rnd mod SATuple.count_rows src)) as Hoff. fold off in Hoff.
    cbn [SATuple.narrow_twice].
    set (st0 := SATuple.mkNarrow false 0 0 dst0).
    assert (before_off off st0) as Hinv0 by (intros _; cbn; lia).
    destruct (narrow_inner_subrange maxrows off src (conj Hmax0 Hmax) Hoff src st0 Hinv0 Hsrc)
      as (app1 & Hdst1 & Happ1 & Hinv1); [intros y Hy; exact Hy|].
    destruct (SATuple.narrow_inner maxrows off src st0) as [st1 done1]. cbn [fst] in *.
    destruct done1.
    + exists app1. split; [exact Hdst1|]. split; [exact Happ1|discriminate].
    + destruct (narrow_inner_subrange maxrows off src (conj Hmax0 Hmax) Hoff src st1 Hinv1 Hsrc)
        as (app2 & Hdst2 & Happ2 & _); [intros y Hy; exact Hy|].
      destruct (SATuple.narrow_inner maxrows off src st1) as [st2 done2]. cbn [fst] in *.
      exists (app1 ++ app2).
      assert (SATuple.dst st2 = dst0 ++ app1 ++ app2) as Hd
        by (rewrite Hdst2, Hdst1, <- app_assoc; reflexivity).
      destruct done2; (split; [exact Hd|]; split;
        [apply Forall_app; split; assumption|discriminate]).
Qed.

Lemma randomNarrow_appends_subranges_witness :
  exists app,
    (SATuple.randomNarrow two_tuples [tuple_of_rows 7] 4 3).2
    = [tuple_of_rows 7] ++ app
    /\ Forall (fun t => exists x, x ∈ two_tuples /\ subrange x t) app
    /\ ((SATuple.randomNarrow two_tuples [tuple_of_rows 7] 4 3).1 = false -> app = []).
Proof.
  apply (randomNarrow_appends_subranges two_tuples [tuple_of_rows 7] 4 3).
  - repeat constructor; cbn; lia.
  - lia.
  - lia.
Defined.

(** ** One tier: what the operations keep *)

Section TierKeeps.
Context `{PoolOps Pool}.

Abbreviation tier := (AlignmentCache.t Pool).

Lemma rb_add_cases {V : Type} ct (d : V) (p : Pool) (m : gmap QKey.t V) k a h a' p' m' :
  rb_add ct d p m k a = (h, a', p', m') ->
  (is_Some (m !! k) /\ h = Some k /\ a' = false /\ p' = p /\ m' = m)
  \/ (m !! k = None /\ pool_alloc ct p = Some p' /\ h = Some k /\ a' = true
      /\ m' = <[k := d]> m)
  \/ (m !! k = None /\ pool_alloc ct p = None /\ h = None /\ a' = a /\ p' = p
      /\ m' = m).
Proof.
  unfold rb_add. destruct (m !! k) as [v|] eqn:Hk.
  - intros [= <- <- <- <-]. left. repeat split. eexists; reflexivity.
  - destruct (pool_alloc ct p) as [p''|] eqn:Hp; intros [= <- <- <- <-].
    + right. left. repeat split.
    + right. right. repeat split.
Qed.

Lemma plist_add_cases {X : Type} ct (p : Pool) (l : list X) x ok p' l' :
  plist_add ct p l x = (ok, p', l') ->
  (ok = true /\ pool_alloc ct p = Some p' /\ l' = l ++ [x])
  \/ (ok = false /\ pool_alloc ct p = None /\ p' = p /\ l' = l).
Proof.
  unfold plist_add. destruct (pool_alloc ct p) as [p''|]; intros [= <- <- <-];
    [left|right]; repeat split.
Qed.

Lemma grows_refl (c : tier) : AlignmentCache.grows c c.
Proof. repeat split; reflexivity. Qed.

Lemma grows_trans (c1 c2 c3 : tier) :
  AlignmentCache.grows c1 c2 -> AlignmentCache.grows c2 c3 -> AlignmentCache.grows c1 c3.
Proof.
  intros (A1 & A2 & A3 & A4 & A5 & A6) (B1 & B2 & B3 & B4 & B5 & B6).
  repeat split; try (etrans; eassumption); congruence.
Qed.

Lemma grows_set_pool p (c : tier) : AlignmentCache.grows c (AlignmentCache.set_pool p c).
Proof. repeat split; reflexivity. Qed.

Lemma grows_append_salist x p (c : tier) :
  AlignmentCache.grows c
    (AlignmentCache.set_salist (AlignmentCache.salist_ c ++ [x]) (AlignmentCache.set_pool p c)).
Proof. repeat split; try reflexivity. apply prefix_app_r. reflexivity. Qed.

Lemma grows_append_qlist x p (c : tier) :
  AlignmentCache.grows c
    (AlignmentCache.set_qlist (AlignmentCache.qlist_ c ++ [x]) (AlignmentCache.set_pool p c)).
Proof. repeat split; try reflexivity. apply prefix_app_r. reflexivity. Qed.

Lemma grows_insert_samap k v (c : tier) :
  AlignmentCache.samap_ c !! k = None ->
  AlignmentCache.grows c (AlignmentCache.set_samap (<[k := v]> (AlignmentCache.samap_ c)) c).
Proof. intros Hk. repeat split; try reflexivity. apply insert_subseteq. exact Hk. Qed.

Lemma grows_insert_qmap k v (c : tier) :
  AlignmentCache.qmap_ c !! k = None ->
  AlignmentCache.grows c (AlignmentCache.set_qmap (<[k := v]> (AlignmentCache.qmap_ c)) c).
Proof. intros Hk. repeat split; try reflexivity. apply insert_subseteq. exact Hk. Qed.

Lemma copy_offs_grows n : forall j srci (src c : tier) ok c',
  AlignmentCache.copy_offs n j srci src c = Some (ok, c') ->
  AlignmentCache.grows c c'.
Proof.
  induction n as [|n IH]; intros j srci src c ok c' Hrun;
    cbn [AlignmentCache.copy_offs] in Hrun.
  - injection Hrun as _ <-. apply grows_refl.
  - destruct (plist_get (AlignmentCache.salist_ src) (u64 (srci + j))) as [x|];
      [|discriminate]. cbn [mbind option_bind] in Hrun.
    destruct (plist_add CSAList (AlignmentCache.pool_ c) (AlignmentCache.salist_ c) x)
      as [[ok1 p] l] eqn:Hadd.
    apply plist_add_cases in Hadd as [(-> & _ & ->)|(-> & _ & -> & ->)].
    + apply IH in Hrun. eapply grows_trans; [apply grows_append_salist|exact Hrun].
    + injection Hrun as _ <-. repeat split; reflexivity.
Qed.

Lemma copy_refs_grows n : forall i (src : tier) added (c : tier) ok c',
  AlignmentCache.copy_refs n i src added c = Some (ok, c') ->
  AlignmentCache.grows c c'.
Proof.
  induction n as [|n IH]; intros i src added0 c ok c' Hrun;
    cbn [AlignmentCache.copy_refs] in Hrun.
  - injection Hrun as _ <-. apply grows_refl.
  - destruct (plist_get (AlignmentCache.qlist_ src) i) as [sak|]; [|discriminate].
    cbn [mbind option_bind] in Hrun.
    destruct (plist_add CQList (AlignmentCache.pool_ c) (AlignmentCache.qlist_ c) sak)
      as [[ok1 p] l] eqn:Hadd.
    apply plist_add_cases in Hadd as [(-> & _ & ->)|(-> & _ & -> & ->)];
      cbn [negb] in Hrun; [|injection Hrun as _ <-; repeat split; reflexivity].
    eapply grows_trans; [apply (grows_append_qlist sak p)|].
    set (c1 := AlignmentCache.set_qlist _ _) in *.
    destruct (rb_add CSAMap SAVal.default (AlignmentCache.pool_ c1)
                (AlignmentCache.samap_ c1) sak added0)
      as [[[node added] p2] m2] eqn:Hrb.
    apply rb_add_cases in Hrb
      as [(_ & -> & -> & -> & ->)|[(Hnone & _ & -> & -> & ->)|(_ & _ & -> & -> & -> & ->)]].
    + cbn [negb] in Hrun. apply IH in Hrun.
      eapply grows_trans; [|exact Hrun]. repeat split; reflexivity.
    + cbn [negb] in Hrun.
      destruct (AlignmentCache.samap_ src !! sak) as [srcSa|]; [|discriminate].
      cbn [mbind option_bind] in Hrun.
      match type of Hrun with
      | context [AlignmentCache.copy_offs ?m ?j ?s ?sr ?c0] =>
          destruct (AlignmentCache.copy_offs m j s sr c0) as [[ok3 c3]|] eqn:Hoffs;
          [|discriminate];
          assert (AlignmentCache.grows c1 c0) as Hins
      end.
      { cbn [AlignmentCache.set_samap AlignmentCache.samap_ AlignmentCache.set_pool].
        repeat split; try reflexivity.
        cbn [AlignmentCache.samap_]. rewrite insert_insert_eq.
        apply insert_subseteq. exact Hnone. }
      apply copy_offs_grows in Hoffs.
      eapply grows_trans; [exact Hins|]. eapply grows_trans; [exact Hoffs|].
      destruct ok3; [apply IH in Hrun; exact Hrun|injection Hrun as _ <-; apply grows_refl].
    + destruct added0; cbn [negb] in Hrun.
      * injection Hrun as _ <-. repeat split; reflexivity.
      * apply IH in Hrun. eapply grows_trans; [|exact Hrun].
        repeat split; reflexivity.
Qed.


Lemma qmap_copy_offs n : forall j srci (src c : tier) ok c',
  AlignmentCache.copy_offs n j srci src c = Some (ok, c') ->
  AlignmentCache.qmap_ c' = AlignmentCache.qmap_ c.
Proof.
  induction n as [|n IH]; intros j srci src c ok c' Hrun; cbn [AlignmentCache.copy_offs] in Hrun.
  - injection Hrun as _ <-. reflexivity.
  - destruct (plist_get (AlignmentCache.salist_ src) (u64 (srci + j))) as [x|];
      [|discriminate]. cbn [mbind option_bind] in Hrun.
    destruct (plist_add CSAList (AlignmentCache.pool_ c) (AlignmentCache.salist_ c) x)
      as [[ok1 p] l]. destruct ok1.
    + apply IH in Hrun. exact Hrun.
    + injection Hrun as _ <-. reflexivity.
Qed.

Lemma qmap_copy_refs n : forall i (src : tier) added (c : tier) ok c',
  AlignmentCache.copy_refs n i src added c = Some (ok, c') ->
  AlignmentCache.qmap_ c' = AlignmentCache.qmap_ c.
Proof.
  induction n as [|n IH]; intros i src added0 c ok c' Hrun;
    cbn [AlignmentCache.copy_refs] in Hrun.
  - injection Hrun as _ <-. reflexivity.
  - destruct (plist_get (AlignmentCache.qlist_ src) i) as [sak|]; [|discriminate].
    cbn [mbind option_bind] in Hrun.
    destruct (plist_add CQList (AlignmentCache.pool_ c) (AlignmentCache.qlist_ c) sak)
      as [[ok1 p] l]. destruct ok1; cbn [negb] in Hrun;
      [|injection Hrun as _ <-; reflexivity].
    destruct (rb_add CSAMap SAVal.default _ _ sak _) as [[[node added] p2] m2].
    destruct added; cbn [negb] in Hrun; [|apply IH in Hrun; exact Hrun].
    destruct node as [node|]; [|injection Hrun as _ <-; reflexivity].
    destruct (AlignmentCache.samap_ src !! sak) as [srcSa|]; [|discriminate].
    cbn [mbind option_bind] in Hrun.
    destruct (AlignmentCache.copy_offs _ _ _ _ _) as [[ok3 c3]|] eqn:Hoffs;
      [|discriminate].
    apply qmap_copy_offs in Hoffs.
    destruct ok3.
    + apply IH in Hrun. rewrite Hrun, Hoffs. reflexivity.
    + injection Hrun as _ <-. rewrite Hoffs. reflexivity.
Qed.

Lemma copy_only_appends_aux qk qv (src c : tier) ok c' :
  AlignmentCache.copy qk qv src c = Some (ok, c') ->
  AlignmentCache.grows c c'
  /\ (forall k, k <> qk -> AlignmentCache.query k c' = AlignmentCache.query k c).
Proof.
  unfold AlignmentCache.copy, AlignmentCache.query. intros Hrun.
  destruct (rb_add CQMap QVal.reset (AlignmentCache.pool_ c) (AlignmentCache.qmap_ c) qk false)
    as [[[node added] p] m] eqn:Hrb.
  apply rb_add_cases in Hrb
    as [(_ & -> & -> & -> & ->)|[(Hnone & _ & -> & -> & ->)|(_ & _ & -> & -> & -> & ->)]];
    cbn [negb] in Hrun.
  - injection Hrun as _ <-. split; [repeat split; reflexivity|]. intros; reflexivity.
  - pose proof (copy_refs_grows _ _ _ _ _ _ _ Hrun) as Hg.
    pose proof (qmap_copy_refs _ _ _ _ _ _ _ Hrun) as Hq.
    cbn [AlignmentCache.set_qmap AlignmentCache.qmap_ AlignmentCache.set_pool] in Hq.
    rewrite insert_insert_eq in Hq.
    split.
    + eapply grows_trans; [|exact Hg]. repeat split; try reflexivity.
      cbn [AlignmentCache.set_qmap AlignmentCache.qmap_ AlignmentCache.set_pool].
      rewrite insert_insert_eq. apply insert_subseteq. exact Hnone.
    + intros k Hk. rewrite Hq. apply lookup_insert_ne. congruence.
  - injection Hrun as _ <-. split; [repeat split; reflexivity|]. intros; reflexivity.
Qed.

(** X8: [copy] only ever adds: whatever it returns, and also when it gives up
    half way for lack of memory, the destination's two lists are extended
    at the end, every entry of the two maps is still there with the payload
    it had, no key other than [qk] is new in the map of read substrings,
    and the version and the shared flag are the same. *)
Theorem copy_only_appends qk qv (src c : tier) ok c' :
  AlignmentCache.copy qk qv src c = Some (ok, c') ->
  AlignmentCache.grows c c'
  /\ (forall k, k <> qk -> AlignmentCache.query k c' = AlignmentCache.query k c).
Proof. apply copy_only_appends_aux. Qed.

(** X9: When the key is absent and the pool has no room for its node, [copy]
    stores nothing and still returns true, so [clearCopy] does not clear
    the tier and reports false: the key is silently not copied. *)
Theorem copy_without_room qk qv (src c : tier) :
  AlignmentCache.query qk c = None ->
  pool_alloc CQMap (AlignmentCache.pool_ c) = None ->
  AlignmentCache.copy qk qv src c = Some (true, c)
  /\ AlignmentCache.clearCopy qk qv src c = Some (false, c).
Proof.
  unfold AlignmentCache.query. intros Hq Hp.
  assert (AlignmentCache.copy qk qv src c = Some (true, c)) as Hc.
  { unfold AlignmentCache.copy, rb_add. rewrite Hq, Hp. cbn [negb].
    rewrite set_same. reflexivity. }
  split; [exact Hc|]. unfold AlignmentCache.clearCopy. rewrite Hc. reflexivity.
Qed.




(** *** Copy, then look up *)

Lemma window_app {X : Type} (l k : list X) i n :
  length (window l i n) = Z.to_nat n -> window (l ++ k) i n = window l i n.
Proof.
  unfold window. intros Hlen. rewrite length_take in Hlen.
  rewrite drop_app, take_app_le by lia. reflexivity.
Qed.

Lemma window_at_end {X : Type} (l w : list X) n :
  length w = Z.to_nat n -> window (l ++ w) (Z.of_nat (length l)) n = w.
Proof.
  unfold window. intros Hlen. rewrite Nat2Z.id, drop_app_length.
  apply take_ge. lia.
Qed.

Lemma take_drop_S {X : Type} (l : list X) k n x :
  l !! k = Some x -> take (S n) (drop k l) = x :: take n (drop (S k) l).
Proof. intros Hx. rewrite (drop_S _ _ _ Hx). reflexivity. Qed.

Lemma take_drop_full {X : Type} (l : list X) k n :
  length (take (S n) (drop k l)) = S n ->
  exists x, l !! k = Some x.
Proof.
  intros Hlen. apply lookup_lt_is_Some.
  rewrite length_take, length_drop in Hlen. lia.
Qed.

Lemma plist_get_lookup {X : Type} (l : list X) i x :
  plist_get l i = Some x <-> 0 <= i /\ l !! Z.to_nat i = Some x.
Proof.
  unfold plist_get. destruct (Z.ltb_spec i 0); split.
  - discriminate.
  - intros [? _]. lia.
  - intros Hx. split; [lia|exact Hx].
  - intros [_ Hx]. exact Hx.
Qed.

Lemma copy_offs_appends n : forall j srci (src c c' : tier),
  AlignmentCache.copy_offs n j srci src c = Some (true, c') ->
  0 <= srci + j -> srci + j + Z.of_nat n <= 2 ^ 64 ->
  AlignmentCache.salist_ c'
  = AlignmentCache.salist_ c
    ++ take n (drop (Z.to_nat (srci + j)) (AlignmentCache.salist_ src))
  /\ length (take n (drop (Z.to_nat (srci + j)) (AlignmentCache.salist_ src))) = n
  /\ AlignmentCache.samap_ c' = AlignmentCache.samap_ c
  /\ AlignmentCache.qlist_ c' = AlignmentCache.qlist_ c.
Proof.
  induction n as [|n IH]; intros j srci src c c' Hrun Hlo Hhi;
    cbn [AlignmentCache.copy_offs] in Hrun.
  - injection Hrun as <-. rewrite take_0, app_nil_r. repeat split.
  - rewrite u64_small in Hrun by lia.
    destruct (plist_get (AlignmentCache.salist_ src) (srci + j)) as [x|] eqn:Hget;
      [|discriminate]. cbn [mbind option_bind] in Hrun.
    apply plist_get_lookup in Hget as [_ Hx].
    destruct (plist_add CSAList (AlignmentCache.pool_ c) (AlignmentCache.salist_ c) x)
      as [[ok1 p] l] eqn:Hadd.
    apply plist_add_cases in Hadd as [(-> & _ & ->)|(-> & _ & -> & ->)]; [|discriminate].
    apply IH in Hrun; [|lia|lia].
    destruct Hrun as (Hsa & Hlen & Hsm & Hql).
    replace (Z.to_nat (srci + (j + 1))) with (S (Z.to_nat (srci + j))) in Hsa, Hlen by lia.
    rewrite (take_drop_S _ _ _ _ Hx).
    split; [|split; [|split]].
    + rewrite Hsa. cbn [AlignmentCache.set_salist AlignmentCache.salist_].
      rewrite <- app_assoc. reflexivity.
    + cbn [length]. rewrite Hlen. reflexivity.
    + rewrite Hsm. reflexivity.
    + rewrite Hql. reflexivity.
Qed.

Lemma queryQval_loop_made n : forall i (c : tier) ts W,
  0 <= i ->
  take n (drop (Z.to_nat i) (AlignmentCache.qlist_ c)) = W -> length W = n ->
  Forall (fun sak => is_Some (AlignmentCache.samap_ c !! sak)) W ->
  exists tl, AlignmentCache.queryQval_loop n i c ts = Some (ts ++ tl)
    /\ Forall2 (AlignmentCache.made_of c) W tl.
Proof.
  induction n as [|n IH]; intros i c ts W Hi HW Hlen Hall;
    cbn [AlignmentCache.queryQval_loop].
  - exists []. rewrite app_nil_r. split; [reflexivity|].
    destruct W; [constructor|discriminate].
  - destruct (take_drop_full (AlignmentCache.qlist_ c) (Z.to_nat i) n) as [x Hx];
      [rewrite HW; exact Hlen|].
    rewrite (take_drop_S _ _ _ _ Hx) in HW. subst W.
    apply Forall_cons in Hall as [[sav Hsav] Hall].
    assert (plist_get (AlignmentCache.qlist_ c) i = Some x) as ->
      by (apply plist_get_lookup; split; [lia|exact Hx]).
    cbn [mbind option_bind]. rewrite Hsav. cbn [mbind option_bind].
    cbn [length] in Hlen.
    destruct (IH (i + 1) c
                (ts ++ [SATuple.mk x (SAVal.top sav)
                          (TSlice.mk (SAVal.i sav) (SAVal.len sav))])
                (take n (drop (S (Z.to_nat i)) (AlignmentCache.qlist_ c))))
      as (tl & Hrun & Htl); [lia| |lia|exact Hall|].
    { replace (Z.to_nat (i + 1)) with (S (Z.to_nat i)) by lia. reflexivity. }
    eexists (_ :: tl). split.
    + rewrite Hrun, <- app_assoc. reflexivity.
    + constructor; [|exact Htl]. exists sav. split; [exact Hsav|reflexivity].
Qed.

Section CopySource.
Variable src : tier.
Hypothesis Hsrc :
  map_Forall (fun _ sav => 0 <= SAVal.i sav < 2 ^ 32 /\ 0 <= SAVal.len sav < 2 ^ 32)
    (AlignmentCache.samap_ src).

Lemma copied_grows (c c' : tier) sak :
  AlignmentCache.grows c c' -> AlignmentCache.copied src c sak -> AlignmentCache.copied src c' sak.
Proof.
  intros (_ & [k Hk] & _ & Hsm & _) (v & sav & Hv & Hsav & Ht & Hl & Hw & Hlen).
  exists v, sav. split; [exact (lookup_weaken _ _ _ _ Hv Hsm)|].
  split; [exact Hsav|]. split; [exact Ht|]. split; [exact Hl|]. split; [|exact Hlen].
  rewrite Hk, window_app; [exact Hw|]. rewrite Hw, Hl. exact Hlen.
Qed.

Lemma copy_refs_fresh n : forall i (c c' : tier),
  AlignmentCache.copy_refs n i src true c = Some (true, c') ->
  0 <= i ->
  NoDup (take n (drop (Z.to_nat i) (AlignmentCache.qlist_ src))) ->
  (forall sak, sak ∈ take n (drop (Z.to_nat i) (AlignmentCache.qlist_ src)) ->
     AlignmentCache.samap_ c !! sak = None) ->
  Z.of_nat (length (AlignmentCache.salist_ c')) < 2 ^ 32 ->
  length (take n (drop (Z.to_nat i) (AlignmentCache.qlist_ src))) = n
  /\ AlignmentCache.qlist_ c'
     = AlignmentCache.qlist_ c ++ take n (drop (Z.to_nat i) (AlignmentCache.qlist_ src))
  /\ Forall (AlignmentCache.copied src c') (take n (drop (Z.to_nat i) (AlignmentCache.qlist_ src))).
Proof.
  induction n as [|n IH]; intros i c c' Hrun Hi Hnd Hfresh Hfit;
    cbn [AlignmentCache.copy_refs] in Hrun.
  - injection Hrun as <-. rewrite take_0, app_nil_r. repeat split. constructor.
  - destruct (plist_get (AlignmentCache.qlist_ src) i) as [sak|] eqn:Hget; [|discriminate].
    cbn [mbind option_bind] in Hrun.
    apply plist_get_lookup in Hget as [_ Hx].
    rewrite (take_drop_S _ _ _ _ Hx) in Hnd, Hfresh |- *.
    apply NoDup_cons in Hnd as [Hnotin Hnd].
    destruct (plist_add CQList (AlignmentCache.pool_ c) (AlignmentCache.qlist_ c) sak)
      as [[ok1 p] l] eqn:Hadd.
    apply plist_add_cases in Hadd as [(-> & _ & ->)|(-> & _ & -> & ->)];
      cbn [negb] in Hrun; [|discriminate].
    set (c1 := AlignmentCache.set_qlist _ _) in *.
    destruct (rb_add CSAMap SAVal.default (AlignmentCache.pool_ c1)
                (AlignmentCache.samap_ c1) sak true)
      as [[[node added] p2] m2] eqn:Hrb.
    apply rb_add_cases in Hrb
      as [([v Hv] & _)|[(Hnone & _ & -> & -> & ->)|(_ & _ & -> & -> & -> & ->)]].
    + exfalso. cbn in Hv. rewrite (Hfresh sak) in Hv; [discriminate|]. apply list_elem_of_here.
    + cbn [negb] in Hrun.
      destruct (AlignmentCache.samap_ src !! sak) as [sav|] eqn:Hsav; [|discriminate].
      cbn [mbind option_bind] in Hrun.
      destruct (Hsrc _ _ Hsav) as [Hsi Hsl].
      match type of Hrun with
      | context [AlignmentCache.copy_offs ?m ?j ?s ?sr ?c0] =>
          set (c2 := c0) in *;
          destruct (AlignmentCache.copy_offs m j s sr c2) as [[[|] c3]|] eqn:Hoffs;
          [| discriminate | discriminate]
      end.
      pose proof (copy_refs_grows _ _ _ _ _ _ _ Hrun) as Hg.
      apply copy_offs_appends in Hoffs; [|lia|rewrite Z2Nat.id by lia; lia].
      rewrite Z.add_0_r in Hoffs. destruct Hoffs as (Hsa & Hlen & Hsm & Hql).
      cbn [c2 c1 AlignmentCache.set_samap AlignmentCache.set_qlist AlignmentCache.set_pool
           AlignmentCache.samap_ AlignmentCache.salist_ AlignmentCache.qlist_] in Hsa, Hsm, Hql.
      rewrite insert_insert_eq in Hsm.
      assert (Z.of_nat (length (AlignmentCache.salist_ c)) < 2 ^ 32) as Hfit0.
      { destruct Hg as (_ & [k Hk] & _). rewrite Hk, Hsa in Hfit.
        rewrite !length_app in Hfit. lia. }
      apply IH in Hrun; [|lia| | |exact Hfit].
      * replace (Z.to_nat (i + 1)) with (S (Z.to_nat i)) in Hrun by lia.
        destruct Hrun as (HlenW & HqW & Hall).
        split; [cbn [length]; rewrite HlenW; reflexivity|].
        split; [rewrite HqW, Hql, <- app_assoc; reflexivity|].
        constructor; [|exact Hall].
        apply (copied_grows c3 c' sak Hg).
        exists (SAVal.init (SAVal.top sav)
                  (u32 (Z.of_nat (length (AlignmentCache.salist_ c)))) (SAVal.len sav)), sav.
        split; [rewrite Hsm; apply lookup_insert_eq|].
        split; [exact Hsav|]. split; [reflexivity|]. split; [reflexivity|].
        cbn [SAVal.init SAVal.i SAVal.len]. rewrite u32_small by lia.
        rewrite Hsa. unfold window at 2 3. split; [|exact Hlen].
        apply window_at_end. exact Hlen.
      * replace (Z.to_nat (i + 1)) with (S (Z.to_nat i)) by lia. exact Hnd.
      * replace (Z.to_nat (i + 1)) with (S (Z.to_nat i)) by lia.
        intros sak' Hin. rewrite Hsm, lookup_insert_ne.
        -- apply Hfresh. apply list_elem_of_further. exact Hin.
        -- intros ->. exact (Hnotin Hin).
    + discriminate.
Qed.

Lemma rows_agree (c' : tier) W : forall ts ts',
  Forall (AlignmentCache.copied src c') W ->
  Forall2 (AlignmentCache.made_of src) W ts -> Forall2 (AlignmentCache.made_of c') W ts' ->
  AlignmentCache.tuple_rows c' <$> ts' = AlignmentCache.tuple_rows src <$> ts.
Proof.
  induction W as [|sak W IH]; intros ts ts' Hall Hs Hd.
  - apply Forall2_nil_inv_l in Hs as ->. apply Forall2_nil_inv_l in Hd as ->. reflexivity.
  - apply Forall2_cons_inv_l in Hs as (t & ts0 & (sav & Hsav & ->) & Hs & ->).
    apply Forall2_cons_inv_l in Hd as (t' & ts0' & (v & Hv & ->) & Hd & ->).
    apply Forall_cons in Hall as [(v1 & sav1 & Hv1 & Hsav1 & Ht & Hl & Hw & _) Hall].
    rewrite Hv in Hv1. injection Hv1 as <-. rewrite Hsav in Hsav1. injection Hsav1 as <-.
    cbn [fmap list_fmap]. f_equal; [|apply IH; assumption].
    unfold AlignmentCache.tuple_rows.
    cbn [SATuple.key SATuple.top SATuple.offs TSlice.i_ TSlice.len_].
    rewrite Ht, Hw. reflexivity.
Qed.

End CopySource.

(** X11: A copy that succeeded can be read back.  If [copy] returns true and
    has put the key [qk] into the destination, the reference substrings
    of [qv] in the source are distinct and have no suffix-array entry in
    the destination yet, and all sizes and fields are values of
    [uint32_t], then [queryEx] for [qk] on the destination gives, tuple by
    tuple, the keys, top rows and offsets that [queryQval] for [qv] gives
    on the source. *)
Theorem copy_then_queryEx qk qv (src c c' : tier) :
  AlignmentCache.copy qk qv src c = Some (true, c') ->
  AlignmentCache.query qk c = None ->
  is_Some (AlignmentCache.query qk c') ->
  NoDup (window (AlignmentCache.qlist_ src) (QVal.offset qv) (QVal.numRanges qv)) ->
  (forall sak,
     sak ∈ window (AlignmentCache.qlist_ src) (QVal.offset qv) (QVal.numRanges qv) ->
     AlignmentCache.samap_ c !! sak = None) ->
  0 <= QVal.offset qv -> 0 <= QVal.numRanges qv ->
  QVal.offset qv + QVal.numRanges qv < 2 ^ 32 ->
  AlignmentCache.fits src -> AlignmentCache.fits c' ->
  exists ts ts',
    AlignmentCache.queryQval qv [] src = Some ts
    /\ AlignmentCache.queryEx qk [] c' = Some ts'
    /\ length ts = Z.to_nat (QVal.numRanges qv)
    /\ AlignmentCache.tuple_rows c' <$> ts' = AlignmentCache.tuple_rows src <$> ts.
Proof.
  unfold AlignmentCache.copy, AlignmentCache.query, window.
  intros Hrun Hq Hq' Hnd Hfresh Hoff Hnum Hsum (_ & _ & Hsrc) (Hfq & Hfs & _).
  destruct (rb_add CQMap QVal.reset (AlignmentCache.pool_ c) (AlignmentCache.qmap_ c) qk false)
    as [[[node added] p] m] eqn:Hrb.
  apply rb_add_cases in Hrb
    as [([v Hv] & _)|[(_ & _ & -> & -> & ->)|(_ & _ & -> & -> & -> & ->)]];
    cbn [negb] in Hrun.
  - rewrite Hq in Hv. discriminate.
  - rewrite u32_small in Hrun by lia.
    replace (QVal.offset qv + QVal.numRanges qv - QVal.offset qv)
      with (QVal.numRanges qv) in Hrun by lia.
    pose proof (qmap_copy_refs _ _ _ _ _ _ _ Hrun) as Hqm.
    cbn [AlignmentCache.set_qmap AlignmentCache.qmap_ AlignmentCache.set_pool
         AlignmentCache.qlist_] in Hqm.
    apply (copy_refs_fresh src Hsrc) in Hrun; [|lia|exact Hnd| |exact Hfs].
    2:{ intros sak Hin. apply Hfresh. exact Hin. }
    cbn [AlignmentCache.set_qmap AlignmentCache.qmap_ AlignmentCache.set_pool
         AlignmentCache.qlist_] in Hrun.
    destruct Hrun as (HlenW & HqW & Hall).
    set (W := take (Z.to_nat (QVal.numRanges qv))
                (drop (Z.to_nat (QVal.offset qv)) (AlignmentCache.qlist_ src))) in *.
    assert (Z.of_nat (length (AlignmentCache.qlist_ c)) < 2 ^ 32) as Hfq0.
    { rewrite HqW, length_app in Hfq. lia. }
    destruct (queryQval_loop_made (Z.to_nat (QVal.numRanges qv)) (QVal.offset qv) src [] W)
      as (ts & Hts & Hmade); [lia|reflexivity|exact HlenW| |].
    { eapply Forall_impl; [exact Hall|].
      intros sak (v & sav & _ & Hsav & _). eexists; exact Hsav. }
    destruct (queryQval_loop_made (Z.to_nat (QVal.numRanges qv))
                (Z.of_nat (length (AlignmentCache.qlist_ c))) c' [] W)
      as (ts' & Hts' & Hmade'); [lia| |exact HlenW| |].
    { rewrite Nat2Z.id, HqW, drop_app_length. apply take_ge. lia. }
    { eapply Forall_impl; [exact Hall|].
      intros sak (v & sav & Hv & _). eexists; exact Hv. }
    exists ts, ts'. split; [|split; [|split]].
    + unfold AlignmentCache.queryQval.
      replace (QVal.offset qv + QVal.numRanges qv - QVal.offset qv)
        with (QVal.numRanges qv) by lia.
      exact Hts.
    + unfold AlignmentCache.queryEx, AlignmentCache.query. rewrite Hqm.
      rewrite insert_insert_eq, lookup_insert_eq. unfold AlignmentCache.queryQval.
      cbn [QVal.init QVal.offset QVal.numRanges QVal.i_ QVal.rangen_].
      rewrite u32_small by lia.
      match goal with
      | |- AlignmentCache.queryQval_loop (Z.to_nat ?e) _ _ _ = _ =>
          replace e with (QVal.numRanges qv) by lia
      end.
      exact Hts'.
    + rewrite <- (Forall2_length _ _ _ Hmade). exact HlenW.
    + apply (rows_agree src c' W); assumption.
  - injection Hrun as <-.
    cbn [AlignmentCache.set_qmap AlignmentCache.qmap_ AlignmentCache.set_pool] in Hq'.
    rewrite Hq in Hq'. destruct Hq' as [? ?]. discriminate.
Qed.

(** *** What a copy adds comes from the source *)

Lemma copy_offs_adds n : forall j srci (src c : tier) ok c',
  AlignmentCache.copy_offs n j srci src c = Some (ok, c') ->
  AlignmentCache.qlist_ c' = AlignmentCache.qlist_ c
  /\ AlignmentCache.samap_ c' = AlignmentCache.samap_ c
  /\ exists e,
       AlignmentCache.salist_ c' = AlignmentCache.salist_ c ++ e
       /\ Forall (fun x => x ∈ AlignmentCache.salist_ src) e.
Proof.
  induction n as [|n IH]; intros j srci src c ok c' Hrun;
    cbn [AlignmentCache.copy_offs] in Hrun.
  - injection Hrun as _ <-. split; [reflexivity|]. split; [reflexivity|].
    exists []. rewrite app_nil_r. split; [reflexivity|constructor].
  - destruct (plist_get (AlignmentCache.salist_ src) (u64 (srci + j))) as [x|] eqn:Hget;
      [|discriminate]. cbn [mbind option_bind] in Hrun.
    apply plist_get_lookup in Hget as [_ Hx].
    destruct (plist_add CSAList (AlignmentCache.pool_ c) (AlignmentCache.salist_ c) x)
      as [[ok1 p] l] eqn:Hadd.
    apply plist_add_cases in Hadd as [(-> & _ & ->)|(-> & _ & -> & ->)].
    + apply IH in Hrun as (Hq & Hm & e & He & Hall).
      split; [exact Hq|]. split; [exact Hm|]. exists (x :: e).
      split; [rewrite He; cbn [AlignmentCache.set_salist AlignmentCache.salist_];
              rewrite <- app_assoc; reflexivity|].
      constructor; [|exact Hall]. eapply list_elem_of_lookup_2. exact Hx.
    + injection Hrun as _ <-. split; [reflexivity|]. split; [reflexivity|].
      exists []. rewrite app_nil_r. split; [reflexivity|constructor].
Qed.

Lemma copy_refs_adds n : forall i (src : tier) added (c : tier) ok c',
  AlignmentCache.copy_refs n i src added c = Some (ok, c') ->
  exists w e,
    AlignmentCache.qlist_ c' = AlignmentCache.qlist_ c ++ w
    /\ w `prefix_of` take n (drop (Z.to_nat i) (AlignmentCache.qlist_ src))
    /\ AlignmentCache.salist_ c' = AlignmentCache.salist_ c ++ e
    /\ Forall (fun x => x ∈ AlignmentCache.salist_ src) e
    /\ (forall sak, is_Some (AlignmentCache.samap_ c' !! sak) ->
          is_Some (AlignmentCache.samap_ c !! sak) \/ sak ∈ w).
Proof.
  induction n as [|n IH]; intros i src added0 c ok c' Hrun;
    cbn [AlignmentCache.copy_refs] in Hrun.
  - injection Hrun as _ <-. exists [], []. rewrite !app_nil_r.
    split; [reflexivity|]. split; [apply prefix_nil|]. split; [reflexivity|].
    split; [constructor|]. intros sak Hs. left. exact Hs.
  - destruct (plist_get (AlignmentCache.qlist_ src) i) as [sak|] eqn:Hget; [|discriminate].
    cbn [mbind option_bind] in Hrun.
    apply plist_get_lookup in Hget as [Hi Hx].
    rewrite (take_drop_S _ _ _ _ Hx).
    assert (forall (c1 : tier) w,
              AlignmentCache.qlist_ c1 = AlignmentCache.qlist_ c ++ [sak] ->
              AlignmentCache.qlist_ c' = AlignmentCache.qlist_ c1 ++ w ->
              w `prefix_of` take n (drop (Z.to_nat (i + 1)) (AlignmentCache.qlist_ src)) ->
              AlignmentCache.qlist_ c' = AlignmentCache.qlist_ c ++ sak :: w
              /\ sak :: w `prefix_of`
                   sak :: take n (drop (S (Z.to_nat i)) (AlignmentCache.qlist_ src)))
      as Hcons.
    { intros c1 w H1 H2 H3. split; [rewrite H2, H1, <- app_assoc; reflexivity|].
      replace (Z.to_nat (i + 1)) with (S (Z.to_nat i)) in H3 by lia.
      apply prefix_cons. exact H3. }
    destruct (plist_add CQList (AlignmentCache.pool_ c) (AlignmentCache.qlist_ c) sak)
      as [[ok1 p] l] eqn:Hadd.
    apply plist_add_cases in Hadd as [(-> & _ & ->)|(-> & _ & -> & ->)];
      cbn [negb] in Hrun.
    2:{ injection Hrun as _ <-. exists [], []. rewrite !app_nil_r.
        split; [reflexivity|]. split; [apply prefix_nil|]. split; [reflexivity|].
        split; [constructor|]. intros k Hk. left. exact Hk. }
    set (c1 := AlignmentCache.set_qlist _ _) in *.
    destruct (rb_add CSAMap SAVal.default (AlignmentCache.pool_ c1)
                (AlignmentCache.samap_ c1) sak added0)
      as [[[node added] p2] m2] eqn:Hrb.
    apply rb_add_cases in Hrb
      as [(_ & -> & -> & -> & ->)|[(Hnone & _ & -> & -> & ->)|(_ & _ & -> & -> & -> & ->)]].
    + cbn [negb] in Hrun. apply IH in Hrun as (w & e & Hq & Hpre & Hs & Hall & Hkeys).
      destruct (Hcons c1 w eq_refl Hq Hpre) as [Hq' Hpre'].
      exists (sak :: w), e. split; [exact Hq'|]. split; [exact Hpre'|].
      split; [exact Hs|]. split; [exact Hall|].
      intros k Hk. destruct (Hkeys k Hk) as [Hin|Hin]; [left; exact Hin|].
      right. apply list_elem_of_further. exact Hin.
    + cbn [negb] in Hrun.
      destruct (AlignmentCache.samap_ src !! sak) as [srcSa|]; [|discriminate].
      cbn [mbind option_bind] in Hrun.
      match type of Hrun with
      | context [AlignmentCache.copy_offs ?m ?j ?s ?sr ?c0] =>
          set (c2 := c0) in *;
          destruct (AlignmentCache.copy_offs m j s sr c2) as [[ok3 c3]|] eqn:Hoffs;
          [|discriminate]
      end.
      apply copy_offs_adds in Hoffs as (Hq3 & Hm3 & e1 & He1 & Hall1).
      cbn [c2 c1 AlignmentCache.set_samap AlignmentCache.set_qlist AlignmentCache.set_pool
           AlignmentCache.samap_ AlignmentCache.salist_ AlignmentCache.qlist_]
        in Hq3, Hm3, He1.
      rewrite insert_insert_eq in Hm3.
      assert (forall k, is_Some (AlignmentCache.samap_ c3 !! k) ->
                is_Some (AlignmentCache.samap_ c !! k) \/ k = sak) as Hk3.
      { intros k. rewrite Hm3. destruct (decide (k = sak)) as [->|Hne].
        - intros _. right. reflexivity.
        - rewrite lookup_insert_ne by congruence. intros Hk. left. exact Hk. }
      destruct ok3.
      * apply IH in Hrun as (w & e & Hq & Hpre & Hs & Hall & Hkeys).
        destruct (Hcons c3 w Hq3 Hq Hpre) as [Hq' Hpre'].
        exists (sak :: w), (e1 ++ e). split; [exact Hq'|]. split; [exact Hpre'|].
        split; [rewrite Hs, He1, <- app_assoc; reflexivity|].
        split; [apply Forall_app; split; assumption|].
        intros k Hk. destruct (Hkeys k Hk) as [Hin|Hin].
        -- destruct (Hk3 k Hin) as [Hc| ->]; [left; exact Hc|right; apply list_elem_of_here].
        -- right. apply list_elem_of_further. exact Hin.
      * injection Hrun as _ <-. exists [sak], e1.
        split; [exact Hq3|]. split; [apply prefix_cons, prefix_nil|].
        split; [exact He1|]. split; [exact Hall1|].
        intros k Hk. destruct (Hk3 k Hk) as [Hc| ->]; [left; exact Hc|].
        right. apply list_elem_of_here.
    + destruct added0; cbn [negb] in Hrun.
      * injection Hrun as _ <-. exists [sak], []. rewrite app_nil_r.
        split; [reflexivity|]. split; [apply prefix_cons, prefix_nil|].
        split; [reflexivity|]. split; [constructor|]. intros k Hk. left. exact Hk.
      * apply IH in Hrun as (w & e & Hq & Hpre & Hs & Hall & Hkeys).
        destruct (Hcons c1 w eq_refl Hq Hpre) as [Hq' Hpre'].
        exists (sak :: w), e. split; [exact Hq'|]. split; [exact Hpre'|].
        split; [exact Hs|]. split; [exact Hall|].
        intros k Hk. destruct (Hkeys k Hk) as [Hin|Hin]; [left; exact Hin|].
        right. apply list_elem_of_further. exact Hin.
Qed.

Lemma copy_adds qk qv (src c : tier) ok c' :
  AlignmentCache.copy qk qv src c = Some (ok, c') ->
  exists w e,
    AlignmentCache.qlist_ c' = AlignmentCache.qlist_ c ++ w
    /\ w `prefix_of`
         window (AlignmentCache.qlist_ src) (QVal.offset qv)
           (u32 (QVal.offset qv + QVal.numRanges qv) - QVal.offset qv)
    /\ AlignmentCache.salist_ c' = AlignmentCache.salist_ c ++ e
    /\ Forall (fun x => x ∈ AlignmentCache.salist_ src) e
    /\ (forall sak, is_Some (AlignmentCache.samap_ c' !! sak) ->
          is_Some (AlignmentCache.samap_ c !! sak) \/ sak ∈ w).
Proof.
  unfold AlignmentCache.copy. intros Hrun.
  assert (c' = AlignmentCache.set_qmap (AlignmentCache.qmap_ c')
                 (AlignmentCache.set_pool (AlignmentCache.pool_ c') c) ->
          exists w e,
            AlignmentCache.qlist_ c' = AlignmentCache.qlist_ c ++ w
            /\ w `prefix_of`
                 window (AlignmentCache.qlist_ src) (QVal.offset qv)
                   (u32 (QVal.offset qv + QVal.numRanges qv) - QVal.offset qv)
            /\ AlignmentCache.salist_ c' = AlignmentCache.salist_ c ++ e
            /\ Forall (fun x => x ∈ AlignmentCache.salist_ src) e
            /\ (forall sak, is_Some (AlignmentCache.samap_ c' !! sak) ->
                  is_Some (AlignmentCache.samap_ c !! sak) \/ sak ∈ w)) as Hsame.
  { intros ->. exists [], []. cbn. rewrite !app_nil_r.
    split; [reflexivity|]. split; [apply prefix_nil|]. split; [reflexivity|].
    split; [constructor|]. intros k Hk. left. exact Hk. }
  destruct (rb_add CQMap QVal.reset (AlignmentCache.pool_ c) (AlignmentCache.qmap_ c) qk false)
    as [[[node added] p] m] eqn:Hrb.
  apply rb_add_cases in Hrb
    as [(_ & -> & -> & -> & ->)|[(_ & _ & -> & -> & ->)|(_ & _ & -> & -> & -> & ->)]];
    cbn [negb] in Hrun.
  - injection Hrun as _ <-. apply Hsame. reflexivity.
  - apply copy_refs_adds in Hrun. exact Hrun.
  - injection Hrun as _ <-. apply Hsame. reflexivity.
Qed.

Lemma copy_into_empty qk qv (src c : tier) ok c' :
  AlignmentCache.qlist_ c = [] -> AlignmentCache.samap_ c = ∅ ->
  AlignmentCache.salist_ c = [] ->
  AlignmentCache.copy qk qv src c = Some (ok, c') ->
  AlignmentCache.only_from qv src c'.
Proof.
  intros Hq Hm Hs Hrun.
  apply copy_adds in Hrun as (w & e & Hq' & Hpre & Hs' & Hall & Hkeys).
  rewrite Hq in Hq'. rewrite Hs in Hs'. cbn [app] in Hq', Hs'.
  split; [rewrite Hq'; exact Hpre|]. split.
  - intros sak Hk. destruct (Hkeys sak Hk) as [[v Hv]|Hin].
    + rewrite Hm, lookup_empty in Hv. discriminate.
    + rewrite Hq'. exact Hin.
  - intros x Hx. rewrite Hs' in Hx. rewrite Forall_forall in Hall. apply Hall. exact Hx.
Qed.

(** X10: what [clearCopy] leaves behind.  If it reports false, nothing was
    cleared: the tier is what the one call of [copy] made of it, it has
    only grown, and the version is the same.  If it reports true, the
    first copy failed and the tier was cleared: the version has gone up by
    one (modulo 2^32), no key other than [qk] is in the map of read
    substrings, and the tier is what the second copy made of the emptied
    tier, so it holds nothing of before: its list of reference substrings
    is a front part of the window of [qv] in the source, every key of its
    suffix-array map is in that list, and every offset in its list is one
    of the source's. *)
Theorem clearCopy_outcome qk qv (src c : tier) cleared c' :
  AlignmentCache.clearCopy qk qv src c = Some (cleared, c') ->
  if cleared
  then AlignmentCache.version c' = u32 (AlignmentCache.version c + 1)
       /\ AlignmentCache.grows (AlignmentCache.clear c) c'
       /\ (forall k, k <> qk -> AlignmentCache.query k c' = None)
       /\ AlignmentCache.only_from qv src c'
       /\ (exists c1 ok,
             AlignmentCache.copy qk qv src c = Some (false, c1)
             /\ AlignmentCache.cleared_from c (AlignmentCache.clear c1)
             /\ AlignmentCache.qlist_ (AlignmentCache.clear c1) = []
             /\ AlignmentCache.salist_ (AlignmentCache.clear c1) = []
             /\ AlignmentCache.copy qk qv src (AlignmentCache.clear c1) = Some (ok, c'))
  else AlignmentCache.grows c c'
       /\ (forall k, k <> qk -> AlignmentCache.query k c' = AlignmentCache.query k c)
       /\ AlignmentCache.copy qk qv src c = Some (true, c').
Proof.
  unfold AlignmentCache.clearCopy. intros Hrun.
  destruct (AlignmentCache.copy qk qv src c) as [[[|] c1]|] eqn:Hc1; [| |discriminate].
  - injection Hrun as <- <-.
    destruct (copy_only_appends_aux _ _ _ _ _ _ Hc1) as [Hg Hfr].
    split; [exact Hg|]. split; [exact Hfr|reflexivity].
  - destruct (AlignmentCache.copy qk qv src (AlignmentCache.clear c1)) as [[ok2 c2]|] eqn:Hc2;
      [|discriminate].
    injection Hrun as <- <-.
    destruct (copy_only_appends_aux _ _ _ _ _ _ Hc1) as [(_ & _ & _ & _ & Hv1 & Hs1) _].
    destruct (copy_only_appends_aux _ _ _ _ _ _ Hc2) as [(G1 & G2 & G3 & G4 & G5 & G6) Hq].
    cbn [AlignmentCache.clear AlignmentCache.version_ AlignmentCache.shared_] in G5, G6.
    split; [|split; [|split; [|split]]].
    + unfold AlignmentCache.version. rewrite G5, Hv1. reflexivity.
    + repeat split; try assumption; cbn [AlignmentCache.clear AlignmentCache.version_
        AlignmentCache.shared_]; congruence.
    + intros k Hk. rewrite (Hq k Hk). apply lookup_empty.
    + exact (copy_into_empty qk qv src (AlignmentCache.clear c1) ok2 c2
               eq_refl eq_refl eq_refl Hc2).
    + exists c1, ok2. split; [reflexivity|].
      split; [|split; [reflexivity|split; [reflexivity|exact Hc2]]].
      unfold AlignmentCache.cleared_from, AlignmentCache.empty, AlignmentCache.qNumKeys,
        AlignmentCache.saNumKeys, AlignmentCache.qSize, AlignmentCache.saSize,
        AlignmentCache.query, AlignmentCache.queryEx, AlignmentCache.version,
        AlignmentCache.shared.
      cbn [AlignmentCache.clear AlignmentCache.qmap_ AlignmentCache.samap_
           AlignmentCache.qlist_ AlignmentCache.salist_ AlignmentCache.version_
           AlignmentCache.shared_ length].
      rewrite Hv1, Hs1.
      split; [apply bool_decide_eq_true; reflexivity|].
      split; [rewrite map_size_empty; reflexivity|].
      split; [rewrite map_size_empty; reflexivity|].
      split; [reflexivity|]. split; [reflexivity|].
      split; [intros k; apply lookup_empty|].
      split; [intros k satups; unfold AlignmentCache.query; cbn; rewrite lookup_empty;
              reflexivity|].
      split; reflexivity.
Qed.

End TierKeeps.

Lemma copy_only_appends_witness :
  AlignmentCache.copy (QKey.mk 27 4) (QVal.mk 0 2 5) tier_ACGT small_tier
  = Some (true, local_ACGT)
  /\ AlignmentCache.grows small_tier local_ACGT
  /\ (forall k, k <> QKey.mk 27 4 ->
        AlignmentCache.query k local_ACGT = AlignmentCache.query k small_tier).
Proof.
  assert (AlignmentCache.copy (QKey.mk 27 4) (QVal.mk 0 2 5) tier_ACGT small_tier
          = Some (true, local_ACGT)) as Hc by (vm_compute; reflexivity).
  split; [exact Hc|].
  exact (copy_only_appends (QKey.mk 27 4) (QVal.mk 0 2 5) tier_ACGT small_tier true
           local_ACGT Hc).
Defined.

Lemma copy_without_room_witness :
  AlignmentCache.copy (QKey.mk 27 4) (QVal.mk 0 2 5) tier_ACGT full_tier
  = Some (true, full_tier)
  /\ AlignmentCache.clearCopy (QKey.mk 27 4) (QVal.mk 0 2 5) tier_ACGT full_tier
     = Some (false, full_tier).
Proof.
  apply (copy_without_room (QKey.mk 27 4) (QVal.mk 0 2 5) tier_ACGT full_tier).
  - vm_compute. reflexivity.
  - vm_compute. reflexivity.
Defined.

Lemma clearCopy_outcome_witness :
  AlignmentCache.clearCopy (QKey.mk 0 4) (QVal.mk 0 2 5) tier_ACGT local_ACGT
  = Some (true, local_turned)
  /\ AlignmentCache.version local_turned = u32 (AlignmentCache.version local_ACGT + 1)
  /\ AlignmentCache.grows (AlignmentCache.clear local_ACGT) local_turned
  /\ (forall k, k <> QKey.mk 0 4 -> AlignmentCache.query k local_turned = None)
  /\ AlignmentCache.only_from (QVal.mk 0 2 5) tier_ACGT local_turned
  /\ (exists c1 ok,
        AlignmentCache.copy (QKey.mk 0 4) (QVal.mk 0 2 5) tier_ACGT local_ACGT
        = Some (false, c1)
        /\ AlignmentCache.cleared_from local_ACGT (AlignmentCache.clear c1)
        /\ AlignmentCache.qlist_ (AlignmentCache.clear c1) = []
        /\ AlignmentCache.salist_ (AlignmentCache.clear c1) = []
        /\ AlignmentCache.copy (QKey.mk 0 4) (QVal.mk 0 2 5) tier_ACGT
             (AlignmentCache.clear c1)
           = Some (ok, local_turned)).
Proof.
  assert (AlignmentCache.clearCopy (QKey.mk 0 4) (QVal.mk 0 2 5) tier_ACGT local_ACGT
          = Some (true, local_turned)) as Hc by (vm_compute; reflexivity).
  split; [exact Hc|].
  exact (clearCopy_outcome (QKey.mk 0 4) (QVal.mk 0 2 5) tier_ACGT local_ACGT true
           local_turned Hc).
Defined.

Lemma copy_then_queryEx_witness :
  exists ts ts',
    AlignmentCache.queryQval (QVal.mk 0 2 5) [] tier_ACGT = Some ts
    /\ AlignmentCache.queryEx (QKey.mk 27 4) [] copied_ACGT = Some ts'
    /\ length ts = Z.to_nat (QVal.numRanges (QVal.mk 0 2 5))
    /\ AlignmentCache.tuple_rows copied_ACGT <$> ts'
       = AlignmentCache.tuple_rows tier_ACGT <$> ts.
Proof.
  apply (copy_then_queryEx (QKey.mk 27 4) (QVal.mk 0 2 5) tier_ACGT fresh_tier copied_ACGT).
  - vm_compute. reflexivity.
  - vm_compute. reflexivity.
  - vm_compute. eexists. reflexivity.
  - apply (bool_decide_unpack _). vm_compute. exact I.
  - intros sak _. reflexivity.
  - cbn. lia.
  - cbn. lia.
  - cbn. lia.
  - split; [vm_compute; reflexivity|]. split; [vm_compute; reflexivity|].
    apply (bool_decide_unpack _). vm_compute. exact I.
  - split; [vm_compute; reflexivity|]. split; [vm_compute; reflexivity|].
    apply (bool_decide_unpack _). vm_compute. exact I.
Defined.

Section CopyFails.
Context `{PoolOps Pool}.

(** X12: A copy that fails is not undone: when [copy] returns false, the key
    was not in the destination before and is in it afterwards, with the
    payload [copy] gave it at the start, whose window of [numRanges]
    reference substrings the destination could not be filled with. *)
Theorem copy_failure_leaves_entry qk qv (src c c' : AlignmentCache.t Pool) :
  AlignmentCache.copy qk qv src c = Some (false, c') ->
  AlignmentCache.query qk c = None
  /\ AlignmentCache.query qk c'
     = Some (QVal.init (u32 (Z.of_nat (length (AlignmentCache.qlist_ c))))
               (QVal.numRanges qv) (QVal.numElts qv))
  /\ AlignmentCache.grows c c'.
Proof.
  intros Hrun. pose proof (copy_only_appends_aux _ _ _ _ _ _ Hrun) as [Hg _].
  revert Hrun. unfold AlignmentCache.copy, AlignmentCache.query. intros Hrun.
  destruct (rb_add CQMap QVal.reset (AlignmentCache.pool_ c) (AlignmentCache.qmap_ c) qk false)
    as [[[node added] p] m] eqn:Hrb.
  apply rb_add_cases in Hrb
    as [(_ & -> & -> & -> & ->)|[(Hnone & _ & -> & -> & ->)|(_ & _ & -> & -> & -> & ->)]];
    cbn [negb] in Hrun; [discriminate| |discriminate].
  apply qmap_copy_refs in Hrun.
  cbn [AlignmentCache.set_qmap AlignmentCache.qmap_ AlignmentCache.set_pool
       AlignmentCache.qlist_] in Hrun.
  split; [exact Hnone|]. split; [|exact Hg].
  rewrite Hrun. apply lookup_insert_eq.
Qed.

End CopyFails.

Lemma copy_failure_leaves_entry_witness :
  AlignmentCache.copy (QKey.mk 27 4) (QVal.mk 0 2 5) tier_ACGT cramped_tier
  = Some (false, cramped_after)
  /\ AlignmentCache.query (QKey.mk 27 4) cramped_tier = None
  /\ AlignmentCache.query (QKey.mk 27 4) cramped_after
     = Some (QVal.init (u32 (Z.of_nat (length (AlignmentCache.qlist_ cramped_tier))))
               (QVal.numRanges (QVal.mk 0 2 5)) (QVal.numElts (QVal.mk 0 2 5)))
  /\ AlignmentCache.grows cramped_tier cramped_after.
Proof.
  assert (AlignmentCache.copy (QKey.mk 27 4) (QVal.mk 0 2 5) tier_ACGT cramped_tier
          = Some (false, cramped_after)) as Hc by (vm_compute; reflexivity).
  split; [exact Hc|].
  exact (copy_failure_leaves_entry (QKey.mk 27 4) (QVal.mk 0 2 5) tier_ACGT cramped_tier
           cramped_after Hc).
Defined.

(** *** Reading tuples *)

Section TierReads.
Context `{PoolOps Pool}.

Abbreviation tier := (AlignmentCache.t Pool).

Lemma copy_payload qk qv (src c : tier) ok c' v' :
  AlignmentCache.copy qk qv src c = Some (ok, c') ->
  AlignmentCache.query qk c = None ->
  AlignmentCache.query qk c' = Some v' ->
  v' = QVal.init (u32 (Z.of_nat (length (AlignmentCache.qlist_ c))))
         (QVal.numRanges qv) (QVal.numElts qv).
Proof.
  unfold AlignmentCache.copy, AlignmentCache.query. intros Hrun Hq Hq'.
  destruct (rb_add CQMap QVal.reset (AlignmentCache.pool_ c) (AlignmentCache.qmap_ c) qk false)
    as [[[node added] p] m] eqn:Hrb.
  apply rb_add_cases in Hrb
    as [([v Hv] & _)|[(_ & _ & -> & -> & ->)|(_ & _ & -> & -> & -> & ->)]];
    cbn [negb] in Hrun.
  - rewrite Hq in Hv. discriminate.
  - apply qmap_copy_refs in Hrun.
    cbn [AlignmentCache.set_qmap AlignmentCache.qmap_ AlignmentCache.set_pool
         AlignmentCache.qlist_] in Hrun.
    rewrite Hrun, lookup_insert_eq in Hq'. injection Hq' as <-. reflexivity.
  - injection Hrun as _ <-.
    cbn [AlignmentCache.set_qmap AlignmentCache.qmap_ AlignmentCache.set_pool] in Hq'.
    rewrite Hq in Hq'. discriminate.
Qed.

Lemma queryQval_loop_appends n : forall i (c : tier) ts r,
  AlignmentCache.queryQval_loop n i c ts = Some r ->
  exists tl, r = ts ++ tl /\ length tl = n
    /\ Forall2 (AlignmentCache.made_of c)
         (take n (drop (Z.to_nat i) (AlignmentCache.qlist_ c))) tl.
Proof.
  induction n as [|n IH]; intros i c ts r Hrun; cbn [AlignmentCache.queryQval_loop] in Hrun.
  - injection Hrun as <-. exists []. rewrite app_nil_r, take_0.
    split; [reflexivity|]. split; [reflexivity|constructor].
  - destruct (plist_get (AlignmentCache.qlist_ c) i) as [sak|] eqn:Hget; [|discriminate].
    cbn [mbind option_bind] in Hrun.
    apply plist_get_lookup in Hget as [Hi Hx].
    destruct (AlignmentCache.samap_ c !! sak) as [sav|] eqn:Hsav; [|discriminate].
    cbn [mbind option_bind] in Hrun.
    apply IH in Hrun as (tl & -> & Hlen & Htl).
    replace (Z.to_nat (i + 1)) with (S (Z.to_nat i)) in Htl by lia.
    eexists (_ :: tl). split; [rewrite <- app_assoc; reflexivity|].
    split; [cbn [length]; rewrite Hlen; reflexivity|].
    rewrite (take_drop_S _ _ _ _ Hx). constructor; [|exact Htl].
    exists sav. split; [exact Hsav|reflexivity].
Qed.

(** X13: [queryQval] and [queryEx] only append to [satups]: what was in the
    list stays in front.  [queryQval] appends one tuple per range of the
    payload, in the order of the tier's list of reference substrings, each
    made of the key at that place and of its suffix-array entry.
    [queryEx] appends nothing for a key the tier does not hold, and what
    [queryQval] appends for the key's payload otherwise. *)
Theorem queryEx_appends (ts : list SATuple.t) (c : tier) :
  (forall qv r,
     AlignmentCache.queryQval qv ts c = Some r ->
     exists tl, r = ts ++ tl
       /\ length tl = Z.to_nat (QVal.numRanges qv)
       /\ Forall2 (AlignmentCache.made_of c)
            (window (AlignmentCache.qlist_ c) (QVal.offset qv) (QVal.numRanges qv)) tl)
  /\ (forall k,
        match AlignmentCache.query k c with
        | None => AlignmentCache.queryEx k ts c = Some ts
        | Some qv => AlignmentCache.queryEx k ts c = AlignmentCache.queryQval qv ts c
        end).
Proof.
  split.
  - intros qv r. unfold AlignmentCache.queryQval, window.
    replace (QVal.offset qv + QVal.numRanges qv - QVal.offset qv)
      with (QVal.numRanges qv) by lia.
    apply queryQval_loop_appends.
  - intros k. unfold AlignmentCache.queryEx.
    destruct (AlignmentCache.query k c); reflexivity.
Qed.

End TierReads.

(** ** The session interface: further properties *)

Section IfaceMore.
Context `{PoolOps Pool}.

Abbreviation iface := (AlignmentCacheIface.t Pool).

Ltac session_fields :=
  cbn [AlignmentCacheIface.qk_ AlignmentCacheIface.qv_ AlignmentCacheIface.qvbuf_
       AlignmentCacheIface.cacheable_ AlignmentCacheIface.rangen_
       AlignmentCacheIface.eltsn_ AlignmentCacheIface.current_
       AlignmentCacheIface.local_ AlignmentCacheIface.shared_
       AlignmentCacheIface.set_qk AlignmentCacheIface.set_qv
       AlignmentCacheIface.set_qvbuf AlignmentCacheIface.set_cacheable
       AlignmentCacheIface.set_counters AlignmentCacheIface.set_current
       AlignmentCacheIface.set_local AlignmentCacheIface.set_shared
       AlignmentCacheIface.resetRead AlignmentCacheIface.aligning
       AlignmentCacheIface.load AlignmentCacheIface.store
       AlignmentCache.set_qmap AlignmentCache.qmap_] in *.

(** *** queryCopy *)

Lemma set_current_same (a : iface) :
  AlignmentCacheIface.set_current (AlignmentCacheIface.current_ a) a = a.
Proof. destruct a; reflexivity. Qed.

Lemma queryCopy_from_outcome qk qv src (a : iface) r a' :
  AlignmentCache.query qk (AlignmentCacheIface.current_ a) = None ->
  AlignmentCacheIface.queryCopy_from qk qv src a = Some (r, a') ->
  a' = AlignmentCacheIface.set_current (AlignmentCacheIface.current_ a') a
  /\ AlignmentCache.grows (AlignmentCacheIface.current_ a) (AlignmentCacheIface.current_ a')
  /\ (forall k, k <> qk ->
        AlignmentCache.query k (AlignmentCacheIface.current_ a')
        = AlignmentCache.query k (AlignmentCacheIface.current_ a))
  /\ (forall p, r = Some p ->
        p = PNode qk
        /\ exists v', AlignmentCacheIface.load p a' = Some v'
             /\ QVal.numRanges v' = QVal.numRanges qv
             /\ QVal.numElts v' = QVal.numElts qv).
Proof.
  unfold AlignmentCacheIface.queryCopy_from. intros Hq Hrun.
  destruct (AlignmentCache.copy qk qv src (AlignmentCacheIface.current_ a))
    as [[ok cur]|] eqn:Hc; [|discriminate].
  destruct (copy_only_appends_aux _ _ _ _ _ _ Hc) as [Hg Hfr].
  destruct ok.
  - injection Hrun as <- <-. session_fields.
    split; [reflexivity|]. split; [exact Hg|]. split; [exact Hfr|].
    intros p Hp. destruct (AlignmentCache.query qk cur) as [v'|] eqn:Hq'; [|discriminate].
    injection Hp as <-. split; [reflexivity|]. exists v'. split; [exact Hq'|].
    rewrite (copy_payload _ _ _ _ _ _ _ Hc Hq Hq'). split; reflexivity.
  - injection Hrun as <- <-. session_fields.
    split; [reflexivity|]. split; [exact Hg|]. split; [exact Hfr|]. discriminate.
Qed.

(** X14: [queryCopy] changes nothing but the current tier, and that tier only
    grows, by entries for [qk]: the session fields and the across-read
    tiers are as before, and so is every other key of the current tier.
    It returns NULL, and changes nothing at all, when [query] finds the
    key in no tier; it returns the current tier's entry, and changes
    nothing, when the current tier holds the key.  A pointer it returns is
    always the entry of [qk] in the current tier, never one into an
    across-read tier, and the payload there has the counts of the payload
    that [query] finds. *)
Theorem queryCopy_outcome qk (a : iface) r a' :
  AlignmentCacheIface.queryCopy qk a = Some (r, a') ->
  a' = AlignmentCacheIface.set_current (AlignmentCacheIface.current_ a') a
  /\ AlignmentCache.grows (AlignmentCacheIface.current_ a) (AlignmentCacheIface.current_ a')
  /\ (forall k, k <> qk ->
        AlignmentCache.query k (AlignmentCacheIface.current_ a')
        = AlignmentCache.query k (AlignmentCacheIface.current_ a))
  /\ (AlignmentCacheIface.query qk a = None -> r = None /\ a' = a)
  /\ (is_Some (AlignmentCache.query qk (AlignmentCacheIface.current_ a)) ->
      r = Some (PNode qk) /\ a' = a)
  /\ (forall p, r = Some p ->
        p = PNode qk
        /\ exists v w v',
             AlignmentCacheIface.query qk a = Some (v, w)
             /\ AlignmentCacheIface.load p a' = Some v'
             /\ QVal.numRanges v' = QVal.numRanges v
             /\ QVal.numElts v' = QVal.numElts v).
Proof.
  unfold AlignmentCacheIface.queryCopy, AlignmentCacheIface.query. intros Hrun.
  destruct (AlignmentCache.query qk (AlignmentCacheIface.current_ a)) as [v0|] eqn:Hcur.
  { injection Hrun as <- <-. rewrite set_current_same.
    split; [reflexivity|]. split; [apply grows_refl|]. split; [reflexivity|].
    split; [discriminate|]. split; [intros _; split; reflexivity|].
    intros p [= <-]. split; [reflexivity|]. exists v0, 0, v0.
    split; [reflexivity|]. split; [exact Hcur|]. split; reflexivity. }
  assert (forall qv src (w : Z),
            AlignmentCacheIface.queryCopy_from qk qv src a = Some (r, a') ->
            a' = AlignmentCacheIface.set_current (AlignmentCacheIface.current_ a') a
            /\ AlignmentCache.grows (AlignmentCacheIface.current_ a)
                 (AlignmentCacheIface.current_ a')
            /\ (forall k, k <> qk ->
                  AlignmentCache.query k (AlignmentCacheIface.current_ a')
                  = AlignmentCache.query k (AlignmentCacheIface.current_ a))
            /\ (Some (qv, w) = @None (QVal.t * Z) -> r = None /\ a' = a)
            /\ (is_Some (@None QVal.t) -> r = Some (PNode qk) /\ a' = a)
            /\ (forall p, r = Some p ->
                  p = PNode qk
                  /\ exists v w0 v',
                       Some (qv, w) = Some (v, w0)
                       /\ AlignmentCacheIface.load p a' = Some v'
                       /\ QVal.numRanges v' = QVal.numRanges v
                       /\ QVal.numElts v' = QVal.numElts v)) as Hfrom.
  { intros qv src w Hfrom.
    destruct (queryCopy_from_outcome _ _ _ _ _ _ Hcur Hfrom) as (Ha & Hg & Hfr & Hp).
    split; [exact Ha|]. split; [exact Hg|]. split; [exact Hfr|].
    split; [discriminate|]. split; [intros [? ?]; discriminate|].
    intros p Hr. destruct (Hp p Hr) as (-> & v' & Hld & Hn & He).
    split; [reflexivity|]. exists qv, w, v'. repeat split; assumption. }
  assert (r = None -> a' = a ->
          a' = AlignmentCacheIface.set_current (AlignmentCacheIface.current_ a') a
          /\ AlignmentCache.grows (AlignmentCacheIface.current_ a)
               (AlignmentCacheIface.current_ a')
          /\ (forall k, k <> qk ->
                AlignmentCache.query k (AlignmentCacheIface.current_ a')
                = AlignmentCache.query k (AlignmentCacheIface.current_ a))) as Hnone.
  { intros -> ->. rewrite set_current_same. split; [reflexivity|].
    split; [apply grows_refl|]. reflexivity. }
  destruct (AlignmentCacheIface.local_ a) as [l|]; cbn [mbind option_bind].
  - destruct (AlignmentCache.query qk l) as [qv|] eqn:Hl; [exact (Hfrom qv l 1 Hrun)|].
    destruct (AlignmentCacheIface.shared_ a) as [s|]; cbn [mbind option_bind].
    + destruct (AlignmentCache.query qk s) as [qv|] eqn:Hs; [exact (Hfrom qv s 2 Hrun)|].
      injection Hrun as <- <-. destruct (Hnone eq_refl eq_refl) as (A & B & C).
      split; [exact A|]. split; [exact B|]. split; [exact C|].
      split; [intros _; split; reflexivity|]. split; [intros [? ?]; discriminate|].
      discriminate.
    + injection Hrun as <- <-. destruct (Hnone eq_refl eq_refl) as (A & B & C).
      split; [exact A|]. split; [exact B|]. split; [exact C|].
      split; [intros _; split; reflexivity|]. split; [intros [? ?]; discriminate|].
      discriminate.
  - destruct (AlignmentCacheIface.shared_ a) as [s|]; cbn [mbind option_bind].
    + destruct (AlignmentCache.query qk s) as [qv|] eqn:Hs; [exact (Hfrom qv s 2 Hrun)|].
      injection Hrun as <- <-. destruct (Hnone eq_refl eq_refl) as (A & B & C).
      split; [exact A|]. split; [exact B|]. split; [exact C|].
      split; [intros _; split; reflexivity|]. split; [intros [? ?]; discriminate|].
      discriminate.
    + injection Hrun as <- <-. destruct (Hnone eq_refl eq_refl) as (A & B & C).
      split; [exact A|]. split; [exact B|]. split; [exact C|].
      split; [intros _; split; reflexivity|]. split; [intros [? ?]; discriminate|].
      discriminate.
Qed.


(** *** A read that was finished is found again *)

(** X15: What [finishAlign] returns for a cacheable read is what the next
    [beginAlign] of the same read finds: with the handle on the entry of
    the session key in the current tier, [finishAlign] returns a valid
    payload, and [beginAlign] on a sequence with that key then returns 1
    with the same payload in the out parameter, and leaves the interface
    as [finishAlign] left it. *)
Theorem finished_read_hits seq out (a : iface) v a' log :
  AlignmentCacheIface.qv_ a = PNode (AlignmentCacheIface.qk_ a) ->
  QKey.of_string seq = AlignmentCacheIface.qk_ a ->
  QKey.cacheable (AlignmentCacheIface.qk_ a) = true ->
  AlignmentCacheIface.finishAlign a = Some (v, a', log) ->
  QVal.valid v = true
  /\ AlignmentCache.query (AlignmentCacheIface.qk_ a) (AlignmentCacheIface.current_ a')
     = Some v
  /\ AlignmentCacheIface.beginAlign seq out a' = Some (1, v, a').
Proof.
  intros Hqv Hseq Hc. unfold AlignmentCacheIface.finishAlign. rewrite Hqv.
  cbn [AlignmentCacheIface.load]. intros Hrun.
  destruct (AlignmentCache.qmap_ (AlignmentCacheIface.current_ a)
              !! AlignmentCacheIface.qk_ a) as [v0|] eqn:Hv0; [|discriminate].
  cbn [mbind option_bind] in Hrun.
  assert (exists a1 v1,
            (if QVal.valid v0 then Some a
             else AlignmentCacheIface.store (PNode (AlignmentCacheIface.qk_ a))
                    (QVal.init 0 0 0) a) = Some a1
            /\ AlignmentCacheIface.qk_ a1 = AlignmentCacheIface.qk_ a
            /\ AlignmentCacheIface.qv_ a1 = PNode (AlignmentCacheIface.qk_ a)
            /\ AlignmentCache.qmap_ (AlignmentCacheIface.current_ a1)
                 !! AlignmentCacheIface.qk_ a = Some v1
            /\ QVal.valid v1 = true) as (a1 & v1 & Ha1 & Hk1 & Hp1 & Hv1 & Hval1).
  { destruct (QVal.valid v0) eqn:Hval.
    - exists a, v0. repeat split; assumption.
    - cbn [AlignmentCacheIface.store]. rewrite Hv0. eexists _, (QVal.init 0 0 0).
      split; [reflexivity|]. session_fields.
      split; [reflexivity|]. split; [exact Hqv|].
      split; [apply lookup_insert_eq|reflexivity]. }
  rewrite Ha1 in Hrun. cbn [mbind option_bind] in Hrun.
  rewrite Hk1, Hc, Hp1 in Hrun. cbn [AlignmentCacheIface.load] in Hrun.
  rewrite Hv1 in Hrun. cbn [mbind option_bind] in Hrun.
  assert (forall b log0,
            AlignmentCacheIface.qk_ b = AlignmentCacheIface.qk_ a ->
            AlignmentCacheIface.current_ b = AlignmentCacheIface.current_ a1 ->
            (AlignmentCacheIface.load (PNode (AlignmentCacheIface.qk_ a))
               (AlignmentCacheIface.resetRead b)
             ≫= fun ret => Some (ret, AlignmentCacheIface.resetRead b, log0))
            = Some (v, a', log) ->
            QVal.valid v = true
            /\ AlignmentCache.query (AlignmentCacheIface.qk_ a)
                 (AlignmentCacheIface.current_ a') = Some v
            /\ AlignmentCacheIface.beginAlign seq out a' = Some (1, v, a')) as Hend.
  { intros b log0 Hkb Hcb. cbn [AlignmentCacheIface.load]. session_fields.
    rewrite Hcb, Hv1. cbn [mbind option_bind]. intros [= <- <- <-].
    split; [exact Hval1|]. session_fields. unfold AlignmentCache.query.
    rewrite Hcb. split; [exact Hv1|].
    unfold AlignmentCacheIface.beginAlign, AlignmentCacheIface.beginAlign_handle.
    session_fields. rewrite Hseq, Hc. unfold AlignmentCache.query. session_fields.
    rewrite Hcb, Hv1. session_fields. rewrite Hcb, Hv1. cbn [mbind option_bind].
    rewrite <- Hkb. destruct b; reflexivity. }
  destruct (AlignmentCacheIface.local_ a1) as [l|] eqn:Hl.
  - destruct (AlignmentCache.clearCopy (AlignmentCacheIface.qk_ a) v1
                (AlignmentCacheIface.current_ a1) l) as [r0|]; [|discriminate].
    cbn [mbind option_bind fst snd] in Hrun.
    exact (Hend (AlignmentCacheIface.set_local (Some r0.2) a1) [Local] Hk1 eq_refl Hrun).
  - destruct (AlignmentCacheIface.shared_ a1) as [s|] eqn:Hs.
    + destruct (AlignmentCache.clearCopy (AlignmentCacheIface.qk_ a) v1
                  (AlignmentCacheIface.current_ a1) s) as [r0|]; [|discriminate].
      cbn [mbind option_bind fst snd] in Hrun.
      exact (Hend (AlignmentCacheIface.set_shared (Some r0.2) a1) [Shared] Hk1 eq_refl Hrun).
    + cbn [mbind option_bind fst snd] in Hrun.
      exact (Hend a1 [] Hk1 eq_refl Hrun).
Qed.

(** *** clear in the middle of a session *)



(** *** The counters and repOk *)

Lemma beginAlign_counters seq qv (a : iface) ret out a' :
  AlignmentCacheIface.beginAlign seq qv a = Some (ret, out, a') ->
  (AlignmentCacheIface.rangen_ a' = 0 /\ AlignmentCacheIface.eltsn_ a' = 0)
  \/ (AlignmentCacheIface.rangen_ a' = AlignmentCacheIface.rangen_ a
      /\ AlignmentCacheIface.eltsn_ a' = AlignmentCacheIface.eltsn_ a).
Proof.
  unfold AlignmentCacheIface.beginAlign.
  destruct (AlignmentCacheIface.beginAlign_handle seq a) as [hit a1] eqn:Hh.
  assert (AlignmentCacheIface.rangen_ a1 = AlignmentCacheIface.rangen_ a
          /\ AlignmentCacheIface.eltsn_ a1 = AlignmentCacheIface.eltsn_ a) as [Hr He].
  { unfold AlignmentCacheIface.beginAlign_handle in Hh. session_fields.
    destruct (QKey.cacheable (QKey.of_string seq)).
    - destruct (AlignmentCache.query (QKey.of_string seq) (AlignmentCacheIface.current_ a)).
      + injection Hh as _ <-. split; reflexivity.
      + destruct (AlignmentCache.add _ _ _) as [[n added] cur].
        injection Hh as _ <-. split; reflexivity.
    - injection Hh as _ <-. split; reflexivity. }
  destruct hit.
  - destruct (AlignmentCacheIface.load (AlignmentCacheIface.qv_ a1) a1) as [found|];
      [|discriminate].
    cbn [mbind option_bind]. intros [= _ _ <-]. left. split; reflexivity.
  - destruct (AlignmentCacheIface.qv_ a1) as [|k|] eqn:Hp.
    + intros [= _ _ <-]. left. split; reflexivity.
    + destruct (AlignmentCacheIface.store (PNode k) QVal.reset a1) as [a2|] eqn:Hst;
        [|discriminate].
      cbn [mbind option_bind]. intros [= _ _ <-].
      apply store_session in Hst as (_ & _ & Hr2 & He2 & _). right. split; congruence.
    + destruct (AlignmentCacheIface.store PBuf QVal.reset a1) as [a2|] eqn:Hst;
        [|discriminate].
      cbn [mbind option_bind]. intros [= _ _ <-].
      apply store_session in Hst as (_ & _ & Hr2 & He2 & _). right. split; congruence.
Qed.

Lemma addOnTheFly_counters rfseq topf botf (a : iface) ok a' :
  AlignmentCacheIface.addOnTheFly rfseq topf botf a = Some (ok, a') ->
  AlignmentCacheIface.aligning a' = true
  /\ if ok
     then AlignmentCacheIface.rangen_ a' = u64 (AlignmentCacheIface.rangen_ a + 1)
          /\ AlignmentCacheIface.eltsn_ a'
             = u64 (AlignmentCacheIface.eltsn_ a + u32 (botf - topf))
     else AlignmentCacheIface.rangen_ a' = AlignmentCacheIface.rangen_ a
          /\ AlignmentCacheIface.eltsn_ a' = AlignmentCacheIface.eltsn_ a.
Proof.
  intros Hrun. split; [exact (addOnTheFly_aligning _ _ _ _ _ _ Hrun)|].
  revert Hrun. unfold AlignmentCacheIface.addOnTheFly.
  destruct (AlignmentCacheIface.load (AlignmentCacheIface.qv_ a) a) as [v|];
    [|discriminate].
  cbn [mbind option_bind].
  destruct (AlignmentCache.addOnTheFly v _ topf botf _) as [[ok1 v1] cur].
  match goal with
  | |- context [AlignmentCacheIface.store ?p ?w ?b] =>
      destruct (AlignmentCacheIface.store p w b) as [a2|] eqn:Hst; [|discriminate]
  end.
  cbn [mbind option_bind].
  apply store_session in Hst as (_ & _ & Hr2 & He2 & _). session_fields.
  destruct ok1; intros [= <- <-]; session_fields; split; congruence.
Qed.

(** X17: The interface keeps what [repOk] asserts, as long as every range added
    is non-empty and the element counter does not overflow: if [repOk]
    holds, then it holds after any public call that is defined, where for
    [addOnTheFly(rfseq, topf, botf)] the difference [botf - topf] (on
    [uint32_t]) is not 0 and the sum of the element counter and that
    difference is below 2^64. *)
Theorem repOk_kept op (a a' : iface) :
  AlignmentCacheIface.repOk a = true ->
  0 <= AlignmentCacheIface.rangen_ a ->
  (forall rfseq topf botf,
     op = AlignmentCacheIface.AddOnTheFly rfseq topf botf ->
     u32 (botf - topf) <> 0
     /\ AlignmentCacheIface.eltsn_ a + u32 (botf - topf) < 2 ^ 64) ->
  AlignmentCacheIface.step op a = Some a' ->
  AlignmentCacheIface.repOk a' = true /\ 0 <= AlignmentCacheIface.rangen_ a'.
Proof.
  intros Hok Hr0 Hadd Hstep.
  assert (forall b : iface,
            AlignmentCacheIface.repOk b = true
            <-> AlignmentCacheIface.rangen_ b <= AlignmentCacheIface.eltsn_ b
                /\ AlignmentCacheIface.idle_zero b) as Hrep.
  { intros b. unfold AlignmentCacheIface.repOk, AlignmentCacheIface.idle_zero.
    rewrite andb_true_iff, Z.leb_le.
    destruct (AlignmentCacheIface.aligning b).
    - split; [intros [? _]; split; [assumption|discriminate]|intros [? _]; split; auto].
    - rewrite andb_true_iff, !Z.eqb_eq.
      split; [intros [? ?]; split; auto|intros [? Hz]; split; auto]. }
  apply Hrep in Hok as [Hle Hidle].
  pose proof (step_idle_zero _ _ _ Hidle Hstep) as Hidle'.
  enough (AlignmentCacheIface.rangen_ a' <= AlignmentCacheIface.eltsn_ a'
          /\ 0 <= AlignmentCacheIface.rangen_ a') as [Hle' Hr0'].
  { split; [apply Hrep; split; assumption|assumption]. }
  clear Hrep Hidle Hidle'.
  destruct op; cbn [AlignmentCacheIface.step] in Hstep;
    try (injection Hstep as <-; split; assumption).
  - destruct (AlignmentCacheIface.queryCopy qk a) as [[r a1]|] eqn:Hq; [|discriminate].
    injection Hstep as <-. apply queryCopy_session in Hq as (_ & Hr & He).
    cbn [snd]. rewrite Hr, He. split; assumption.
  - destruct (AlignmentCacheIface.beginAlign seq qv a) as [[[ret out] a1]|] eqn:Hb;
      [|discriminate].
    injection Hstep as <-. cbn [snd].
    apply beginAlign_counters in Hb as [[-> ->]|[-> ->]]; split; (assumption || lia).
  - destruct (AlignmentCacheIface.finishAlign a) as [[[v a1] log]|] eqn:Hf;
      [|discriminate].
    injection Hstep as <-. apply finishAlign_ends in Hf as [b ->].
    cbn. split; lia.
  - injection Hstep as <-. cbn. split; lia.
  - destruct (AlignmentCacheIface.addOnTheFly rfseq topf botf a) as [[ok a1]|] eqn:Ha;
      [|discriminate].
    injection Hstep as <-. cbn [snd].
    apply addOnTheFly_counters in Ha as [_ Hcnt].
    destruct (Hadd _ _ _ eq_refl) as [Hne Hsum].
    pose proof (u32_range (botf - topf)) as Hd.
    destruct ok; destruct Hcnt as [-> ->]; [|split; assumption].
    rewrite (u64_small (AlignmentCacheIface.eltsn_ a + u32 (botf - topf))) by lia.
    unfold u64, wrap. split.
    + pose proof (Z.mod_le (AlignmentCacheIface.rangen_ a + 1) (2 ^ 64)). lia.
    + apply Z.mod_pos_bound. lia.
  - destruct (AlignmentCacheIface.queryEx k satups a); [|discriminate].
    injection Hstep as <-. split; assumption.
  - destruct (AlignmentCacheIface.queryQval qv satups a); [|discriminate].
    injection Hstep as <-. split; assumption.
Qed.

(** X18: The condition on the ranges is needed: when the two counters are
    equal, as they are at the start of a session, an [addOnTheFly] of an
    empty range ([topf = botf]) that succeeds leaves one range and no
    element more, and [repOk] no longer holds. *)
Theorem empty_range_breaks_repOk rfseq topf (a a' : iface) :
  AlignmentCacheIface.rangen_ a = AlignmentCacheIface.eltsn_ a ->
  0 <= AlignmentCacheIface.rangen_ a < 2 ^ 64 - 1 ->
  AlignmentCacheIface.addOnTheFly rfseq topf topf a = Some (true, a') ->
  AlignmentCacheIface.curNumRanges a' = AlignmentCacheIface.curNumRanges a + 1
  /\ AlignmentCacheIface.curNumElts a' = AlignmentCacheIface.curNumElts a
  /\ AlignmentCacheIface.repOk a' = false.
Proof.
  intros Heq Hr Hrun. apply addOnTheFly_counters in Hrun as [_ [Hr' He']].
  rewrite Z.sub_diag in He'. change (u32 0) with 0 in He'. rewrite Z.add_0_r in He'.
  rewrite u64_small in Hr' by lia. rewrite u64_small in He' by lia.
  unfold AlignmentCacheIface.curNumRanges, AlignmentCacheIface.curNumElts,
    AlignmentCacheIface.repOk.
  split; [exact Hr'|]. split; [exact He'|].
  apply andb_false_iff. left. apply Z.leb_gt. lia.
Qed.

End IfaceMore.

Lemma queryCopy_outcome_witness :
  AlignmentCacheIface.queryCopy (QKey.mk 27 4) recall_iface
  = Some (Some (PNode (QKey.mk 27 4)), recalled_iface)
  /\ recalled_iface
     = AlignmentCacheIface.set_current (AlignmentCacheIface.current_ recalled_iface)
         recall_iface
  /\ AlignmentCache.grows (AlignmentCacheIface.current_ recall_iface)
       (AlignmentCacheIface.current_ recalled_iface)
  /\ (forall k, k <> QKey.mk 27 4 ->
        AlignmentCache.query k (AlignmentCacheIface.current_ recalled_iface)
        = AlignmentCache.query k (AlignmentCacheIface.current_ recall_iface))
  /\ (AlignmentCacheIface.query (QKey.mk 27 4) recall_iface = None ->
      Some (PNode (QKey.mk 27 4)) = None /\ recalled_iface = recall_iface)
  /\ (is_Some (AlignmentCache.query (QKey.mk 27 4)
                 (AlignmentCacheIface.current_ recall_iface)) ->
      Some (PNode (QKey.mk 27 4)) = Some (PNode (QKey.mk 27 4))
      /\ recalled_iface = recall_iface)
  /\ (forall p, Some (PNode (QKey.mk 27 4)) = Some p ->
        p = PNode (QKey.mk 27 4)
        /\ exists v w v',
             AlignmentCacheIface.query (QKey.mk 27 4) recall_iface = Some (v, w)
             /\ AlignmentCacheIface.load p recalled_iface = Some v'
             /\ QVal.numRanges v' = QVal.numRanges v
             /\ QVal.numElts v' = QVal.numElts v).
Proof.
  assert (AlignmentCacheIface.queryCopy (QKey.mk 27 4) recall_iface
          = Some (Some (PNode (QKey.mk 27 4)), recalled_iface)) as Hc
    by (vm_compute; reflexivity).
  split; [exact Hc|].
  exact (queryCopy_outcome (QKey.mk 27 4) recall_iface (Some (PNode (QKey.mk 27 4)))
           recalled_iface Hc).
Defined.

Lemma finished_read_hits_witness :
  AlignmentCacheIface.finishAlign session_alone
  = Some (QVal.mk 0 2 5, finished_alone, [])
  /\ QVal.valid (QVal.mk 0 2 5) = true
  /\ AlignmentCache.query (AlignmentCacheIface.qk_ session_alone)
       (AlignmentCacheIface.current_ finished_alone) = Some (QVal.mk 0 2 5)
  /\ AlignmentCacheIface.beginAlign [base_A; base_C; base_G; base_T] QVal.reset
       finished_alone
     = Some (1, QVal.mk 0 2 5, finished_alone).
Proof.
  assert (AlignmentCacheIface.finishAlign session_alone
          = Some (QVal.mk 0 2 5, finished_alone, [])) as Hf by (vm_compute; reflexivity).
  split; [exact Hf|].
  apply (finished_read_hits [base_A; base_C; base_G; base_T] QVal.reset session_alone
           (QVal.mk 0 2 5) finished_alone []).
  - vm_compute. reflexivity.
  - vm_compute. reflexivity.
  - vm_compute. reflexivity.
  - exact Hf.
Defined.


Lemma repOk_kept_witness :
  AlignmentCacheIface.repOk session_one_range = true
  /\ 0 <= AlignmentCacheIface.rangen_ session_one_range.
Proof.
  apply (repOk_kept
           (AlignmentCacheIface.AddOnTheFly [base_A; base_A; base_A; base_A] 10 12)
           session_begun session_one_range).
  - vm_compute. reflexivity.
  - vm_compute. discriminate.
  - intros rfseq topf botf [= <- <- <-]. split; [vm_compute; discriminate|].
    vm_compute. reflexivity.
  - vm_compute. reflexivity.
Defined.

Lemma empty_range_breaks_repOk_witness :
  AlignmentCacheIface.curNumRanges session_empty_range
  = AlignmentCacheIface.curNumRanges session_begun + 1
  /\ AlignmentCacheIface.curNumElts session_empty_range
     = AlignmentCacheIface.curNumElts session_begun
  /\ AlignmentCacheIface.repOk session_empty_range = false.
Proof.
  apply (empty_range_breaks_repOk [base_A; base_A; base_A; base_A] 10 session_begun
           session_empty_range).
  - vm_compute. reflexivity.
  - vm_compute. split; [discriminate|reflexivity].
  - vm_compute. reflexivity.
Defined.

(** *** beginAlign after nextRead *)

Section IfaceNext.
Context `{PoolOps Pool}.

(** X19: [beginAlign] looks the read up in the current tier only, so after
    [nextRead], which clears that tier, it never returns 1, whatever the
    across-read tiers hold: it is defined, leaves the out parameter and
    the across-read tiers alone, and returns 0, or -1 when the key is
    cacheable and the cleared pool has no room for its node. *)
Theorem nextRead_then_beginAlign_misses seq out (a : AlignmentCacheIface.t Pool) :
  exists ret a',
    AlignmentCacheIface.beginAlign seq out (AlignmentCacheIface.nextRead a)
    = Some (ret, out, a')
    /\ (ret = 0 \/ ret = -1)
    /\ (ret = -1 <->
        QKey.cacheable (QKey.of_string seq) = true
        /\ pool_alloc CQMap
             (pool_clear (AlignmentCache.pool_ (AlignmentCacheIface.current_ a))) = None)
    /\ AlignmentCacheIface.local_ a' = AlignmentCacheIface.local_ a
    /\ AlignmentCacheIface.shared_ a' = AlignmentCacheIface.shared_ a.
Proof.
  unfold AlignmentCacheIface.beginAlign, AlignmentCacheIface.beginAlign_handle,
    AlignmentCacheIface.nextRead.
  cbn [AlignmentCacheIface.qk_ AlignmentCacheIface.set_qk AlignmentCacheIface.resetRead
       AlignmentCacheIface.set_qv AlignmentCacheIface.set_counters
       AlignmentCacheIface.set_cacheable AlignmentCacheIface.set_current
       AlignmentCacheIface.current_ AlignmentCacheIface.cacheable_].
  destruct (QKey.cacheable (QKey.of_string seq)) eqn:Hc.
  - unfold AlignmentCache.query, AlignmentCache.add, rb_add.
    cbn [AlignmentCache.clear AlignmentCache.qmap_ AlignmentCache.pool_].
    rewrite !lookup_empty.
    destruct (pool_alloc CQMap (pool_clear (AlignmentCache.pool_ (AlignmentCacheIface.current_ a))))
      as [p|] eqn:Hp.
    + cbn [AlignmentCacheIface.qv_ AlignmentCacheIface.set_qv AlignmentCacheIface.store
           AlignmentCacheIface.current_ AlignmentCacheIface.set_current
           AlignmentCacheIface.set_cacheable AlignmentCache.set_qmap
           AlignmentCache.set_pool AlignmentCache.qmap_].
      rewrite lookup_insert_eq. cbn [mbind option_bind].
      eexists 0, _. split; [reflexivity|]. split; [left; reflexivity|].
      split; [|split; reflexivity]. split; [discriminate|intros [_ ?]; discriminate].
    + cbn [AlignmentCacheIface.qv_ AlignmentCacheIface.set_qv].
      eexists (-1), _. split; [reflexivity|]. split; [right; reflexivity|].
      split; [|split; reflexivity]. split; [intros _; split; reflexivity|reflexivity].
  - cbn [AlignmentCacheIface.qv_ AlignmentCacheIface.set_qv AlignmentCacheIface.store
         mbind option_bind].
    eexists 0, _. split; [reflexivity|]. split; [left; reflexivity|].
    split; [|split; reflexivity]. split; [discriminate|intros [? _]; discriminate].
Qed.

End IfaceNext.

(** *** What finishAlign does to the across-read tiers *)

Section IfacePromote.
Context `{PoolOps Pool}.

Lemma clearCopy_present qk qv (src c : AlignmentCache.t Pool) :
  is_Some (AlignmentCache.query qk c) ->
  AlignmentCache.clearCopy qk qv src c = Some (false, c).
Proof.
  unfold AlignmentCache.query. intros [v Hv].
  unfold AlignmentCache.clearCopy, AlignmentCache.copy, rb_add. rewrite Hv.
  cbn [negb]. rewrite set_same. reflexivity.
Qed.

Lemma clearCopy_effect qk qv (src c : AlignmentCache.t Pool) r :
  AlignmentCache.clearCopy qk qv src c = Some r ->
  (AlignmentCache.grows c r.2
   \/ AlignmentCache.version r.2 = u32 (AlignmentCache.version c + 1))
  /\ (is_Some (AlignmentCache.query qk c) -> r.2 = c).
Proof.
  intros Hrun. split.
  - revert Hrun. unfold AlignmentCache.clearCopy.
    destruct (AlignmentCache.copy qk qv src c) as [[[|] c1]|] eqn:Hc1; [| |discriminate].
    + intros [= <-]. left. apply (copy_only_appends_aux _ _ _ _ _ _ Hc1).
    + destruct (AlignmentCache.copy qk qv src (AlignmentCache.clear c1)) as [[ok2 c2]|] eqn:Hc2;
        [|discriminate].
      intros [= <-]. right. cbn [snd].
      destruct (copy_only_appends_aux _ _ _ _ _ _ Hc1) as [(_ & _ & _ & _ & Hv1 & _) _].
      destruct (copy_only_appends_aux _ _ _ _ _ _ Hc2) as [(_ & _ & _ & _ & Hv2 & _) _].
      unfold AlignmentCache.version. rewrite Hv2. cbn [AlignmentCache.clear
        AlignmentCache.version_]. rewrite Hv1. reflexivity.
  - intros Hin. rewrite (clearCopy_present _ _ _ _ Hin) in Hrun.
    injection Hrun as <-. reflexivity.
Qed.

(** X20: [finishAlign] touches at most one across-read tier, and only by
    [clearCopy]: with a local tier, the shared tier is as before and the
    local tier has either only grown or been cleared once (version up by
    one modulo 2^32); without a local tier the same holds of the shared
    tier.  A tier that already holds the session key is left exactly as it
    was: the payload of the session that ends is not written over the one
    in the tier. *)
Theorem finishAlign_promotion (a : AlignmentCacheIface.t Pool) v a' log :
  AlignmentCacheIface.finishAlign a = Some (v, a', log) ->
  match AlignmentCacheIface.local_ a with
  | Some _ =>
      AlignmentCacheIface.kept_or_turned (AlignmentCacheIface.qk_ a)
        (AlignmentCacheIface.local_ a) (AlignmentCacheIface.local_ a')
      /\ AlignmentCacheIface.shared_ a' = AlignmentCacheIface.shared_ a
  | None =>
      AlignmentCacheIface.local_ a' = None
      /\ AlignmentCacheIface.kept_or_turned (AlignmentCacheIface.qk_ a)
           (AlignmentCacheIface.shared_ a) (AlignmentCacheIface.shared_ a')
  end.
Proof.
  assert (forall qk (c : option (AlignmentCache.t Pool)),
            AlignmentCacheIface.kept_or_turned qk c c) as Hsame.
  { intros qk [c|]; [|reflexivity]. exists c. split; [reflexivity|].
    split; [left; apply grows_refl|reflexivity]. }
  unfold AlignmentCacheIface.finishAlign.
  destruct (AlignmentCacheIface.load (AlignmentCacheIface.qv_ a) a) as [v0|] eqn:Hv0;
    [|discriminate].
  cbn [mbind option_bind].
  assert (forall a1,
            (if QVal.valid v0 then Some a
             else AlignmentCacheIface.store (AlignmentCacheIface.qv_ a) (QVal.init 0 0 0) a)
            = Some a1 ->
            AlignmentCacheIface.qk_ a1 = AlignmentCacheIface.qk_ a
            /\ AlignmentCacheIface.local_ a1 = AlignmentCacheIface.local_ a
            /\ AlignmentCacheIface.shared_ a1 = AlignmentCacheIface.shared_ a) as Hfirst.
  { intros a1. destruct (QVal.valid v0).
    - intros [= <-]. repeat split; reflexivity.
    - intros Hst. pose proof (store_session _ _ _ _ Hst) as (_ & Hk & _ & _ & Hl & Hs & _).
      split; [exact Hk|]. split; [exact Hl|exact Hs]. }
  destruct (if QVal.valid v0 then Some a
            else AlignmentCacheIface.store (AlignmentCacheIface.qv_ a) (QVal.init 0 0 0) a)
    as [a1|]; [|discriminate].
  destruct (Hfirst a1 eq_refl) as (Hk & Hl & Hs). clear Hfirst.
  cbn [mbind option_bind].
  assert (forall b log0,
            (AlignmentCacheIface.load (AlignmentCacheIface.qv_ a1)
               (AlignmentCacheIface.resetRead b)
             ≫= fun ret => Some (ret, AlignmentCacheIface.resetRead b, log0))
            = Some (v, a', log) ->
            AlignmentCacheIface.local_ a' = AlignmentCacheIface.local_ b
            /\ AlignmentCacheIface.shared_ a' = AlignmentCacheIface.shared_ b) as Hend.
  { intros b log0.
    destruct (AlignmentCacheIface.load (AlignmentCacheIface.qv_ a1)
                (AlignmentCacheIface.resetRead b)); [|discriminate].
    cbn [mbind option_bind]. intros [= _ <- _]. split; reflexivity. }
  rewrite <- Hl, <- Hs, <- Hk.
  destruct (QKey.cacheable (AlignmentCacheIface.qk_ a1)).
  - destruct (AlignmentCacheIface.load (AlignmentCacheIface.qv_ a1) a1) as [v1|];
      [|discriminate].
    cbn [mbind option_bind].
    destruct (AlignmentCacheIface.local_ a1) as [l|] eqn:Hl1.
    + destruct (AlignmentCache.clearCopy (AlignmentCacheIface.qk_ a1) v1
                  (AlignmentCacheIface.current_ a1) l) as [r0|] eqn:Hcc; [|discriminate].
      cbn [mbind option_bind fst snd]. intros Hrun.
      apply Hend in Hrun as [-> ->].
      cbn [AlignmentCacheIface.local_ AlignmentCacheIface.shared_
           AlignmentCacheIface.set_local].
      split; [|reflexivity]. exists r0.2. split; [reflexivity|].
      apply (clearCopy_effect _ _ _ _ _ Hcc).
    + destruct (AlignmentCacheIface.shared_ a1) as [s|] eqn:Hs1.
      * destruct (AlignmentCache.clearCopy (AlignmentCacheIface.qk_ a1) v1
                    (AlignmentCacheIface.current_ a1) s) as [r0|] eqn:Hcc; [|discriminate].
        cbn [mbind option_bind fst snd]. intros Hrun.
        apply Hend in Hrun as [-> ->].
        cbn [AlignmentCacheIface.local_ AlignmentCacheIface.shared_
             AlignmentCacheIface.set_shared].
        split; [exact Hl1|]. exists r0.2. split; [reflexivity|].
        apply (clearCopy_effect _ _ _ _ _ Hcc).
      * cbn [mbind option_bind fst snd]. intros Hrun.
        apply Hend in Hrun as [-> ->]. rewrite Hl1, Hs1. split; reflexivity.
  - cbn [mbind option_bind fst snd]. intros Hrun.
    apply Hend in Hrun as [-> ->].
    destruct (AlignmentCacheIface.local_ a1); (split; [|reflexivity || apply Hsame]);
      [apply Hsame|reflexivity].
Qed.

End IfacePromote.

Lemma finishAlign_promotion_witness :
  AlignmentCacheIface.finishAlign session_local
  = Some (QVal.mk 0 2 5, finished_local, [Local])
  /\ AlignmentCacheIface.kept_or_turned (AlignmentCacheIface.qk_ session_local)
       (AlignmentCacheIface.local_ session_local) (AlignmentCacheIface.local_ finished_local)
  /\ AlignmentCacheIface.shared_ finished_local = AlignmentCacheIface.shared_ session_local.
Proof.
  assert (AlignmentCacheIface.finishAlign session_local
          = Some (QVal.mk 0 2 5, finished_local, [Local])) as Hf by (vm_compute; reflexivity).
  split; [exact Hf|].
  exact (finishAlign_promotion session_local (QVal.mk 0 2 5) finished_local [Local] Hf).
Defined.
